(** * The ASN.1 formatter of the Obsidian plugin, embedded in Rocq

    The formatter is the method [formatASN1Code] of the plugin class and the
    private helpers it reaches: [simpleFormatASN1],
    [formatTypeDefinitionsWithNestedBraces], [findMatchingBrace],
    [formatSingleTypeDefinition], [cleanupSpacing], [fallbackFormat],
    [normalizeFieldContent] and [splitTopLevelByComma].

    JavaScript strings are sequences of UTF-16 code units; they are modelled
    as lists of code units, indices as [Z] (so that the not-found value -1 and
    the clamping of [substring] are the ones of the source), and the regular
    expressions through a small backtracking matcher for the constructs the
    source uses. *)

From Stdlib Require Import String Ascii.
From Stdlib Require Import List ZArith NArith Lia Bool.
Import ListNotations.

(** ** Strings *)

Definition char := N.
Definition jsstring := list char.

Definition str (s : string) : jsstring := map N_of_ascii (list_ascii_of_string s).
Arguments str s%_string.

Definition nl : char := 10%N.
Definition space : char := 32%N.
Definition comma : char := 44%N.
Definition quote : char := 34%N.
Definition backslash : char := 92%N.
Definition lbrace : char := 123%N.
Definition rbrace : char := 125%N.
Definition lparen : char := 40%N.
Definition rparen : char := 41%N.
Definition lbracket : char := 91%N.
Definition rbracket : char := 93%N.

(** White space and line terminators of ECMAScript: the class [\s] of
    regular expressions and the characters removed by [trim]. *)
Definition is_space (c : char) : bool :=
  ((9 <=? c) && (c <=? 13) || (c =? 32) || (c =? 160) || (c =? 5760)
   || (8192 <=? c) && (c <=? 8202) || (c =? 8232) || (c =? 8233)
   || (c =? 8239) || (c =? 8287) || (c =? 12288) || (c =? 65279))%N.

(** The class [\w]: ASCII letters, digits and the underscore. *)
Definition is_word (c : char) : bool :=
  ((48 <=? c) && (c <=? 57) || (65 <=? c) && (c <=? 90) || (c =? 95)
   || (97 <=? c) && (c <=? 122))%N.

Definition is_nl (c : char) : bool := (c =? nl)%N.

Fixpoint drop_while (p : char -> bool) (s : jsstring) : jsstring :=
  match s with
  | c :: s' => if p c then drop_while p s' else s
  | [] => []
  end.

Fixpoint take_while (p : char -> bool) (s : jsstring) : jsstring :=
  match s with
  | c :: s' => if p c then c :: take_while p s' else []
  | [] => []
  end.

Definition trimStart (s : jsstring) : jsstring := drop_while is_space s.
Definition trimEnd (s : jsstring) : jsstring := rev (drop_while is_space (rev s)).
Definition trim (s : jsstring) : jsstring := trimEnd (trimStart s).

Fixpoint starts_with (l s : jsstring) : bool :=
  match l, s with
  | [], _ => true
  | a :: l', b :: s' => (a =? b)%N && starts_with l' s'
  | _ :: _, [] => false
  end.

(** [s.includes(l)] *)
Fixpoint includes (l s : jsstring) : bool :=
  starts_with l s || match s with [] => false | _ :: s' => includes l s' end.

(** [s.indexOf(c)] for a one-character needle. *)
Fixpoint indexOf_from (c : char) (s : jsstring) (i : Z) : Z :=
  match s with
  | [] => (-1)%Z
  | d :: s' => if (d =? c)%N then i else indexOf_from c s' (i + 1)%Z
  end.
Definition indexOf (c : char) (s : jsstring) : Z := indexOf_from c s 0%Z.

(** [s.lastIndexOf(c)] for a one-character needle. *)
Fixpoint lastIndexOf_from (c : char) (s : jsstring) (i : Z) (found : Z) : Z :=
  match s with
  | [] => found
  | d :: s' => lastIndexOf_from c s' (i + 1)%Z (if (d =? c)%N then i else found)
  end.
Definition lastIndexOf (c : char) (s : jsstring) : Z := lastIndexOf_from c s 0%Z (-1)%Z.

(** [s.substring(a, b)]: both ends are clamped to [0, length] and swapped
    when out of order. *)
Definition substring (s : jsstring) (a b : Z) : jsstring :=
  let lo := Z.to_nat (Z.min a b) in
  let hi := Z.to_nat (Z.max a b) in
  firstn (hi - lo) (skipn lo s).

(** [s.substring(a)] *)
Definition substring_from (s : jsstring) (a : Z) : jsstring := skipn (Z.to_nat a) s.

(** [s.split('\n')] *)
Fixpoint split_on (c : char) (cur : jsstring) (s : jsstring) : list jsstring :=
  match s with
  | [] => [cur]
  | d :: s' => if (d =? c)%N then cur :: split_on c [] s' else split_on c (cur ++ [d]) s'
  end.
Definition split_lines (s : jsstring) : list jsstring := split_on nl [] s.

(** [lines.join('\n')] *)
Fixpoint join (sep : jsstring) (l : list jsstring) : jsstring :=
  match l with
  | [] => []
  | [x] => x
  | x :: l' => x ++ sep ++ join sep l'
  end.

(** A text written as its lines. *)
Definition text (l : list string) : jsstring := join [nl] (map str l).
Arguments text l%_string.

(** ** Completions

    A call either returns normally or throws.  The only operation of the
    formatter that can throw is [String.prototype.repeat], which raises a
    [RangeError] on a negative count. *)

Inductive exn := RangeError.

Inductive completion (A : Type) :=
| Normal (a : A)
| Throw (e : exn).
Arguments Normal {A} a.
Arguments Throw {A} e.

Definition bind {A B} (m : completion A) (f : A -> completion B) : completion B :=
  match m with
  | Normal a => f a
  | Throw e => Throw e
  end.

Definition try_catch {A} (body : completion A) (handler : exn -> completion A) : completion A :=
  match body with
  | Normal a => Normal a
  | Throw e => handler e
  end.

Notation "x <- m ;; k" := (bind m (fun x => k))
  (at level 61, m at next level, right associativity).

(** [s.repeat(n)] for an integer count [n]: a negative count throws a
    [RangeError].  An engine also throws it when the result would be longer
    than its longest string; that limit differs between engines and is not
    modelled, so what is stated below about a call of [repeat] takes a
    negative count or goes through the same call on both sides of an
    equation. *)
Definition repeat_str (s : jsstring) (n : Z) : completion jsstring :=
  if (n <? 0)%Z then Throw RangeError
  else Normal (concat (repeat s (Z.to_nat n))).

(** ** Regular expressions

    The patterns of the formatter are sequences of literals, greedy
    repetitions of one character class, alternations of literals and the two
    anchors (without the [m] flag).  A match is returned as the list of the
    pieces consumed by the successive atoms. *)

Inductive atom :=
| Lit (l : jsstring)
| Rep (cls : char -> bool) (min : nat)
| Alt (alts : list jsstring)
| Bol
| Eol.

Definition regex := list atom.

Section Backtracking.
Variable k : nat -> jsstring -> option (list jsstring).

(** Greedy [cls{min,}]: the longest run first, then shorter ones. *)
Fixpoint greedy (cls : char -> bool) (min : nat) (pos : nat) (s : jsstring)
  : option (list jsstring) :=
  let stop := match min with
              | O => option_map (cons []) (k pos s)
              | S _ => None
              end in
  match s with
  | c :: s' =>
      if cls c then
        match greedy cls (pred min) (S pos) s' with
        | Some (p :: ps) => Some ((c :: p) :: ps)
        | _ => stop
        end
      else stop
  | [] => stop
  end.

(** Alternatives are tried from left to right. *)
Fixpoint first_alt (alts : list jsstring) (pos : nat) (s : jsstring)
  : option (list jsstring) :=
  match alts with
  | [] => None
  | l :: alts' =>
      if starts_with l s then
        match k (pos + length l) (skipn (length l) s) with
        | Some ps => Some (l :: ps)
        | None => first_alt alts' pos s
        end
      else first_alt alts' pos s
  end.
End Backtracking.

(** The match of [r] that starts at offset [pos], where [s] is the input from
    that offset on. *)
Fixpoint match_here (r : regex) (pos : nat) (s : jsstring) {struct r}
  : option (list jsstring) :=
  match r with
  | [] => Some []
  | Lit l :: r' =>
      if starts_with l s
      then option_map (cons l) (match_here r' (pos + length l) (skipn (length l) s))
      else None
  | Rep cls min :: r' => greedy (match_here r') cls min pos s
  | Alt alts :: r' => first_alt (match_here r') alts pos s
  | Bol :: r' =>
      if Nat.eqb pos 0 then option_map (cons []) (match_here r' pos s) else None
  | Eol :: r' =>
      match s with
      | [] => option_map (cons []) (match_here r' pos s)
      | _ :: _ => None
      end
  end.

(** The leftmost match at or after [pos]. *)
Fixpoint search (r : regex) (pos : nat) (s : jsstring)
  : option (nat * list jsstring) :=
  match match_here r pos s with
  | Some ps => Some (pos, ps)
  | None => match s with
            | [] => None
            | _ :: s' => search r (S pos) s'
            end
  end.

(** [s.replace(r, f)] for a pattern without the [g] flag. *)
Definition replace_first (r : regex) (f : list jsstring -> jsstring) (s : jsstring)
  : jsstring :=
  match search r 0 s with
  | None => s
  | Some (i, ps) => firstn i s ++ f ps ++ skipn (i + length (concat ps)) s
  end.

(** [s.replace(r, f)] for a pattern with the [g] flag: the matches are found
    from left to right, each search resuming where the previous match ended
    (one character further after an empty match).  [skip] counts the
    characters of the current match that are still to be passed over. *)
Fixpoint replace_from (r : regex) (f : list jsstring -> jsstring)
  (pos skip : nat) (s : jsstring) : jsstring :=
  match skip with
  | S k =>
      match s with
      | [] => []
      | _ :: s' => replace_from r f (S pos) k s'
      end
  | O =>
      match match_here r pos s with
      | Some ps =>
          f ps ++
          match s with
          | [] => []
          | c :: s' =>
              match length (concat ps) with
              | O => c :: replace_from r f (S pos) 0 s'
              | S k => replace_from r f (S pos) k s'
              end
          end
      | None =>
          match s with
          | [] => []
          | c :: s' => c :: replace_from r f (S pos) 0 s'
          end
      end
  end.

Definition replace_all (r : regex) (f : list jsstring -> jsstring) (s : jsstring)
  : jsstring := replace_from r f 0 0 s.

(** The successive results of [r.exec(s)] for a pattern with the [g] flag,
    each with its [index], as a [while] loop over [exec] collects them.  (The
    loop of the source would not advance after an empty match; its pattern
    matches no empty string.) *)
Fixpoint exec_from (r : regex) (pos skip : nat) (s : jsstring)
  : list (nat * list jsstring) :=
  match skip with
  | S k =>
      match s with
      | [] => []
      | _ :: s' => exec_from r (S pos) k s'
      end
  | O =>
      match match_here r pos s with
      | Some ps =>
          (pos, ps) ::
          match s with
          | [] => []
          | _ :: s' => exec_from r (S pos) (pred (length (concat ps))) s'
          end
      | None =>
          match s with
          | [] => []
          | _ :: s' => exec_from r (S pos) 0 s'
          end
      end
  end.

Definition exec_all (r : regex) (s : jsstring) : list (nat * list jsstring) :=
  exec_from r 0 0 s.

(** ** The formatter *)

(** The settings of the plugin that the formatter reads
    ([ASN1PluginSettings]); [indentSize] is a JavaScript number, taken here
    as an integer. *)
Record ASN1PluginSettings := {
  indentSize : Z;
  formatOnSave : bool;
  maxLineLength : Z;
  autoWrapLongLines : bool
}.

Definition DEFAULT_SETTINGS : ASN1PluginSettings :=
  {| indentSize := 2; formatOnSave := true; maxLineLength := 80;
     autoWrapLongLines := true |}.

Fixpoint eqb_str (a b : jsstring) : bool :=
  match a, b with
  | [], [] => true
  | x :: a', y :: b' => (x =? y)%N && eqb_str a' b'
  | _, _ => false
  end.

(** [prevChar !== '\\'], where [prevChar] is [''] at index 0. *)
Definition not_backslash (prevChar : option char) : bool :=
  match prevChar with
  | Some c => negb (c =? backslash)%N
  | None => true
  end.

Definition char_at (s : jsstring) (i : Z) : option char :=
  if (i <? 0)%Z then None else nth_error s (Z.to_nat i).

(** *** [normalizeFieldContent] *)

(** [/,\s*$/] *)
Definition trailingComma : regex := [Lit [comma]; Rep is_space 0; Eol].
(** [/\s+/g] *)
Definition whitespaceRun : regex := [Rep is_space 1].

Definition normalizeFieldContent (raw : jsstring) : jsstring :=
  let s := trim raw in
  let s := replace_first trailingComma (fun _ => []) s in
  let s := replace_all whitespaceRun (fun _ => [space]) s in
  s.

(** *** [splitTopLevelByComma] *)

(** The body of the [for] loop, from the character [rest] starts with;
    [prev] is [input[i-1]]. *)
Fixpoint splitTopLevel_loop (prev : option char) (rest : jsstring)
  (parts : list jsstring) (current : jsstring)
  (brace paren bracket : Z) (inString : bool) : list jsstring * jsstring :=
  match rest with
  | [] => (parts, current)
  | c :: rest' =>
      let inString :=
        if (c =? quote)%N && not_backslash prev then negb inString else inString in
      let next := splitTopLevel_loop (Some c) rest' in
      if negb inString then
        if (c =? lbrace)%N then next parts (current ++ [c]) (brace + 1)%Z paren bracket inString
        else if (c =? rbrace)%N then next parts (current ++ [c]) (brace - 1)%Z paren bracket inString
        else if (c =? lparen)%N then next parts (current ++ [c]) brace (paren + 1)%Z bracket inString
        else if (c =? rparen)%N then next parts (current ++ [c]) brace (paren - 1)%Z bracket inString
        else if (c =? lbracket)%N then next parts (current ++ [c]) brace paren (bracket + 1)%Z inString
        else if (c =? rbracket)%N then next parts (current ++ [c]) brace paren (bracket - 1)%Z inString
        else if (c =? comma)%N && (brace =? 0)%Z && (paren =? 0)%Z && (bracket =? 0)%Z
        then next (parts ++ [normalizeFieldContent current]) [] brace paren bracket inString
        else next parts (current ++ [c]) brace paren bracket inString
      else next parts (current ++ [c]) brace paren bracket inString
  end.

Definition splitTopLevelByComma (input : jsstring) : list jsstring :=
  let '(parts, current) := splitTopLevel_loop None input [] [] 0%Z 0%Z 0%Z false in
  if (0 <? length (trim current))%nat
  then parts ++ [normalizeFieldContent current]
  else parts.

(** *** [findMatchingBrace] *)

(** The body of the [for] loop at index [i], [rest] being the text from [i]
    on and [prevChar] the character before it. *)
Fixpoint findMatchingBrace_loop (prevChar : option char) (rest : jsstring)
  (i : Z) (braceCount : Z) (inString : bool) : Z :=
  match rest with
  | [] => (-1)%Z
  | c :: rest' =>
      let inString :=
        if (c =? quote)%N && not_backslash prevChar then negb inString else inString in
      if negb inString then
        if (c =? lbrace)%N
        then findMatchingBrace_loop (Some c) rest' (i + 1)%Z (braceCount + 1)%Z inString
        else if (c =? rbrace)%N then
          if (braceCount - 1 =? 0)%Z then i
          else findMatchingBrace_loop (Some c) rest' (i + 1)%Z (braceCount - 1)%Z inString
        else findMatchingBrace_loop (Some c) rest' (i + 1)%Z braceCount inString
      else findMatchingBrace_loop (Some c) rest' (i + 1)%Z braceCount inString
  end.

(** The indices below 0 of a negative [openBracePos] read [undefined] and
    change nothing, so the scan starts at [max 0 openBracePos]. *)
Definition findMatchingBrace (code : jsstring) (openBracePos : Z) : Z :=
  let i := Z.max 0 openBracePos in
  findMatchingBrace_loop (char_at code (i - 1)) (substring_from code i) i 0%Z false.

(** *** [formatSingleTypeDefinition] *)

(** The lines pushed by the loop over [fieldSegments]. *)
Fixpoint field_lines (indent : jsstring) (fieldSegments : list jsstring) : list jsstring :=
  match fieldSegments with
  | [] => []
  | [seg] => [indent ++ normalizeFieldContent seg]
  | seg :: rest => (indent ++ normalizeFieldContent seg ++ [comma]) :: field_lines indent rest
  end.

Definition formatSingleTypeDefinition (original prefix : jsstring) : jsstring :=
  let openBracePos := indexOf lbrace original in
  let closeBracePos := lastIndexOf rbrace original in
  if (openBracePos =? -1)%Z || (closeBracePos =? -1)%Z then original
  else
    let fieldContent := trim (substring original (openBracePos + 1) closeBracePos) in
    match fieldContent with
    | [] => trimEnd prefix ++ [nl; rbrace]
    | _ :: _ =>
        let fieldSegments := splitTopLevelByComma fieldContent in
        if (length fieldSegments <=? 1)%nat then
          let normalized := normalizeFieldContent fieldContent in
          trimEnd prefix ++ [nl; space; space] ++ normalized ++ [nl; rbrace]
        else
          let indent := [space; space] in
          join [nl] ([trimEnd prefix] ++ field_lines indent fieldSegments ++ [[rbrace]])
    end.

(** *** [formatTypeDefinitionsWithNestedBraces] *)

(** [/(\w+\s*::=\s*(?:SEQUENCE|SET|CHOICE|ENUMERATED)\s*\{)/g]; its group is
    the whole match. *)
Definition typeDefStartRegex : regex :=
  [Rep is_word 1; Rep is_space 0; Lit (str "::="); Rep is_space 0;
   Alt [str "SEQUENCE"; str "SET"; str "CHOICE"; str "ENUMERATED"];
   Rep is_space 0; Lit [lbrace]].

Record typeDefMatch := {
  td_start : Z;
  td_end : Z;
  td_prefix : jsstring
}.

(** The [while] loop over the matches: [matches] after the loop. *)
Definition collect_matches (code : jsstring) : list typeDefMatch :=
  flat_map
    (fun m : nat * list jsstring =>
       let startPos := Z.of_nat (fst m) in
       let prefix := concat (snd m) in
       let endPos := findMatchingBrace code (startPos + Z.of_nat (length prefix) - 1) in
       if (endPos =? -1)%Z then []
       else [{| td_start := startPos; td_end := endPos; td_prefix := prefix |}])
    (exec_all typeDefStartRegex code).

(** One iteration of the replacement loop. *)
Definition replace_match (code result : jsstring) (m : typeDefMatch) : jsstring :=
  let original := substring code (td_start m) (td_end m + 1) in
  let formatted := formatSingleTypeDefinition original (td_prefix m) in
  substring result 0 (td_start m) ++ formatted ++ substring_from result (td_end m + 1).

Definition formatTypeDefinitionsWithNestedBraces (code : jsstring) : jsstring :=
  fold_left (replace_match code) (rev (collect_matches code)) code.

(** *** [cleanupSpacing] *)

Definition cleanupSpacing (code : jsstring) : jsstring :=
  let s := replace_all [Rep is_nl 3] (fun _ => [nl; nl; nl]) code in
  let s := replace_first [Bol; Rep is_nl 1] (fun _ => []) s in
  replace_first [Rep is_nl 1; Eol] (fun _ => [nl]) s.

(** *** [simpleFormatASN1] *)

(** [/\}\s*(\w+\s*::=)/g]; the group is made of the last three atoms. *)
Definition adjacentTypeDef : regex :=
  [Lit [rbrace]; Rep is_space 0; Rep is_word 1; Rep is_space 0; Lit (str "::=")].

Definition simpleFormatASN1 (code : jsstring) : jsstring :=
  let result := trim code in
  let result :=
    replace_all adjacentTypeDef
      (fun ps => [rbrace; nl; nl; nl] ++ concat (skipn 2 ps)) result in
  let result := formatTypeDefinitionsWithNestedBraces result in
  let result := cleanupSpacing result in
  result.

(** *** [fallbackFormat] *)

Fixpoint fallback_loop (indentStr : jsstring) (lines : list jsstring)
  (indentLevel : Z) (result : list jsstring) : completion (list jsstring) :=
  match lines with
  | [] => Normal result
  | line :: lines' =>
      let trimmed := trim line in
      match trimmed with
      | [] => fallback_loop indentStr lines' indentLevel result
      | _ :: _ =>
          let indentLevel :=
            if eqb_str trimmed [rbrace] || starts_with [rbrace] trimmed
            then Z.max 0 (indentLevel - 1) else indentLevel in
          pad <- repeat_str indentStr indentLevel ;;
          let result := result ++ [pad ++ trimmed] in
          let indentLevel :=
            if includes [lbrace] trimmed && negb (includes [rbrace] trimmed)
            then (indentLevel + 1)%Z else indentLevel in
          fallback_loop indentStr lines' indentLevel result
      end
  end.

Definition fallbackFormat (settings : ASN1PluginSettings) (code : jsstring)
  : completion jsstring :=
  let lines := split_lines code in
  indentStr <- repeat_str [space] (indentSize settings) ;;
  result <- fallback_loop indentStr lines 0%Z [] ;;
  Normal (join [nl] result).

(** *** [formatASN1Code] *)

Definition formatASN1Code (settings : ASN1PluginSettings) (code : jsstring)
  : completion jsstring :=
  match code with
  | [] => Normal []
  | _ :: _ =>
      match trim code with
      | [] => Normal []
      | _ :: _ =>
          try_catch (Normal (simpleFormatASN1 code))
                    (fun _ => fallbackFormat settings code)
      end
  end.

(** * What the properties are stated with *)

(** ** Matches, as a relation *)

(** What a successful match looks like: the pieces of the atoms, in order,
    and the input left after them. *)
Inductive matches : regex -> nat -> jsstring -> list jsstring -> jsstring -> Prop :=
| M_nil pos s : matches [] pos s [] s
| M_lit l r pos s ps rest :
    matches r (pos + length l) s ps rest ->
    matches (Lit l :: r) pos (l ++ s) (l :: ps) rest
| M_rep cls min r pos p s ps rest :
    forallb cls p = true -> min <= length p ->
    matches r (pos + length p) s ps rest ->
    matches (Rep cls min :: r) pos (p ++ s) (p :: ps) rest
| M_alt alts l r pos s ps rest :
    In l alts ->
    matches r (pos + length l) s ps rest ->
    matches (Alt alts :: r) pos (l ++ s) (l :: ps) rest
| M_bol r s ps rest :
    matches r 0 s ps rest ->
    matches (Bol :: r) 0 s ([] :: ps) rest
| M_eol r pos ps rest :
    matches r pos [] ps rest ->
    matches (Eol :: r) pos [] ([] :: ps) rest.

(** ** The replacements of the formatter, without regular expressions *)

(** Each run of white space becomes one space: [replace(/\s+/g, ' ')]. *)
Fixpoint collapse_ws (in_run : bool) (s : jsstring) : jsstring :=
  match s with
  | [] => []
  | c :: s' =>
      if is_space c
      then if in_run then collapse_ws true s' else space :: collapse_ws true s'
      else c :: collapse_ws false s'
  end.

(** Every newline after the third of a run is dropped:
    [replace(/\n{3,}/g, '\n\n\n')]. *)
Fixpoint cap_newlines (seen : nat) (s : jsstring) : jsstring :=
  match s with
  | [] => []
  | c :: s' =>
      if is_nl c
      then if 3 <=? seen then cap_newlines (S seen) s' else c :: cap_newlines (S seen) s'
      else c :: cap_newlines 0 s'
  end.

(** The newlines that end the text, if any, become one newline:
    [replace(/\n+$/, '\n')]. *)
Fixpoint squeeze_trailing (s : jsstring) : jsstring :=
  match s with
  | [] => []
  | c :: s' => if forallb is_nl s then [nl] else c :: squeeze_trailing s'
  end.

(** A comma that ends the text is removed. *)
Fixpoint strip_last_comma (s : jsstring) : jsstring :=
  match s with
  | [] => []
  | [c] => if (c =? comma)%N then [] else [c]
  | c :: s' => c :: strip_last_comma s'
  end.

(** The text does not start, or end, with white space; the empty text does
    neither. *)
Definition no_leading_space (s : jsstring) : Prop := is_space (hd 0%N s) = false.
Definition no_trailing_space (s : jsstring) : Prop := is_space (last s 0%N) = false.

Ltac invert_matches :=
  repeat match goal with
         | H : matches (_ :: _) _ _ _ _ |- _ => inversion H; subst; clear H
         | H : matches [] _ _ _ _ |- _ => inversion H; subst; clear H
         end.

(** ** The bracket matcher, in the words of the specification *)

(** The scan goes forward from the character after the opening brace, at
    index [i], with [depth] braces open; [inString] tells whether it is in
    a string and [escaped] whether the character at [i] is escaped, an
    unescaped backslash standing just before it.  An unescaped double quote
    toggles the flag, braces are counted outside strings only, the index at
    which the depth reaches 0 is returned, and -1 at the end of the text. *)
Fixpoint findMatchingClose_loop (rest : jsstring) (i : Z) (depth : Z)
  (inString escaped : bool) : Z :=
  match rest with
  | [] => (-1)%Z
  | c :: rest' =>
      let inString :=
        if (c =? quote)%N && negb escaped then negb inString else inString in
      let escaped := (c =? backslash)%N && negb escaped in
      let depth :=
        if inString then depth
        else if (c =? lbrace)%N then (depth + 1)%Z
        else if (c =? rbrace)%N then (depth - 1)%Z
        else depth in
      if (depth =? 0)%Z then i
      else findMatchingClose_loop rest' (i + 1)%Z depth inString escaped
  end.

(** [findMatchingClose(text, openIndex)]: the depth is 1 once the opening
    brace at [openIndex] is passed. *)
Definition findMatchingClose (text : jsstring) (openIndex : Z) : Z :=
  findMatchingClose_loop (substring_from text (openIndex + 1)) (openIndex + 1)%Z
                         1%Z false false.

(** ** The scan of [findMatchingBrace], as a state *)

Record scan_state := { depth : Z; in_string : bool }.

(** One character is consumed as the loop of the source consumes it: a
    double quote whose previous character is not a backslash toggles the
    flag, and a brace is counted while not in a string. *)
Definition scan_step (prev : option char) (c : char) (st : scan_state) : scan_state :=
  let ins :=
    if (c =? quote)%N && not_backslash prev then negb (in_string st) else in_string st in
  let d :=
    if ins then depth st
    else if (c =? lbrace)%N then (depth st + 1)%Z
    else if (c =? rbrace)%N then (depth st - 1)%Z
    else depth st in
  {| depth := d; in_string := ins |}.

Fixpoint scan (prev : option char) (s : jsstring) (st : scan_state) : scan_state :=
  match s with
  | [] => st
  | c :: s' => scan (Some c) s' (scan_step prev c st)
  end.

(** The state once the characters from [openIndex] to [i] are consumed. *)
Definition state_after (code : jsstring) (openIndex i : Z) : scan_state :=
  scan (char_at code (openIndex - 1)) (substring code openIndex (i + 1))
       {| depth := 0; in_string := false |}.

(** ** The fallback indenter, in the words of the specification *)

Definition nonblank (t : jsstring) : bool :=
  match t with
  | [] => false
  | _ :: _ => true
  end.







(** What the loop of [fallbackFormat] builds from the trimmed lines that are
    not blank, when no call of [repeat] throws. *)
Fixpoint fallback_lines (width depth : Z) (ts : list jsstring) : list jsstring :=
  match ts with
  | [] => []
  | t :: ts' =>
      let depth := if starts_with [rbrace] t then Z.max 0 (depth - 1) else depth in
      (repeat space (Z.to_nat (depth * width)) ++ t) ::
      fallback_lines width
        (if includes [lbrace] t && negb (includes [rbrace] t) then depth + 1 else depth)%Z
        ts'
  end.

(** ** Runs of newlines *)

(** No run of newlines goes past three, [seen] newlines standing just
    before the text. *)
Fixpoint runs_capped (seen : nat) (s : jsstring) : bool :=
  match s with
  | [] => true
  | c :: s' =>
      if is_nl c then (seen <? 3) && runs_capped (S seen) s' else runs_capped 0 s'
  end.

(** ** Single-spaced texts *)

(** Every white-space character of the text is a space that follows a
    character that is not white space; [after_space] tells whether a space
    stands just before the text (or the text is at the start). *)
Fixpoint single_spaced (after_space : bool) (s : jsstring) : bool :=
  match s with
  | [] => true
  | c :: s' =>
      if is_space c
      then (c =? space)%N && negb after_space && single_spaced true s'
      else single_spaced false s'
  end.

(** ** Other functions of the plugin *)

(** [r.test(s)] for a pattern without the [g] flag. *)
Definition regex_test (r : regex) (s : jsstring) : bool :=
  match search r 0 s with
  | Some _ => true
  | None => false
  end.

(** [s.endsWith(l)] *)
Definition ends_with (l s : jsstring) : bool := starts_with (rev l) (rev s).

(** The class of [.]: every character but the line terminators. *)
Definition is_dot (c : char) : bool :=
  negb ((c =? 10) || (c =? 13) || (c =? 8232) || (c =? 8233))%N.

(** *** The line classifiers *)

(** [/^\w+\s+DEFINITIONS\s+.*::=\s+BEGIN$/] *)
Definition moduleDefinitionRegex : regex :=
  [Bol; Rep is_word 1; Rep is_space 1; Lit (str "DEFINITIONS"); Rep is_space 1;
   Rep is_dot 0; Lit (str "::="); Rep is_space 1; Lit (str "BEGIN"); Eol].

Definition isModuleDefinition (line : jsstring) : bool :=
  regex_test moduleDefinitionRegex line.

(** [/^\w+\s*::=/] *)
Definition typeDefinitionRegex : regex :=
  [Bol; Rep is_word 1; Rep is_space 0; Lit (str "::=")].

Definition isTypeDefinition (line : jsstring) : bool :=
  regex_test typeDefinitionRegex line.

(** [/^\w+\s+\w+/] *)
Definition fieldDefinitionRegex : regex :=
  [Bol; Rep is_word 1; Rep is_space 1; Rep is_word 1].

Definition isFieldDefinition (line : jsstring) : bool :=
  regex_test fieldDefinitionRegex line
  && negb (includes (str "::=") line)
  && negb (includes (str "DEFINITIONS") line).

Definition isComment (line : jsstring) : bool :=
  starts_with (str "--") line
  || (starts_with (str "-*") line && ends_with (str "*-") line).

(** *** [cleanupFormattedLines] *)

Definition is_empty (line : jsstring) : bool :=
  match line with
  | [] => true
  | _ :: _ => false
  end.




(** *** [splitFields] *)

(** [/^\s*\{\s*/] *)
Definition leadingBrace : regex := [Bol; Rep is_space 0; Lit [lbrace]; Rep is_space 0].
(** [/\s*\}\s*$/] *)
Definition trailingBrace : regex := [Rep is_space 0; Lit [rbrace]; Rep is_space 0; Eol].

(** What a top-level comma does: the trimmed field is pushed with its comma
    unless it is empty. *)
Definition push_field (fields : list jsstring) (current : jsstring) : list jsstring :=
  match trim current with
  | [] => fields
  | _ :: _ => fields ++ [trim current ++ [comma]]
  end.

(** The loop of the second definition of [splitFields] in the class, the one
    in force. *)
Fixpoint splitFields_loop (prev : option char) (rest : jsstring)
  (fields : list jsstring) (current : jsstring)
  (braceCount parenCount bracketCount : Z) (inString : bool)
  : list jsstring * jsstring :=
  match rest with
  | [] => (fields, current)
  | c :: rest' =>
      let inString :=
        if (c =? quote)%N && not_backslash prev then negb inString else inString in
      let next := splitFields_loop (Some c) rest' in
      if negb inString then
        if (c =? lbrace)%N
        then next fields (current ++ [c]) (braceCount + 1)%Z parenCount bracketCount inString
        else if (c =? rbrace)%N
        then next fields (current ++ [c]) (braceCount - 1)%Z parenCount bracketCount inString
        else if (c =? lparen)%N
        then next fields (current ++ [c]) braceCount (parenCount + 1)%Z bracketCount inString
        else if (c =? rparen)%N
        then next fields (current ++ [c]) braceCount (parenCount - 1)%Z bracketCount inString
        else if (c =? lbracket)%N
        then next fields (current ++ [c]) braceCount parenCount (bracketCount + 1)%Z inString
        else if (c =? rbracket)%N
        then next fields (current ++ [c]) braceCount parenCount (bracketCount - 1)%Z inString
        else if (c =? comma)%N && (braceCount =? 0)%Z && (parenCount =? 0)%Z
                && (bracketCount =? 0)%Z
        then next (push_field fields current) [] braceCount parenCount bracketCount inString
        else next fields (current ++ [c]) braceCount parenCount bracketCount inString
      else next fields (current ++ [c]) braceCount parenCount bracketCount inString
  end.

(** The text that both definitions of [splitFields] loop over. *)
Definition strip_braces (fieldsStr : jsstring) : jsstring :=
  trim (replace_first trailingBrace (fun _ => [])
          (replace_first leadingBrace (fun _ => []) fieldsStr)).

(** The last field is pushed without a comma unless it is empty. *)
Definition push_last_field (fields : list jsstring) (current : jsstring) : list jsstring :=
  match trim current with
  | [] => fields
  | _ :: _ => fields ++ [trim current]
  end.

Definition splitFields (fieldsStr : jsstring) : list jsstring :=
  let fieldsStr := strip_braces fieldsStr in
  let '(fields, current) := splitFields_loop None fieldsStr [] [] 0%Z 0%Z 0%Z false in
  push_last_field fields current.

(** The loop of the first definition of [splitFields], which also stops
    when [safetyCounter] reaches [maxIterations]. *)
Fixpoint splitFields_guarded_loop (maxIterations safetyCounter : nat)
  (prev : option char) (rest : jsstring)
  (fields : list jsstring) (current : jsstring)
  (braceCount parenCount bracketCount : Z) (inString : bool)
  : list jsstring * jsstring :=
  match rest with
  | [] => (fields, current)
  | c :: rest' =>
      if (safetyCounter <? maxIterations)%nat then
        let inString :=
          if (c =? quote)%N && not_backslash prev then negb inString else inString in
        let next :=
          splitFields_guarded_loop maxIterations (S safetyCounter) (Some c) rest' in
        if negb inString then
          if (c =? lbrace)%N
          then next fields (current ++ [c]) (braceCount + 1)%Z parenCount bracketCount inString
          else if (c =? rbrace)%N
          then next fields (current ++ [c]) (braceCount - 1)%Z parenCount bracketCount inString
          else if (c =? lparen)%N
          then next fields (current ++ [c]) braceCount (parenCount + 1)%Z bracketCount inString
          else if (c =? rparen)%N
          then next fields (current ++ [c]) braceCount (parenCount - 1)%Z bracketCount inString
          else if (c =? lbracket)%N
          then next fields (current ++ [c]) braceCount parenCount (bracketCount + 1)%Z inString
          else if (c =? rbracket)%N
          then next fields (current ++ [c]) braceCount parenCount (bracketCount - 1)%Z inString
          else if (c =? comma)%N && (braceCount =? 0)%Z && (parenCount =? 0)%Z
                  && (bracketCount =? 0)%Z
          then next (push_field fields current) [] braceCount parenCount bracketCount inString
          else next fields (current ++ [c]) braceCount parenCount bracketCount inString
        else next fields (current ++ [c]) braceCount parenCount bracketCount inString
      else (fields, current)
  end.

Definition splitFields_guarded (fieldsStr : jsstring) : list jsstring :=
  let fieldsStr := strip_braces fieldsStr in
  let maxIterations := length fieldsStr * 2 in
  let '(fields, current) :=
    splitFields_guarded_loop maxIterations 0 None fieldsStr [] [] 0%Z 0%Z 0%Z false in
  push_last_field fields current.

(** No three empty lines in a row, [seen] empty lines standing just before
    the lines. *)
Fixpoint empty_lines_capped (seen : nat) (lines : list jsstring) : bool :=
  match lines with
  | [] => true
  | line :: rest =>
      if is_empty line then (seen <? 2) && empty_lines_capped (S seen) rest
      else empty_lines_capped 0 rest
  end.

(** ** The layout of a definition *)

(** The header of a structured definition, [Name ::= KIND {], with the
    white space [s1], [s2] and [s3] between its parts. *)
Definition definition_header (name s1 s2 kind s3 : jsstring) : jsstring :=
  (name ++ s1 ++ str "::=" ++ s2 ++ kind ++ s3) ++ [lbrace].

(** The header on its line, one line per field, two spaces before each and
    a comma after each but the last, and the closing brace on its line. *)
Definition definition_layout (header body : jsstring) : jsstring :=
  match trim body with
  | [] => header ++ [nl; rbrace]
  | _ :: _ =>
      let fieldSegments := splitTopLevelByComma (trim body) in
      if (length fieldSegments <=? 1)%nat
      then header ++ [nl; space; space] ++ normalizeFieldContent (trim body) ++ [nl; rbrace]
      else join [nl] ([header] ++ field_lines [space; space] fieldSegments ++ [[rbrace]])
  end.

(** A definition as a text: the header, the body between the braces and
    the closing brace. *)
Definition flat_input (header body : jsstring) : jsstring :=
  header ++ body ++ [rbrace].

(** *** [forceSplitFields] *)

(** What a top-level comma does in [forceSplitFields]: the trimmed field is
    pushed behind the indentation and with its comma unless it is empty. *)
Definition push_indented_field (indentStr : jsstring) (fields : list jsstring)
  (current : jsstring) : list jsstring :=
  match trim current with
  | [] => fields
  | _ :: _ => fields ++ [indentStr ++ trim current ++ [comma]]
  end.

(** The loop of the definition of [forceSplitFields] in force, the second
    one of the class, which stops when [safetyCounter] reaches
    [maxIterations]. *)
Fixpoint forceSplitFields_loop (indentStr : jsstring) (maxIterations safetyCounter : nat)
  (prev : option char) (rest : jsstring)
  (fields : list jsstring) (current : jsstring)
  (braceCount parenCount bracketCount : Z) (inString : bool)
  : list jsstring * jsstring :=
  match rest with
  | [] => (fields, current)
  | c :: rest' =>
      if (safetyCounter <? maxIterations)%nat then
        let inString :=
          if (c =? quote)%N && not_backslash prev then negb inString else inString in
        let next :=
          forceSplitFields_loop indentStr maxIterations (S safetyCounter) (Some c) rest' in
        if negb inString then
          if (c =? lbrace)%N
          then next fields (current ++ [c]) (braceCount + 1)%Z parenCount bracketCount inString
          else if (c =? rbrace)%N
          then next fields (current ++ [c]) (braceCount - 1)%Z parenCount bracketCount inString
          else if (c =? lparen)%N
          then next fields (current ++ [c]) braceCount (parenCount + 1)%Z bracketCount inString
          else if (c =? rparen)%N
          then next fields (current ++ [c]) braceCount (parenCount - 1)%Z bracketCount inString
          else if (c =? lbracket)%N
          then next fields (current ++ [c]) braceCount parenCount (bracketCount + 1)%Z inString
          else if (c =? rbracket)%N
          then next fields (current ++ [c]) braceCount parenCount (bracketCount - 1)%Z inString
          else if (c =? comma)%N && (braceCount =? 0)%Z && (parenCount =? 0)%Z
                  && (bracketCount =? 0)%Z
          then next (push_indented_field indentStr fields current) []
                 braceCount parenCount bracketCount inString
          else next fields (current ++ [c]) braceCount parenCount bracketCount inString
        else next fields (current ++ [c]) braceCount parenCount bracketCount inString
      else (fields, current)
  end.

(** The last field is pushed behind the indentation and without a comma
    unless it is empty. *)
Definition push_last_indented_field (indentStr : jsstring) (fields : list jsstring)
  (current : jsstring) : list jsstring :=
  match trim current with
  | [] => fields
  | _ :: _ => fields ++ [indentStr ++ trim current]
  end.

Definition forceSplitFields (settings : ASN1PluginSettings) (fieldsStr : jsstring)
  : completion (list jsstring) :=
  let fieldsStr := trim fieldsStr in
  indentStr <- repeat_str [space] (indentSize settings) ;;
  let maxIterations := length fieldsStr * 2 in
  let '(fields, current) :=
    forceSplitFields_loop indentStr maxIterations 0 None fieldsStr [] [] 0%Z 0%Z 0%Z false in
  Normal (push_last_indented_field indentStr fields current).

(** *** [isSingleLineStructure] *)

(** The class [[^{}]]. *)
Definition not_brace (c : char) : bool := negb ((c =? lbrace) || (c =? rbrace))%N.

(** The class [[^)]]. *)
Definition not_rparen (c : char) : bool := negb (c =? rparen)%N.

(** [/^\w+\s*::=\s*(SEQUENCE|SET|CHOICE|ENUMERATED)\s*\{[^{}]+\}\s*$/],
    [/^\w+\s*::=\s*(SEQUENCE|SET)\s+OF\s+\w+\s*$/] and
    [/^\w+\s*::=\s*\w+\s*\([^)]*\)\s*$/] *)
Definition singleLinePatterns : list regex :=
  [ [Bol; Rep is_word 1; Rep is_space 0; Lit (str "::="); Rep is_space 0;
     Alt [str "SEQUENCE"; str "SET"; str "CHOICE"; str "ENUMERATED"];
     Rep is_space 0; Lit [lbrace]; Rep not_brace 1; Lit [rbrace]; Rep is_space 0; Eol];
    [Bol; Rep is_word 1; Rep is_space 0; Lit (str "::="); Rep is_space 0;
     Alt [str "SEQUENCE"; str "SET"];
     Rep is_space 1; Lit (str "OF"); Rep is_space 1; Rep is_word 1; Rep is_space 0; Eol];
    [Bol; Rep is_word 1; Rep is_space 0; Lit (str "::="); Rep is_space 0;
     Rep is_word 1; Rep is_space 0; Lit [lparen]; Rep not_rparen 0; Lit [rparen];
     Rep is_space 0; Eol] ].

Definition isSingleLineStructure (line : jsstring) : bool :=
  existsb (fun pattern => regex_test pattern (trim line)) singleLinePatterns.

(** *** [normalizeASN1Code] *)

Definition cr : char := 13%N.
Definition tab : char := 9%N.

(** What [normalizeASN1Code] does to one line: [/\s+/g], [/\s*{\s*/g],
    [/\s*}\s*/g], [/\s*,\s*/g] and [/\s*::=\s*/g] are replaced in this
    order, then the line is trimmed. *)
Definition normalizeLine (line : jsstring) : jsstring :=
  let line := replace_all whitespaceRun (fun _ => [space]) line in
  let line :=
    replace_all [Rep is_space 0; Lit [lbrace]; Rep is_space 0] (fun _ => str " { ") line in
  let line :=
    replace_all [Rep is_space 0; Lit [rbrace]; Rep is_space 0] (fun _ => str " } ") line in
  let line :=
    replace_all [Rep is_space 0; Lit [comma]; Rep is_space 0] (fun _ => str ", ") line in
  let line :=
    replace_all [Rep is_space 0; Lit (str "::="); Rep is_space 0] (fun _ => str " ::= ")
      line in
  trim line.

Definition normalizeASN1Code (code : jsstring) : jsstring :=
  let normalized := replace_all [Lit [cr; nl]] (fun _ => [nl]) code in
  let normalized := replace_all [Lit [cr]] (fun _ => [nl]) normalized in
  let normalized := replace_all [Lit [tab]] (fun _ => [space]) normalized in
  let lines := split_lines normalized in
  let processedLines := map normalizeLine lines in
  trim (join [nl] processedLines).

(** *** [splitEnumValues] and [forceSplitEnumValues] *)

Fixpoint splitEnumValues_loop (maxIterations safetyCounter : nat) (rest : jsstring)
  (values : list jsstring) (current : jsstring) (parenCount : Z)
  : list jsstring * jsstring :=
  match rest with
  | [] => (values, current)
  | c :: rest' =>
      if (safetyCounter <? maxIterations)%nat then
        let next := splitEnumValues_loop maxIterations (S safetyCounter) rest' in
        if (c =? lparen)%N then next values (current ++ [c]) (parenCount + 1)%Z
        else if (c =? rparen)%N then next values (current ++ [c]) (parenCount - 1)%Z
        else if (c =? comma)%N && (parenCount =? 0)%Z
        then next (values ++ [trim current ++ [comma]]) [] parenCount
        else next values (current ++ [c]) parenCount
      else (values, current)
  end.

Definition splitEnumValues (enumStr : jsstring) : list jsstring :=
  let maxIterations := length enumStr * 2 in
  let '(values, current) := splitEnumValues_loop maxIterations 0 enumStr [] [] 0%Z in
  push_last_field values current.

(** The loop of the definition of [forceSplitEnumValues] in force, the
    second one of the class. *)
Fixpoint forceSplitEnumValues_loop (indentStr : jsstring)
  (maxIterations safetyCounter : nat) (rest : jsstring)
  (values : list jsstring) (current : jsstring) (parenCount : Z)
  : list jsstring * jsstring :=
  match rest with
  | [] => (values, current)
  | c :: rest' =>
      if (safetyCounter <? maxIterations)%nat then
        let next :=
          forceSplitEnumValues_loop indentStr maxIterations (S safetyCounter) rest' in
        if (c =? lparen)%N then next values (current ++ [c]) (parenCount + 1)%Z
        else if (c =? rparen)%N then next values (current ++ [c]) (parenCount - 1)%Z
        else if (c =? comma)%N && (parenCount =? 0)%Z
        then next (push_indented_field indentStr values current) [] parenCount
        else next values (current ++ [c]) parenCount
      else (values, current)
  end.

Definition forceSplitEnumValues (settings : ASN1PluginSettings) (enumStr : jsstring)
  : completion (list jsstring) :=
  let enumStr := trim enumStr in
  indentStr <- repeat_str [space] (indentSize settings) ;;
  let maxIterations := length enumStr * 2 in
  let '(values, current) :=
    forceSplitEnumValues_loop indentStr maxIterations 0 enumStr [] [] 0%Z in
  Normal (push_last_indented_field indentStr values current).

(** A value that is a comma and nothing else. *)
Definition bare_comma (value : jsstring) : bool :=
  match value with
  | [c] => (c =? comma)%N
  | _ => false
  end.

(** A field that is not empty and has no white space at either end. *)
Definition clean_field (f : jsstring) : Prop :=
  f <> [] /\ no_leading_space f /\ no_trailing_space f.

(** Boolean tests on characters as propositions. *)
Ltac bool_to_prop :=
  repeat match goal with
         | H : _ || _ = true |- _ => apply orb_true_iff in H as [H|H]
         | H : _ && _ = true |- _ => let H' := fresh in apply andb_true_iff in H as [H' H]
         | H : (_ <=? _)%N = true |- _ => apply N.leb_le in H
         | H : (_ =? _)%N = true |- _ => apply N.eqb_eq in H
         end.

(** ** The blank-line policy, in the words of the specification *)

(** A blank line holds nothing but white space; an empty line is blank. *)
Definition is_blank (line : jsstring) : bool := forallb is_space line.

(** No three blank lines in a row, [seen] blank lines standing just before
    the lines: never more than two consecutive blank lines. *)
Fixpoint blank_lines_capped (seen : nat) (lines : list jsstring) : bool :=
  match lines with
  | [] => true
  | line :: rest =>
      if is_blank line then (seen <? 2) && blank_lines_capped (S seen) rest
      else blank_lines_capped 0 rest
  end.

(** * Properties of the embedding *)

(** ** The matcher *)

Lemma starts_with_split l s : starts_with l s = true -> s = l ++ skipn (length l) s.
Proof.
  revert s; induction l as [|a l IH]; intros [|b s]; simpl; try easy.
  intros H; apply andb_true_iff in H as [Hab Hl].
  apply N.eqb_eq in Hab; subst b. f_equal. now apply IH.
Qed.

Lemma starts_with_app l s : starts_with l (l ++ s) = true.
Proof.
  induction l as [|a l IH]; simpl; auto.
  now rewrite N.eqb_refl.
Qed.

Lemma skipn_length_app (l s : jsstring) : skipn (length l) (l ++ s) = s.
Proof. induction l; simpl; auto. Qed.

Lemma greedy_sound k cls s : forall min pos out,
  greedy k cls min pos s = Some out ->
  exists p s' ps, out = p :: ps /\ s = p ++ s' /\ forallb cls p = true /\
                  min <= length p /\ k (pos + length p) s' = Some ps.
Proof.
  assert (Hstop : forall min pos s0 out,
    match min with O => option_map (cons []) (k pos s0) | S _ => None end = Some out ->
    exists p s' ps, out = p :: ps /\ s0 = p ++ s' /\ forallb cls p = true /\
                    min <= length p /\ k (pos + length p) s' = Some ps).
  { intros [|m] pos s0 out H; [|discriminate].
    destruct (k pos s0) as [ps|] eqn:Hk; [|discriminate].
    injection H as <-. exists [], s0, ps. simpl. rewrite Nat.add_0_r. auto. }
  induction s as [|c s IH]; intros min pos out H.
  - now apply Hstop.
  - simpl in H. destruct (cls c) eqn:Hc; [|now apply Hstop].
    destruct (greedy k cls (pred min) (S pos) s) as [[|p ps]|] eqn:Hg;
      try now apply Hstop.
    injection H as <-.
    destruct (IH _ _ _ Hg) as (p' & s' & ps' & E & -> & Hall & Hmin & Hk).
    injection E as -> ->.
    exists (c :: p'), s', ps'. simpl. rewrite Hc, Hall.
    repeat split; auto; [lia|]. now rewrite <- Nat.add_succ_comm.
Qed.

Lemma first_alt_sound k alts pos s : forall out,
  first_alt k alts pos s = Some out ->
  exists l ps, out = l :: ps /\ In l alts /\ s = l ++ skipn (length l) s /\
               k (pos + length l) (skipn (length l) s) = Some ps.
Proof.
  induction alts as [|l alts IH]; intros out H; simpl in H; [discriminate|].
  destruct (starts_with l s) eqn:Hl.
  - destruct (k (pos + length l) (skipn (length l) s)) as [ps|] eqn:Hk.
    + injection H as <-. exists l, ps. repeat split; simpl; auto.
      now apply starts_with_split.
    + destruct (IH _ H) as (l' & ps & -> & Hin & Hs & Hk').
      exists l', ps. simpl; auto.
  - destruct (IH _ H) as (l' & ps & -> & Hin & Hs & Hk').
    exists l', ps. simpl; auto.
Qed.

Lemma match_here_sound r : forall pos s ps,
  match_here r pos s = Some ps -> exists rest, matches r pos s ps rest.
Proof.
  induction r as [|a r IH]; intros pos s ps H.
  - injection H as <-. exists s. constructor.
  - destruct a as [l|cls min|alts| |]; simpl in H.
    + destruct (starts_with l s) eqn:Hl; [|discriminate].
      destruct (match_here r (pos + length l) (skipn (length l) s)) as [ps'|] eqn:Hm;
        [|discriminate].
      injection H as <-. destruct (IH _ _ _ Hm) as [rest Hr].
      exists rest. rewrite (starts_with_split _ _ Hl). now constructor.
    + destruct (greedy_sound _ _ _ _ _ _ H) as (p & s' & ps' & -> & -> & Hall & Hmin & Hk).
      destruct (IH _ _ _ Hk) as [rest Hr]. exists rest. now constructor.
    + destruct (first_alt_sound _ _ _ _ _ H) as (l & ps' & -> & Hin & Hs & Hk).
      destruct (IH _ _ _ Hk) as [rest Hr]. exists rest. rewrite Hs. now constructor.
    + destruct (Nat.eqb_spec pos 0) as [->|]; [|discriminate].
      destruct (match_here r 0 s) as [ps'|] eqn:Hm; [|discriminate].
      injection H as <-. destruct (IH _ _ _ Hm) as [rest Hr].
      exists rest. now constructor.
    + destruct s; [|discriminate].
      destruct (match_here r pos []) as [ps'|] eqn:Hm; [|discriminate].
      injection H as <-. destruct (IH _ _ _ Hm) as [rest Hr].
      exists rest. now constructor.
Qed.

Lemma matches_concat r pos s ps rest :
  matches r pos s ps rest -> s = concat ps ++ rest.
Proof.
  induction 1; simpl; auto; rewrite <- ?app_assoc; now f_equal.
Qed.

Lemma match_here_split r pos s ps :
  match_here r pos s = Some ps -> s = concat ps ++ skipn (length (concat ps)) s.
Proof.
  intros H. destruct (match_here_sound _ _ _ _ H) as [rest Hr].
  apply matches_concat in Hr. rewrite Hr at 2. now rewrite skipn_length_app.
Qed.

(** A maximal run of the class followed by a match of the rest of the
    pattern is the match that the greedy repetition finds. *)
Lemma greedy_maximal k cls p : forall min pos s ps,
  forallb cls p = true -> min <= length p ->
  match s with c :: _ => cls c = false | [] => True end ->
  k (pos + length p) s = Some ps ->
  greedy k cls min pos (p ++ s) = Some (p :: ps).
Proof.
  induction p as [|c p IH]; intros min pos s ps Hall Hmin Hs Hk.
  - simpl in *. rewrite Nat.add_0_r in Hk.
    assert (min = 0) as -> by lia.
    destruct s as [|d s]; simpl; [now rewrite Hk|].
    now rewrite Hs, Hk.
  - simpl in Hall. apply andb_true_iff in Hall as [Hc Hall].
    simpl. rewrite Hc.
    rewrite (IH (pred min) (S pos) s ps); auto.
    + simpl in Hmin. lia.
    + simpl in Hk. now rewrite <- Nat.add_succ_comm in Hk.
Qed.

(** A repetition fails where fewer than [min] characters of the class
    stand, whatever follows in the pattern. *)
Lemma greedy_short k cls s : forall min pos,
  length (take_while cls s) < min -> greedy k cls min pos s = None.
Proof.
  induction s as [|c s IH]; intros min pos H; simpl in *.
  - destruct min; [lia|reflexivity].
  - destruct (cls c) eqn:Hc; simpl in H.
    + rewrite IH by lia. destruct min; [lia|reflexivity].
    + destruct min; [lia|reflexivity].
Qed.

(** ** Global and first-match replacement *)

Section Replace.
Variable r : regex.
Variable f : list jsstring -> jsstring.

Lemma replace_from_skip k : forall pos s,
  k <= length s ->
  replace_from r f pos k s = replace_from r f (pos + k) 0 (skipn k s).
Proof.
  induction k as [|k IH]; intros pos s Hk.
  - now rewrite Nat.add_0_r.
  - destruct s as [|c s]; simpl in Hk; [lia|].
    cbn [replace_from skipn]. rewrite IH by lia. f_equal. lia.
Qed.

Lemma replace_from_match pos s ps :
  match_here r pos s = Some ps ->
  0 < length (concat ps) ->
  replace_from r f pos 0 s =
  f ps ++ replace_from r f (pos + length (concat ps)) 0 (skipn (length (concat ps)) s).
Proof.
  intros Hm Hn. pose proof (match_here_split _ _ _ _ Hm) as Hs.
  assert (Hlen : length (concat ps) <= length s).
  { rewrite Hs, length_app. lia. }
  destruct s as [|c s]; simpl in Hlen; [lia|].
  cbn [replace_from]. rewrite Hm. f_equal.
  destruct (length (concat ps)) as [|k]; [lia|].
  rewrite replace_from_skip by lia. cbn [skipn]. f_equal. lia.
Qed.

Lemma replace_from_nomatch pos c s :
  match_here r pos (c :: s) = None ->
  replace_from r f pos 0 (c :: s) = c :: replace_from r f (S pos) 0 s.
Proof. intros H. cbn [replace_from]. now rewrite H. Qed.

Lemma replace_from_nil pos :
  match_here r pos [] = None -> replace_from r f pos 0 [] = [].
Proof. intros H. cbn [replace_from]. now rewrite H. Qed.

(** A pattern that matches at no offset of [s] leaves [s] as it is. *)
Lemma replace_from_id s : forall pos,
  (forall n p, match_here r p (skipn n s) = None) ->
  replace_from r f pos 0 s = s.
Proof.
  induction s as [|c s IH]; intros pos H.
  - apply replace_from_nil. apply (H 0).
  - rewrite replace_from_nomatch by apply (H 0). f_equal.
    apply IH. intros n p. apply (H (S n)).
Qed.

Lemma exec_from_none s : forall pos,
  (forall n p, match_here r p (skipn n s) = None) ->
  exec_from r pos 0 s = [].
Proof.
  induction s as [|c s IH]; intros pos H; cbn [exec_from];
    pose proof (H 0 pos) as H0; cbn [skipn] in H0; rewrite H0; auto.
  apply IH. intros n p. apply (H (S n)).
Qed.

Lemma search_none s : forall pos,
  (forall n p, match_here r p (skipn n s) = None) ->
  search r pos s = None.
Proof.
  induction s as [|c s IH]; intros pos H; cbn [search];
    pose proof (H 0 pos) as H0; cbn [skipn] in H0; rewrite H0; auto.
  apply IH. intros n p. apply (H (S n)).
Qed.
End Replace.

Lemma take_drop_while p s : s = take_while p s ++ drop_while p s.
Proof.
  induction s as [|c s IH]; simpl; auto.
  destruct (p c); simpl; auto. now f_equal.
Qed.

Lemma take_while_all p s : forallb p (take_while p s) = true.
Proof.
  induction s as [|c s IH]; simpl; auto.
  destruct (p c) eqn:E; simpl; auto. now rewrite E.
Qed.

Lemma drop_while_head p s :
  match drop_while p s with c :: _ => p c = false | [] => True end.
Proof.
  induction s as [|c s IH]; simpl; auto.
  destruct (p c) eqn:E; auto.
Qed.

Lemma skipn_take_while p s : skipn (length (take_while p s)) s = drop_while p s.
Proof.
  induction s as [|c s IH]; simpl; auto.
  destruct (p c); simpl; auto.
Qed.

Lemma drop_while_length p s : length (drop_while p s) <= length s.
Proof.
  induction s as [|c s IH]; simpl; auto.
  destruct (p c); simpl; lia.
Qed.

(** The pattern made of one repetition matches the maximal run of its class,
    when the run is long enough. *)
Lemma match_here_run p m pos s :
  match_here [Rep p m] pos s =
  if m <=? length (take_while p s) then Some [take_while p s] else None.
Proof.
  cbn [match_here]. destruct (Nat.leb_spec m (length (take_while p s))) as [H|H].
  - rewrite (take_drop_while p s) at 1.
    apply greedy_maximal; auto using take_while_all. apply drop_while_head.
  - now apply greedy_short.
Qed.

(** ** The patterns of the formatter *)

Lemma collapse_ws_run s : collapse_ws true s = collapse_ws false (drop_while is_space s).
Proof.
  induction s as [|c s IH]; simpl; auto.
  destruct (is_space c) eqn:E; simpl; auto. now rewrite E.
Qed.

Lemma replace_from_whitespaceRun s : forall pos,
  replace_from whitespaceRun (fun _ => [space]) pos 0 s = collapse_ws false s.
Proof.
  unfold whitespaceRun.
  remember (length s) as n eqn:Hn. revert s Hn.
  induction n as [n IH] using lt_wf_ind; intros s Hn pos.
  destruct s as [|c s].
  - apply replace_from_nil. reflexivity.
  - destruct (is_space c) eqn:Hc.
    + rewrite replace_from_match with (ps := [take_while is_space (c :: s)]).
      * cbn [concat]. rewrite app_nil_r, skipn_take_while.
        cbn [drop_while collapse_ws]. rewrite Hc. cbn [app]. f_equal.
        rewrite collapse_ws_run.
        eapply IH; [|reflexivity]. subst n. simpl.
        pose proof (drop_while_length is_space s). lia.
      * rewrite match_here_run. simpl. now rewrite Hc.
      * simpl. rewrite Hc. simpl. lia.
    + rewrite replace_from_nomatch.
      * simpl. rewrite Hc. f_equal. eapply IH; [|reflexivity]. subst n. simpl. lia.
      * rewrite match_here_run. simpl. now rewrite Hc.
Qed.

Lemma replace_whitespaceRun s :
  replace_all whitespaceRun (fun _ => [space]) s = collapse_ws false s.
Proof. apply replace_from_whitespaceRun. Qed.

Lemma take_drop_length p s :
  length (take_while p s) + length (drop_while p s) = length s.
Proof. rewrite <- length_app. now rewrite <- take_drop_while. Qed.

Lemma cap_newlines_run s : forall a,
  cap_newlines a s =
  firstn (3 - a) (take_while is_nl s) ++ cap_newlines 0 (drop_while is_nl s).
Proof.
  induction s as [|c s IH]; intros a.
  - now rewrite firstn_nil.
  - cbn [cap_newlines take_while drop_while]. destruct (is_nl c) eqn:Hc.
    + rewrite IH. destruct (Nat.leb_spec 3 a) as [H|H].
      * replace (3 - a) with 0 by lia. replace (3 - S a) with 0 by lia. reflexivity.
      * replace (3 - a) with (S (3 - S a)) by lia. reflexivity.
    + rewrite firstn_nil. cbn [app cap_newlines]. now rewrite Hc.
Qed.

Lemma all_nl_repeat p : forallb is_nl p = true -> p = repeat nl (length p).
Proof.
  induction p as [|c p IH]; simpl; auto.
  intros H. apply andb_true_iff in H as [Hc Hp].
  apply N.eqb_eq in Hc. subst c. f_equal. now apply IH.
Qed.

Lemma replace_from_newlines s : forall pos,
  replace_from [Rep is_nl 3] (fun _ => [nl; nl; nl]) pos 0 s = cap_newlines 0 s.
Proof.
  remember (length s) as n eqn:Hn. revert s Hn.
  induction n as [n IH] using lt_wf_ind; intros s Hn pos.
  destruct s as [|c s].
  - apply replace_from_nil. reflexivity.
  - destruct (Nat.leb_spec 3 (length (take_while is_nl (c :: s)))) as [H|H].
    + rewrite replace_from_match with (ps := [take_while is_nl (c :: s)]).
      * cbn [concat]. rewrite app_nil_r, skipn_take_while.
        rewrite (cap_newlines_run (c :: s)).
        assert (Hlt : length (drop_while is_nl (c :: s)) < n)
          by (subst n; pose proof (take_drop_length is_nl (c :: s)); lia).
        rewrite (IH _ Hlt _ eq_refl).
        f_equal. rewrite (all_nl_repeat _ (take_while_all is_nl (c :: s))).
        destruct (length (take_while is_nl (c :: s))) as [|[|[|k]]]; try lia. reflexivity.
      * rewrite match_here_run. now apply Nat.leb_le in H as ->.
      * cbn [concat]. rewrite app_nil_r. lia.
    + rewrite replace_from_nomatch.
      * assert (Hlt : length s < n) by (subst n; simpl; lia).
        rewrite (IH _ Hlt _ eq_refl).
        cbn [cap_newlines]. cbn [take_while] in H.
        destruct (is_nl c) eqn:Hc; [|reflexivity]. cbn [Nat.leb]. f_equal.
        rewrite (cap_newlines_run s 1), (cap_newlines_run s 0).
        simpl in H. rewrite !firstn_all2 by lia. reflexivity.
      * rewrite match_here_run. now apply Nat.leb_gt in H as ->.
Qed.

Lemma search_ge r s : forall pos i ps, search r pos s = Some (i, ps) -> pos <= i.
Proof.
  induction s as [|c s IH]; intros pos i ps; cbn [search];
    destruct (match_here r pos _); try discriminate;
    try (intros [= <- <-]; lia).
  intros H. apply IH in H. lia.
Qed.

Lemma search_bol_none r s : forall pos, search (Bol :: r) (S pos) s = None.
Proof. induction s as [|c s IH]; intros pos; cbn [search match_here Nat.eqb]; auto. Qed.

(** [replace(/^\n+/, '')] removes the newlines that start the text. *)
Lemma replace_leading_newlines s :
  replace_first [Bol; Rep is_nl 1] (fun _ => []) s = drop_while is_nl s.
Proof.
  unfold replace_first.
  assert (Hm : match_here [Bol; Rep is_nl 1] 0 s =
               option_map (cons []) (match_here [Rep is_nl 1] 0 s)) by reflexivity.
  rewrite match_here_run in Hm.
  destruct (Nat.leb_spec 1 (length (take_while is_nl s))) as [H|H].
  - destruct s as [|c s]; [simpl in H; lia|].
    cbn [search]. rewrite Hm. cbn [option_map concat firstn app].
    rewrite app_nil_r. apply skipn_take_while.
  - destruct s as [|c s]; cbn [search]; rewrite Hm; cbn [option_map]; auto.
    rewrite search_bol_none. simpl in *. destruct (is_nl c); simpl in *; auto; lia.
Qed.

Lemma match_here_trailing_newlines pos s :
  match_here [Rep is_nl 1; Eol] pos s =
  match s with
  | [] => None
  | _ :: _ => if forallb is_nl s then Some [s; []] else None
  end.
Proof.
  destruct s as [|c s]; [reflexivity|].
  destruct (forallb is_nl (c :: s)) eqn:Hall.
  - cbn [match_here]. rewrite <- (app_nil_r (c :: s)) at 1.
    apply greedy_maximal; simpl; auto. lia.
  - destruct (match_here _ pos (c :: s)) as [ps|] eqn:Hm; auto.
    apply match_here_sound in Hm as [rest Hm].
    inversion Hm as [| |? ? ? ? p s0 ps0 ? Hp Hlen Hm0 E| | |]; subst.
    inversion Hm0; subst. rewrite app_nil_r in *. subst p. congruence.
Qed.

(** [replace(/\n+$/, '\n')] squeezes the newlines that end the text. *)
Lemma search_trailing_newlines s : forall pos,
  match search [Rep is_nl 1; Eol] pos s with
  | None => s
  | Some (i, ps) => firstn (i - pos) s ++ [nl] ++ skipn (i - pos + length (concat ps)) s
  end = squeeze_trailing s.
Proof.
  induction s as [|c s IH]; intros pos; cbn [search];
    rewrite match_here_trailing_newlines; auto.
  cbn [squeeze_trailing]. destruct (forallb is_nl (c :: s)) eqn:Hall.
  - rewrite Nat.sub_diag. cbn [firstn concat app]. rewrite app_nil_r.
    cbn [Nat.add]. now rewrite skipn_all.
  - specialize (IH (S pos)).
    destruct (search _ (S pos) s) as [[i ps]|] eqn:Hs; [|now f_equal].
    apply search_ge in Hs. replace (i - pos) with (S (i - S pos)) by lia.
    cbn [firstn skipn Nat.add app]. f_equal. exact IH.
Qed.

Lemma replace_trailing_newlines s :
  replace_first [Rep is_nl 1; Eol] (fun _ => [nl]) s = squeeze_trailing s.
Proof.
  unfold replace_first. pose proof (search_trailing_newlines s 0) as H.
  destruct (search _ 0 s) as [[i ps]|]; auto. now rewrite Nat.sub_0_r in H.
Qed.

(** [cleanupSpacing] without regular expressions. *)
Lemma cleanupSpacing_eq code :
  cleanupSpacing code = squeeze_trailing (drop_while is_nl (cap_newlines 0 code)).
Proof.
  unfold cleanupSpacing, replace_all.
  now rewrite replace_from_newlines, replace_leading_newlines, replace_trailing_newlines.
Qed.

(** ** Trimming *)

Lemma last_rev (l : jsstring) d : last (rev l) d = hd d l.
Proof. destruct l as [|c l]; simpl; auto. apply last_last. Qed.

Lemma hd_rev (l : jsstring) d : hd d (rev l) = last l d.
Proof. rewrite <- (rev_involutive l) at 2. now rewrite last_rev. Qed.

Lemma drop_while_fixed p s : p (hd 0%N s) = false -> drop_while p s = s.
Proof. destruct s as [|c s]; simpl; auto. now intros ->. Qed.

Lemma trimStart_no_leading s : no_leading_space (trimStart s).
Proof.
  unfold no_leading_space, trimStart. pose proof (drop_while_head is_space s) as H.
  destruct (drop_while is_space s); simpl; auto.
Qed.

Lemma trimEnd_no_trailing s : no_trailing_space (trimEnd s).
Proof.
  unfold no_trailing_space, trimEnd. rewrite last_rev.
  pose proof (drop_while_head is_space (rev s)) as H.
  destruct (drop_while is_space (rev s)); simpl; auto.
Qed.

Lemma trimEnd_prefix s : s = trimEnd s ++ rev (take_while is_space (rev s)).
Proof.
  unfold trimEnd. rewrite <- rev_app_distr, <- take_drop_while.
  now rewrite rev_involutive.
Qed.

Lemma trimEnd_fixed s : no_trailing_space s -> trimEnd s = s.
Proof.
  unfold no_trailing_space, trimEnd. rewrite <- hd_rev. intros H.
  rewrite drop_while_fixed by assumption. apply rev_involutive.
Qed.

Lemma trimEnd_keeps_head s : no_leading_space s -> no_leading_space (trimEnd s).
Proof.
  unfold no_leading_space. intros H. rewrite (trimEnd_prefix s) in H.
  destruct (trimEnd s); simpl in *; auto.
Qed.

Lemma trim_no_leading s : no_leading_space (trim s).
Proof. apply trimEnd_keeps_head, trimStart_no_leading. Qed.

Lemma trim_no_trailing s : no_trailing_space (trim s).
Proof. apply trimEnd_no_trailing. Qed.

Lemma trim_fixed s : no_leading_space s -> no_trailing_space s -> trim s = s.
Proof.
  intros H1 H2. unfold trim, trimStart. rewrite drop_while_fixed by assumption.
  now apply trimEnd_fixed.
Qed.

Lemma trim_idempotent s : trim (trim s) = trim s.
Proof. apply trim_fixed; [apply trim_no_leading | apply trim_no_trailing]. Qed.

Lemma last_cons (c : char) s d : s <> [] -> last (c :: s) d = last s d.
Proof. destruct s; simpl; congruence. Qed.

Lemma all_space_last (w : jsstring) :
  forallb is_space w = true -> w <> [] -> is_space (last w 0%N) = true.
Proof.
  induction w as [|c w IH]; [congruence|]. intros H _.
  simpl in H. apply andb_true_iff in H as [Hc Hw].
  destruct w as [|d w]; [exact Hc|]. rewrite last_cons by congruence.
  apply IH; congruence.
Qed.

(** ** [normalizeFieldContent] *)

Lemma match_here_trailingComma pos s :
  match_here trailingComma pos s =
  match s with
  | c :: w => if (c =? comma)%N && forallb is_space w then Some [[comma]; w; []] else None
  | [] => None
  end.
Proof.
  destruct s as [|c w]; [reflexivity|].
  destruct ((c =? comma)%N && forallb is_space w) eqn:Hc.
  - apply andb_true_iff in Hc as [Hc Hw]. apply N.eqb_eq in Hc. subst c.
    assert (G : greedy (match_here [Eol]) is_space 0 (pos + 1) (w ++ []) = Some [w; []])
      by (apply greedy_maximal; simpl; auto; lia).
    rewrite app_nil_r in G. unfold trailingComma. cbn [match_here starts_with].
    rewrite N.eqb_refl. cbn [andb length skipn match_here] in *. now rewrite G.
  - destruct (match_here trailingComma pos (c :: w)) as [ps|] eqn:Hm; auto.
    apply match_here_sound in Hm as [rest Hm]. unfold trailingComma in Hm.
    invert_matches.
    rewrite app_nil_r, N.eqb_refl in Hc. simpl in Hc. congruence.
Qed.

(** On a text without white space at its end, [replace(/,\s*$/, '')]
    removes the comma that ends it. *)
Lemma search_trailingComma s : forall pos,
  no_trailing_space s ->
  match search trailingComma pos s with
  | None => s
  | Some (i, ps) => firstn (i - pos) s ++ [] ++ skipn (i - pos + length (concat ps)) s
  end = strip_last_comma s.
Proof.
  induction s as [|c s IH]; intros pos Hs; cbn [search];
    rewrite match_here_trailingComma; auto.
  destruct ((c =? comma)%N && forallb is_space s) eqn:Hc.
  - apply andb_true_iff in Hc as [Hc Hw].
    destruct s as [|d s].
    + rewrite Nat.sub_diag. simpl. now rewrite Hc.
    + unfold no_trailing_space in Hs. rewrite last_cons in Hs by congruence.
      rewrite all_space_last in Hs; congruence.
  - destruct s as [|d s].
    + cbn [search]. rewrite match_here_trailingComma. simpl.
      rewrite andb_true_r in Hc. now rewrite Hc.
    + assert (Hs' : no_trailing_space (d :: s))
        by (unfold no_trailing_space in *; now rewrite last_cons in Hs by congruence).
      specialize (IH (S pos) Hs').
      change (strip_last_comma (c :: d :: s)) with (c :: strip_last_comma (d :: s)).
      destruct (search trailingComma (S pos) (d :: s)) as [[i ps]|] eqn:Hsr; [|now f_equal].
      apply search_ge in Hsr. replace (i - pos) with (S (i - S pos)) by lia.
      cbn [firstn skipn Nat.add app] in *. now f_equal.
Qed.

Lemma replace_trailingComma s :
  no_trailing_space s ->
  replace_first trailingComma (fun _ => []) s = strip_last_comma s.
Proof.
  intros Hs. unfold replace_first. pose proof (search_trailingComma s 0 Hs) as H.
  destruct (search _ 0 s) as [[i ps]|]; auto. now rewrite Nat.sub_0_r in H.
Qed.

(** [normalizeFieldContent] without regular expressions: trim, remove the
    comma that ends the text, collapse the runs of white space. *)
Lemma normalizeFieldContent_eq raw :
  normalizeFieldContent raw = collapse_ws false (strip_last_comma (trim raw)).
Proof.
  unfold normalizeFieldContent.
  now rewrite replace_whitespaceRun, replace_trailingComma by apply trim_no_trailing.
Qed.

Lemma strip_last_comma_keep pre c :
  c <> comma -> strip_last_comma (pre ++ [c]) = pre ++ [c].
Proof.
  intros Hc. induction pre as [|d pre IH].
  - simpl. now apply N.eqb_neq in Hc as ->.
  - change ((d :: pre) ++ [c]) with (d :: (pre ++ [c])).
    rewrite <- IH at 2.
    destruct (pre ++ [c]) eqn:E; [now destruct pre|]. reflexivity.
Qed.

Lemma strip_last_comma_fixed (s : jsstring) : last s 0%N <> comma -> strip_last_comma s = s.
Proof.
  destruct s as [|c s]; auto.
  destruct (@exists_last _ (c :: s)) as (pre & x & E); [congruence|].
  rewrite E, last_last. apply strip_last_comma_keep.
Qed.

Lemma collapse_ws_no_leading s : no_leading_space (collapse_ws true s).
Proof.
  unfold no_leading_space. induction s as [|c s IH]; simpl; auto.
  destruct (is_space c) eqn:Hc; simpl; auto.
Qed.

Lemma collapse_ws_idempotent s : forall b,
  collapse_ws false (collapse_ws b s) = collapse_ws b s.
Proof.
  induction s as [|c s IH]; intros b; simpl; auto.
  destruct (is_space c) eqn:Hc.
  - destruct b; auto.
    change (collapse_ws false (space :: ?x)) with (space :: collapse_ws true x).
    f_equal. rewrite collapse_ws_run.
    rewrite drop_while_fixed by apply collapse_ws_no_leading. apply IH.
  - simpl. rewrite Hc. f_equal. apply IH.
Qed.

(** The collapsed text ends with the character the text ends with, when
    that is not white space. *)
Lemma collapse_ws_last (s : jsstring) : forall b,
  s <> [] -> no_trailing_space s ->
  exists pre, collapse_ws b s = pre ++ [last s 0%N].
Proof.
  unfold no_trailing_space.
  induction s as [|c s IH]; intros b Hne Hs; [congruence|].
  destruct s as [|d s].
  - simpl in *. rewrite Hs. now exists [].
  - rewrite last_cons in * by congruence.
    remember (d :: s) as t eqn:Et.
    assert (Ht : t <> []) by (subst t; congruence).
    cbn [collapse_ws]. destruct (is_space c); [destruct b|].
    + destruct (IH true Ht Hs) as [pre E]. now exists pre.
    + destruct (IH true Ht Hs) as [pre E].
      rewrite E. now exists (space :: pre).
    + destruct (IH false Ht Hs) as [pre E].
      rewrite E. now exists (c :: pre).
Qed.

Lemma collapse_ws_keeps_head s :
  no_leading_space s -> no_leading_space (collapse_ws false s).
Proof.
  unfold no_leading_space. destruct s as [|c s]; simpl; auto.
  intros H. now rewrite H.
Qed.


(** * The claims of the specification *)

(** ** Totality *)


(** C1: for every input string and every value of the settings,
    [formatASN1Code] returns a string and does not throw; for an input that is
    empty or made of white space only it returns the empty string. *)
Theorem formatASN1Code_total settings code :
  (exists out, formatASN1Code settings code = Normal out) /\
  (trim code = [] -> formatASN1Code settings code = Normal []).
Proof.
  unfold formatASN1Code. destruct code as [|c code].
  - split; eauto.
  - destruct (trim (c :: code)) eqn:E; split; eauto; try discriminate.
    cbn [try_catch]. eauto.
Qed.

(** The expectations of the test suite of the repository that the code
    meets. *)
Lemma formatASN1Code_repository_tests settings :
  formatASN1Code settings
    (text ["Value ::= CHOICE {"; "number INTEGER,"; "text UTF8String"; "}"]%string) =
  Normal (text ["Value ::= CHOICE {"; "  number INTEGER,"; "  text UTF8String"; "}"]%string) /\
  formatASN1Code settings
    (text ["Status ::= ENUMERATED {"; "active(0),"; "inactive(1),"; "pending(2)"; "}"]%string) =
  Normal (text ["Status ::= ENUMERATED {"; "  active(0),"; "  inactive(1),";
                "  pending(2)"; "}"]%string) /\
  formatASN1Code settings (str "Person ::= INTEGER") = Normal (str "Person ::= INTEGER") /\
  formatASN1Code settings [] = Normal [].
Proof. repeat split; vm_compute; reflexivity. Qed.

(** ** Indentation *)

(** C3: whatever the indent size of the settings (4 for instance), the
    fields of the definition of the example come out with two spaces. *)
Theorem formatASN1Code_ignores_indentSize settings :
  formatASN1Code settings
    (text ["Person ::= SEQUENCE {"; "name UTF8String,"; "age INTEGER"; "}"]%string) =
  Normal (text ["Person ::= SEQUENCE {"; "  name UTF8String,"; "  age INTEGER"; "}"]%string).
Proof. vm_compute. reflexivity. Qed.

(** ** The top-level splitter *)

(** C5: a segment closed by a top-level comma is pushed even when it is
    empty, so the result can begin and can end with an empty segment. *)
Theorem splitTopLevelByComma_keeps_empty_segments :
  splitTopLevelByComma (str ",a") = [[]; str "a"] /\
  splitTopLevelByComma (str "a,,") = [str "a"; []].
Proof. split; vm_compute; reflexivity. Qed.

(** ** The field normalizer *)

(** C7: the comma is stripped after the text is trimmed, so the white
    space that stood before the comma is left at the end of the result, and
    normalizing that result removes it: normalizing twice is not
    normalizing once.  The text is the body that [formatSingleTypeDefinition]
    hands over for a definition with the one field [a INTEGER -- count ,]. *)
Theorem normalizeFieldContent_not_idempotent :
  normalizeFieldContent (str "a INTEGER -- count ,") = str "a INTEGER -- count " /\
  normalizeFieldContent (str "a INTEGER -- count ") = str "a INTEGER -- count" /\
  normalizeFieldContent (normalizeFieldContent (str "a INTEGER -- count ,")) <>
  normalizeFieldContent (str "a INTEGER -- count ,").
Proof.
  split; [vm_compute; reflexivity|]. split; [vm_compute; reflexivity|].
  vm_compute. discriminate.
Qed.

(** One comma is stripped, not every comma that ends the text. *)
Lemma normalizeFieldContent_double_comma :
  normalizeFieldContent (str "a,,") = str "a," /\
  normalizeFieldContent (str "a,") = str "a".
Proof. split; vm_compute; reflexivity. Qed.

(** ** Operator spacing *)

(** C9: the definition operator of [Person::=SEQUENCE{name UTF8String}] is
    left as it is written; no [ ::= ] appears in the output. *)
Theorem formatASN1Code_keeps_operator_spacing settings :
  formatASN1Code settings (str "Person::=SEQUENCE{name UTF8String}") =
  Normal (text ["Person::=SEQUENCE{"; "  name UTF8String"; "}"]%string) /\
  includes (str " ::= ") (text ["Person::=SEQUENCE{"; "  name UTF8String"; "}"]%string) = false.
Proof. split; vm_compute; reflexivity. Qed.

(** ** The bracket matcher *)

Lemma findMatchingBrace_loop_step prev c rest i st :
  findMatchingBrace_loop prev (c :: rest) i (depth st) (in_string st) =
  let st' := scan_step prev c st in
  if negb (in_string st') && (c =? rbrace)%N && (depth st' =? 0)%Z then i
  else findMatchingBrace_loop (Some c) rest (i + 1) (depth st') (in_string st').
Proof.
  destruct st as [d ins]. unfold scan_step. cbn [findMatchingBrace_loop depth in_string].
  destruct ((c =? quote)%N && not_backslash prev); destruct ins; cbn [negb andb];
    try reflexivity;
    (destruct (c =? lbrace)%N eqn:Hl;
     [apply N.eqb_eq in Hl; subst c; reflexivity|]);
    destruct (c =? rbrace)%N; try reflexivity;
    destruct (d - 1 =? 0)%Z; reflexivity.
Qed.

Lemma scan_step_positive prev c st :
  (0 < depth st)%Z ->
  negb (in_string (scan_step prev c st)) && (c =? rbrace)%N
    && (depth (scan_step prev c st) =? 0)%Z = false ->
  (0 < depth (scan_step prev c st))%Z.
Proof.
  destruct st as [d ins]. unfold scan_step. cbn [depth in_string].
  destruct (if (c =? quote)%N && not_backslash prev then negb ins else ins);
    cbn [negb andb]; auto.
  destruct (c =? lbrace)%N; [lia|].
  destruct (c =? rbrace)%N; cbn [andb]; auto.
  intros Hd H. apply Z.eqb_neq in H. lia.
Qed.

Lemma findMatchingBrace_loop_spec rest : forall prev i st,
  (0 < depth st)%Z ->
  let r := findMatchingBrace_loop prev rest i (depth st) (in_string st) in
  (exists n, r = (i + Z.of_nat n)%Z /\ nth_error rest n = Some rbrace /\
             depth (scan prev (firstn (S n) rest) st) = 0%Z /\
             forall m, m < n -> (0 < depth (scan prev (firstn (S m) rest) st))%Z)
  \/ (r = (-1)%Z /\
      forall m, m < length rest -> (0 < depth (scan prev (firstn (S m) rest) st))%Z).
Proof.
  induction rest as [|c rest IH]; intros prev i st Hst r.
  - right. split; [reflexivity|]. simpl. intros; lia.
  - subst r. rewrite findMatchingBrace_loop_step. cbv zeta.
    destruct (negb (in_string (scan_step prev c st)) && (c =? rbrace)%N
              && (depth (scan_step prev c st) =? 0)%Z) eqn:Hret.
    + left. exists 0.
      apply andb_true_iff in Hret as [Hret Hd].
      apply andb_true_iff in Hret as [_ Hc].
      apply N.eqb_eq in Hc. apply Z.eqb_eq in Hd. subst c.
      repeat split; auto; try (intros; lia).
    + pose proof (scan_step_positive _ _ _ Hst Hret) as Hpos.
      destruct (IH (Some c) (i + 1)%Z _ Hpos) as [(n & Hr & Hn & Hd & Hlt)|[Hr Hall]].
      * left. exists (S n). repeat split; auto; try lia.
        intros [|m] Hm; [exact Hpos|]. apply Hlt. lia.
      * right. split; auto.
        intros [|m] Hm; [exact Hpos|]. apply Hall. simpl in Hm. lia.
Qed.

Lemma char_at_skipn code i c :
  char_at code i = Some c ->
  (0 <= i)%Z /\ exists rest, skipn (Z.to_nat i) code = c :: rest.
Proof.
  unfold char_at. destruct (Z.ltb_spec i 0) as [Hi|Hi]; [discriminate|].
  intros H. split; auto.
  revert H. generalize (Z.to_nat i). clear. intros n. revert code.
  induction n as [|n IH]; intros [|d code]; simpl; try discriminate.
  - intros [= ->]. eauto.
  - apply IH.
Qed.

Lemma nth_error_skipn_add (code : jsstring) a b :
  nth_error (skipn a code) b = nth_error code (a + b).
Proof.
  revert code. induction a as [|a IH]; intros [|d code]; simpl; auto.
  now destruct b.
Qed.

(** The scan of the source, from the index of an opening brace: the depth
    is 1 once that brace is consumed; [findMatchingBrace] returns the first
    index at which the depth of the scan is back to 0, the character there
    being a closing brace, and -1 when the depth stays positive up to the
    end. *)
Lemma findMatchingBrace_scan code openIndex :
  char_at code openIndex = Some lbrace ->
  state_after code openIndex openIndex = {| depth := 1; in_string := false |} /\
  ((openIndex < findMatchingBrace code openIndex < Z.of_nat (length code))%Z /\
   char_at code (findMatchingBrace code openIndex) = Some rbrace /\
   depth (state_after code openIndex (findMatchingBrace code openIndex)) = 0%Z /\
   (forall j, (openIndex <= j < findMatchingBrace code openIndex)%Z ->
              (0 < depth (state_after code openIndex j))%Z)
   \/
   findMatchingBrace code openIndex = (-1)%Z /\
   (forall j, (openIndex <= j < Z.of_nat (length code))%Z ->
              (0 < depth (state_after code openIndex j))%Z)).
Proof.
  intros Hopen. destruct (char_at_skipn _ _ _ Hopen) as [H0 [rest Hrest]].
  set (prev := char_at code (openIndex - 1)).
  set (st1 := {| depth := 1; in_string := false |}).
  assert (Hlen : length code = Z.to_nat openIndex + S (length rest)).
  { rewrite <- (firstn_skipn (Z.to_nat openIndex) code) at 1.
    rewrite length_app, Hrest. simpl.
    assert (Z.to_nat openIndex <= length code).
    { destruct (Nat.le_gt_cases (Z.to_nat openIndex) (length code)); auto.
      rewrite skipn_all2 in Hrest by lia. discriminate. }
    rewrite length_firstn. lia. }
  assert (Hstate : forall m,
    state_after code openIndex (openIndex + Z.of_nat m) =
    scan (Some lbrace) (firstn m rest) st1).
  { intros m. unfold state_after, substring. fold prev.
    rewrite Z.min_l, Z.max_r by lia.
    replace (Z.to_nat (openIndex + Z.of_nat m + 1) - Z.to_nat openIndex) with (S m) by lia.
    rewrite Hrest. reflexivity. }
  split; [pose proof (Hstate 0) as Hs0; cbn [Z.of_nat] in Hs0;
          rewrite Z.add_0_r in Hs0; exact Hs0|].
  assert (Hfm : findMatchingBrace code openIndex =
                findMatchingBrace_loop (Some lbrace) rest (openIndex + 1)
                                       (depth st1) (in_string st1)).
  { unfold findMatchingBrace. rewrite Z.max_r by lia. unfold substring_from.
    rewrite Hrest. fold prev.
    exact (findMatchingBrace_loop_step prev lbrace rest openIndex
             {| depth := 0; in_string := false |}). }
  rewrite Hfm.
  destruct (@findMatchingBrace_loop_spec rest (Some lbrace) (openIndex + 1)%Z st1)
    as [(n & Hr & Hn & Hd & Hlt)|[Hr Hall]]; [simpl; lia| |].
  - left. rewrite Hr.
    assert (Hnlen : n < length rest) by (apply nth_error_Some; congruence).
    split; [lia|]. split; [|split].
    + unfold char_at. destruct (Z.ltb_spec (openIndex + 1 + Z.of_nat n) 0); [lia|].
      replace (Z.to_nat (openIndex + 1 + Z.of_nat n)) with (Z.to_nat openIndex + S n) by lia.
      rewrite <- nth_error_skipn_add, Hrest. exact Hn.
    + replace (openIndex + 1 + Z.of_nat n)%Z with (openIndex + Z.of_nat (S n))%Z by lia.
      rewrite Hstate. exact Hd.
    + intros j Hj. replace j with (openIndex + Z.of_nat (Z.to_nat (j - openIndex)))%Z by lia.
      rewrite Hstate. destruct (Z.to_nat (j - openIndex)) as [|m] eqn:Hm.
      * simpl. lia.
      * apply Hlt. lia.
  - right. split; [exact Hr|].
    intros j Hj. replace j with (openIndex + Z.of_nat (Z.to_nat (j - openIndex)))%Z by lia.
    rewrite Hstate. destruct (Z.to_nat (j - openIndex)) as [|m] eqn:Hm.
    + simpl. lia.
    + apply Hall. lia.
Qed.

(** C6: on the text made of an opening brace, a string that holds one
    escaped backslash and a closing brace, the closing quote is unescaped
    and the bracket matcher of the specification returns the index of the
    closing brace; [findMatchingBrace] takes that quote for an escaped one,
    because a backslash stands before it, stays in the string and returns
    -1.  A definition whose body holds such a string is then left
    unformatted. *)
Theorem findMatchingBrace_escaped_backslash :
  findMatchingClose [lbrace; quote; backslash; backslash; quote; rbrace] 0 = 5%Z /\
  findMatchingBrace [lbrace; quote; backslash; backslash; quote; rbrace] 0 = (-1)%Z /\
  (forall settings,
     formatASN1Code settings
       (str "A ::= SEQUENCE { a UTF8String DEFAULT "
          ++ [quote; backslash; backslash; quote] ++ str " }") =
     Normal (str "A ::= SEQUENCE { a UTF8String DEFAULT "
               ++ [quote; backslash; backslash; quote] ++ str " }")).
Proof.
  split; [reflexivity|]. split; [reflexivity|]. intros settings. reflexivity.
Qed.

(** ** The fallback indenter *)

Lemma concat_repeat_repeat (x : char) a b :
  concat (repeat (repeat x a) b) = repeat x (b * a).
Proof.
  induction b as [|b IH]; simpl; auto. now rewrite IH, repeat_app.
Qed.

Lemma eqb_str_starts_with t l : eqb_str t l = true -> starts_with l t = true.
Proof.
  revert l. induction t as [|c t IH]; intros [|d l]; simpl; auto; try discriminate.
  intros H. apply andb_true_iff in H as [H1 H2].
  apply N.eqb_eq in H1. subst d. rewrite N.eqb_refl. simpl. now apply IH.
Qed.

Lemma fallback_loop_spec w lines : forall d acc,
  (0 <= w)%Z -> (0 <= d)%Z ->
  fallback_loop (repeat space (Z.to_nat w)) lines d acc =
  Normal (acc ++ fallback_lines w d (filter nonblank (map trim lines))).
Proof.
  induction lines as [|line lines IH]; intros d acc Hw Hd.
  - simpl. now rewrite app_nil_r.
  - cbn [fallback_loop map filter]. destruct (trim line) as [|c t] eqn:Et.
    + cbn [nonblank]. now apply IH.
    + cbn [nonblank fallback_lines].
      assert (Hor : eqb_str (c :: t) [rbrace] || starts_with [rbrace] (c :: t) =
                    starts_with [rbrace] (c :: t)).
      { destruct (eqb_str (c :: t) [rbrace]) eqn:E; auto.
        now rewrite (eqb_str_starts_with _ _ E). }
      rewrite Hor.
      set (d' := if starts_with [rbrace] (c :: t) then Z.max 0 (d - 1) else d).
      assert (Hd' : (0 <= d')%Z) by (subst d'; destruct (starts_with _ _); lia).
      unfold repeat_str. destruct (Z.ltb_spec d' 0) as [Hlt|_]; [lia|].
      cbn [bind]. rewrite concat_repeat_repeat.
      replace (Z.to_nat d' * Z.to_nat w) with (Z.to_nat (d' * w)) by lia.
      rewrite IH; auto.
      * now rewrite <- app_assoc.
      * destruct (_ && _); lia.
Qed.

Lemma concat_repeat_single (x : char) n : concat (repeat [x] n) = repeat x n.
Proof. induction n; simpl; auto. now f_equal. Qed.

Lemma fallbackFormat_eq settings code :
  (0 <= indentSize settings)%Z ->
  fallbackFormat settings code =
  Normal (join [nl] (fallback_lines (indentSize settings) 0
                       (filter nonblank (map trim (split_lines code))))).
Proof.
  intros Hw. unfold fallbackFormat, repeat_str.
  destruct (Z.ltb_spec (indentSize settings) 0) as [Hlt|_]; [lia|].
  cbn [bind]. rewrite concat_repeat_single, fallback_loop_spec by lia.
  reflexivity.
Qed.


Lemma drop_while_spaces n t : drop_while is_space (repeat space n ++ t) = drop_while is_space t.
Proof. induction n; simpl; auto. Qed.

Lemma trim_pad n t :
  no_leading_space t -> no_trailing_space t -> trim (repeat space n ++ t) = t.
Proof.
  intros H1 H2. unfold trim, trimStart. rewrite drop_while_spaces.
  now apply trim_fixed.
Qed.

Lemma fallback_lines_trim w ts : forall d,
  Forall (fun t => no_leading_space t /\ no_trailing_space t) ts ->
  map trim (fallback_lines w d ts) = ts.
Proof.
  induction ts as [|t ts IH]; intros d H; simpl; auto.
  inversion H as [|? ? [H1 H2] Hts]; subst.
  rewrite trim_pad, IH by assumption. reflexivity.
Qed.

Lemma split_on_app c x : forall cur s,
  ~ In c x -> split_on c cur (x ++ s) = split_on c (cur ++ x) s.
Proof.
  induction x as [|d x IH]; intros cur s Hx.
  - now rewrite app_nil_r.
  - cbn [app split_on]. destruct (N.eqb_spec d c) as [->|Hd].
    + exfalso. apply Hx. now left.
    + rewrite IH by (intros Hin; apply Hx; now right).
      now rewrite <- app_assoc.
Qed.

Lemma split_on_join c ls :
  ls <> [] -> Forall (fun l => ~ In c l) ls -> split_on c [] (join [c] ls) = ls.
Proof.
  induction ls as [|x ls IH]; intros Hne H; [congruence|].
  inversion H as [|? ? Hx Hls]; subst.
  destruct ls as [|y ls].
  - cbn [join]. rewrite <- (app_nil_r x) at 1. rewrite split_on_app by assumption.
    reflexivity.
  - change (join [c] (x :: y :: ls)) with (x ++ [c] ++ join [c] (y :: ls)).
    rewrite split_on_app by assumption. cbn [app split_on].
    rewrite N.eqb_refl. f_equal. apply IH; auto. congruence.
Qed.

Lemma split_on_lines c s : forall cur l,
  ~ In c cur -> In l (split_on c cur s) -> ~ In c l.
Proof.
  induction s as [|d s IH]; intros cur l Hcur; cbn [split_on].
  - intros [<-|[]]. exact Hcur.
  - destruct (N.eqb_spec d c) as [->|Hd].
    + intros [<-|Hin]; [exact Hcur|]. apply (IH [] l); auto.
    + apply IH. intros Hin. apply in_app_or in Hin as [Hin|[Hin|[]]]; auto.
Qed.

Lemma In_drop_while p (c : char) s : In c (drop_while p s) -> In c s.
Proof.
  induction s as [|d s IH]; simpl; auto.
  destruct (p d); simpl; auto.
Qed.

Lemma In_trim (c : char) s : In c (trim s) -> In c s.
Proof.
  unfold trim, trimEnd, trimStart. intros H.
  apply in_rev, In_drop_while in H. apply in_rev in H.
  now apply In_drop_while in H.
Qed.

Lemma fallback_lines_free w c ts : forall d,
  c <> space -> Forall (fun t => ~ In c t) ts ->
  Forall (fun l => ~ In c l) (fallback_lines w d ts).
Proof.
  induction ts as [|t ts IH]; intros d Hc H; simpl; constructor;
    inversion H; subst; auto.
  intros Hin. apply in_app_or in Hin as [Hin|Hin]; auto.
  apply repeat_spec in Hin. congruence.
Qed.









(** ** Inputs without a definition operator *)

Lemma includes_true l s : includes l s = true <-> exists a b, s = a ++ l ++ b.
Proof.
  split.
  - induction s as [|c s IH]; cbn [includes]; intros H.
    + rewrite orb_false_r in H. exists [], (skipn (length l) []).
      now apply starts_with_split.
    + apply orb_true_iff in H as [H|H].
      * exists [], (skipn (length l) (c :: s)). now apply starts_with_split.
      * destruct (IH H) as (a & b & ->). now exists (c :: a), b.
  - intros (a & b & ->). induction a as [|c a IH].
    + destruct (l ++ b) eqn:E; cbn [includes app]; rewrite <- E, starts_with_app; auto.
    + cbn [includes app]. rewrite IH. apply orb_true_r.
Qed.

Lemma includes_false_part l a s b :
  includes l (a ++ s ++ b) = false -> includes l s = false.
Proof.
  intros H. destruct (includes l s) eqn:E; auto.
  apply includes_true in E as (a' & b' & ->).
  assert (includes l (a ++ (a' ++ l ++ b') ++ b) = true); [|congruence].
  apply includes_true. exists (a ++ a'), (b' ++ b).
  now rewrite <- !app_assoc.
Qed.

Lemma trim_part s : exists a b, s = a ++ trim s ++ b.
Proof.
  exists (take_while is_space s), (rev (take_while is_space (rev (trimStart s)))).
  unfold trim. rewrite <- trimEnd_prefix. apply take_drop_while.
Qed.

Lemma matches_lit r pos s ps rest l :
  matches r pos s ps rest -> In (Lit l) r -> exists a b, s = a ++ l ++ b.
Proof.
  induction 1 as [| l0 r pos s ps rest H IH | cls min r pos p s ps rest Hp Hm H IH
                  | alts l0 r pos s ps rest Hin H IH | r s ps rest H IH
                  | r pos ps rest H IH]; intros Hl; simpl in Hl.
  - contradiction.
  - destruct Hl as [[= ->]|Hl].
    + now exists [], s.
    + destruct (IH Hl) as (a & b & ->). exists (l0 ++ a), b. now rewrite <- app_assoc.
  - destruct Hl as [Hl|Hl]; [discriminate|].
    destruct (IH Hl) as (a & b & ->). exists (p ++ a), b. now rewrite <- app_assoc.
  - destruct Hl as [Hl|Hl]; [discriminate|].
    destruct (IH Hl) as (a & b & ->). exists (l0 ++ a), b. now rewrite <- app_assoc.
  - destruct Hl as [Hl|Hl]; [discriminate|]. auto.
  - destruct Hl as [Hl|Hl]; [discriminate|]. auto.
Qed.

(** A pattern with a literal matches nowhere in a text without it. *)
Lemma no_match_without_lit r l s :
  In (Lit l) r -> includes l s = false ->
  forall n p, match_here r p (skipn n s) = None.
Proof.
  intros Hl Hs n p. destruct (match_here r p (skipn n s)) as [ps|] eqn:Hm; auto.
  apply match_here_sound in Hm as [rest Hm].
  destruct (@matches_lit _ _ _ _ _ l Hm Hl) as (a & b & E).
  assert (includes l s = true); [|congruence].
  apply includes_true. exists (firstn n s ++ a), b.
  rewrite <- (firstn_skipn n s) at 1. rewrite E. now rewrite <- app_assoc.
Qed.

Lemma formatTypeDefinitions_without_operator code :
  includes (str "::=") code = false ->
  formatTypeDefinitionsWithNestedBraces code = code.
Proof.
  intros H. unfold formatTypeDefinitionsWithNestedBraces, collect_matches, exec_all.
  rewrite exec_from_none; [reflexivity|].
  apply no_match_without_lit with (l := str "::="); [|exact H].
  unfold typeDefStartRegex. simpl. auto 10.
Qed.

Lemma simpleFormatASN1_without_operator code :
  includes (str "::=") code = false ->
  simpleFormatASN1 code = cleanupSpacing (trim code).
Proof.
  intros H. unfold simpleFormatASN1.
  assert (Ht : includes (str "::=") (trim code) = false).
  { destruct (trim_part code) as (a & b & E). rewrite E in H.
    now apply includes_false_part in H. }
  unfold replace_all. rewrite replace_from_id.
  - rewrite formatTypeDefinitions_without_operator by exact Ht. reflexivity.
  - apply no_match_without_lit with (l := str "::="); [|exact Ht].
    unfold adjacentTypeDef. simpl. auto 10.
Qed.

Lemma formatASN1Code_nonblank settings code :
  trim code <> [] -> formatASN1Code settings code = Normal (simpleFormatASN1 code).
Proof.
  intros H. unfold formatASN1Code. destruct code as [|c code]; [now destruct H|].
  destruct (trim (c :: code)); [now destruct H|reflexivity].
Qed.

Lemma is_nl_space c : is_space c = false -> is_nl c = false.
Proof.
  unfold is_nl. destruct (N.eqb_spec c nl) as [->|]; auto.
Qed.

Lemma all_last (p : char -> bool) (w : jsstring) d : forallb p w = true -> w <> [] -> p (last w d) = true.
Proof.
  induction w as [|c w IH]; [congruence|]. intros H _.
  simpl in H. apply andb_true_iff in H as [Hc Hw].
  destruct w as [|e w]; [exact Hc|]. rewrite last_cons by congruence.
  apply IH; congruence.
Qed.

Lemma squeeze_trailing_fixed (s : jsstring) : is_nl (last s 0%N) = false -> squeeze_trailing s = s.
Proof.
  induction s as [|c s IH]; intros H; [reflexivity|].
  cbn [squeeze_trailing].
  destruct (forallb is_nl (c :: s)) eqn:Hall.
  - rewrite (all_last is_nl (c :: s)) in H; congruence || assumption.
  - f_equal. destruct s as [|d s]; [reflexivity|].
    apply IH. now rewrite last_cons in H by congruence.
Qed.

Lemma cap_newlines_last (s : jsstring) : forall a,
  s <> [] -> is_nl (last s 0%N) = false ->
  exists pre, cap_newlines a s = pre ++ [last s 0%N].
Proof.
  induction s as [|c s IH]; intros a Hne Hs; [congruence|].
  destruct s as [|d s].
  - simpl in *. rewrite Hs. now exists [].
  - rewrite last_cons in * by congruence.
    remember (d :: s) as t eqn:Et.
    assert (Ht : t <> []) by (subst t; congruence).
    cbn [cap_newlines]. destruct (is_nl c); [destruct (3 <=? a)|].
    + destruct (IH (S a) Ht Hs) as [pre E]. now exists pre.
    + destruct (IH (S a) Ht Hs) as [pre E]. rewrite E. now exists (c :: pre).
    + destruct (IH 0 Ht Hs) as [pre E]. rewrite E. now exists (c :: pre).
Qed.

Lemma cap_newlines_head s :
  is_nl (hd 0%N s) = false -> is_nl (hd 0%N (cap_newlines 0 s)) = false.
Proof. destruct s as [|c s]; simpl; auto. intros H. now rewrite H. Qed.

Lemma cap_newlines_filter s : forall a,
  filter (fun c => negb (is_nl c)) (cap_newlines a s) = filter (fun c => negb (is_nl c)) s.
Proof.
  induction s as [|c s IH]; intros a; cbn [cap_newlines filter]; auto.
  destruct (is_nl c) eqn:Hc; [destruct (3 <=? a)|];
    cbn [filter]; rewrite ?Hc; cbn [negb]; now rewrite IH.
Qed.

(** On a text that neither starts nor ends with a newline, [cleanupSpacing]
    only caps the runs of newlines. *)
Lemma cleanupSpacing_trimmed (s : jsstring) :
  s <> [] -> is_nl (hd 0%N s) = false -> is_nl (last s 0%N) = false ->
  cleanupSpacing s = cap_newlines 0 s.
Proof.
  intros Hne Hh Hl. rewrite cleanupSpacing_eq.
  rewrite drop_while_fixed by now apply cap_newlines_head.
  apply squeeze_trailing_fixed.
  destruct (cap_newlines_last s 0 Hne Hl) as [pre E]. now rewrite E, last_last.
Qed.

(** C10: on an input that is not blank and has no [::=], the output is the
    trimmed input with its runs of newlines capped at three (the removal of
    leading newlines and the squeezing of trailing ones find nothing to do on
    a trimmed text); apart from newlines, the characters of the trimmed input
    are all there, in the same order. *)
Theorem formatASN1Code_without_operator settings code :
  trim code <> [] -> includes (str "::=") code = false ->
  exists out,
    formatASN1Code settings code = Normal out /\
    out = squeeze_trailing (drop_while is_nl (cap_newlines 0 (trim code))) /\
    out = cap_newlines 0 (trim code) /\
    filter (fun c => negb (is_nl c)) out = filter (fun c => negb (is_nl c)) (trim code).
Proof.
  intros Hne Hop. exists (cleanupSpacing (trim code)).
  split; [|split; [|split]].
  - rewrite formatASN1Code_nonblank by assumption.
    now rewrite simpleFormatASN1_without_operator.
  - apply cleanupSpacing_eq.
  - apply cleanupSpacing_trimmed; auto.
    + apply is_nl_space, trim_no_leading.
    + apply is_nl_space, trim_no_trailing.
  - rewrite cleanupSpacing_trimmed; auto.
    + apply cap_newlines_filter.
    + apply is_nl_space, trim_no_leading.
    + apply is_nl_space, trim_no_trailing.
Qed.

Lemma formatASN1Code_without_operator_witness :
  formatASN1Code DEFAULT_SETTINGS (text ["  -- a comment"; EmptyString; EmptyString; EmptyString;
           EmptyString; "END "]%string) =
  Normal (text ["-- a comment"; EmptyString; EmptyString; "END"]%string).
Proof.
  destruct (@formatASN1Code_without_operator DEFAULT_SETTINGS
              (text ["  -- a comment"; EmptyString; EmptyString; EmptyString;
           EmptyString; "END "]%string))
    as (out & H & _ & E & _).
  - vm_compute. discriminate.
  - vm_compute. reflexivity.
  - rewrite H, E. vm_compute. reflexivity.
Defined.

(** ** The blank-line policy *)

Lemma cap_newlines_capped s : forall a,
  runs_capped (Nat.min a 3) (cap_newlines a s) = true.
Proof.
  induction s as [|c s IH]; intros a; cbn [cap_newlines]; auto.
  destruct (is_nl c) eqn:Hc.
  - destruct (Nat.leb_spec 3 a) as [H|H].
    + specialize (IH (S a)). now rewrite !Nat.min_r in * by lia.
    + cbn [runs_capped]. rewrite Hc. specialize (IH (S a)).
      rewrite !Nat.min_l in * by lia.
      rewrite IH. now apply Nat.ltb_lt in H as ->.
  - cbn [runs_capped]. rewrite Hc. apply (IH 0).
Qed.

Lemma runs_capped_mono s : forall a b,
  b <= a -> runs_capped a s = true -> runs_capped b s = true.
Proof.
  induction s as [|c s IH]; intros a b Hab; cbn [runs_capped]; auto.
  destruct (is_nl c); auto.
  intros H. apply andb_true_iff in H as [H1 H2]. apply Nat.ltb_lt in H1.
  apply andb_true_iff. split; [apply Nat.ltb_lt; lia|].
  apply (IH (S a)); auto. lia.
Qed.

Lemma runs_capped_suffix x : forall a s,
  runs_capped a (x ++ s) = true -> runs_capped 0 s = true.
Proof.
  induction x as [|c x IH]; intros a s; cbn [app runs_capped].
  - apply runs_capped_mono. lia.
  - destruct (is_nl c); [|apply IH].
    intros H. apply andb_true_iff in H as [_ H]. now apply IH in H.
Qed.

Lemma runs_capped_includes s :
  runs_capped 0 s = true -> includes [nl; nl; nl; nl] s = false.
Proof.
  intros H. destruct (includes [nl; nl; nl; nl] s) eqn:E; auto.
  apply includes_true in E as (a & b & ->).
  apply runs_capped_suffix in H. simpl in H. discriminate.
Qed.

Lemma runs_capped_squeeze s : forall a,
  runs_capped a s = true -> runs_capped a (squeeze_trailing s) = true.
Proof.
  induction s as [|c s IH]; intros a; auto.
  cbn [squeeze_trailing]. destruct (forallb is_nl (c :: s)) eqn:Hall.
  - simpl in Hall. apply andb_true_iff in Hall as [Hc _].
    cbn [runs_capped]. rewrite Hc. change (is_nl nl) with true. cbn iota.
    intros H. apply andb_true_iff in H as [-> _]. reflexivity.
  - cbn [runs_capped]. destruct (is_nl c); [|apply IH].
    intros H. apply andb_true_iff in H as [-> H]. now apply IH.
Qed.


Lemma cleanupSpacing_head s : is_nl (hd 0%N (cleanupSpacing s)) = false.
Proof.
  rewrite cleanupSpacing_eq.
  pose proof (drop_while_head is_nl (cap_newlines 0 s)) as H.
  destruct (drop_while is_nl (cap_newlines 0 s)) as [|c d]; [reflexivity|].
  cbn [squeeze_trailing forallb]. rewrite H. exact H.
Qed.

Lemma last_app_r (l1 l2 : jsstring) d : l2 <> [] -> last (l1 ++ l2) d = last l2 d.
Proof.
  intros H. induction l1 as [|c l1 IH]; auto.
  cbn [app]. rewrite last_cons; auto. destruct l1; simpl; auto. congruence.
Qed.

Lemma drop_while_keeps_last p (pre : jsstring) x :
  p x = false -> exists pre', drop_while p (pre ++ [x]) = pre' ++ [x].
Proof.
  intros Hx. induction pre as [|c pre IH]; cbn [app drop_while].
  - rewrite Hx. now exists [].
  - destruct (p c); auto. now exists (c :: pre).
Qed.

(** [cleanupSpacing] keeps the end of a text that does not end with a
    newline. *)
Lemma cleanupSpacing_last (s : jsstring) :
  s <> [] -> is_nl (last s 0%N) = false ->
  exists pre, cleanupSpacing s = pre ++ [last s 0%N].
Proof.
  intros Hne Hl. rewrite cleanupSpacing_eq.
  destruct (cap_newlines_last s 0 Hne Hl) as [pre E]. rewrite E.
  destruct (drop_while_keeps_last is_nl pre (last s 0%N) Hl) as [pre' E'].
  rewrite E'. exists pre'. apply squeeze_trailing_fixed. now rewrite last_last.
Qed.

Section ReplaceLast.
Variable r : regex.
Variable f : list jsstring -> jsstring.
Hypothesis matches_end : forall pos s ps,
  match_here r pos s = Some ps ->
  concat ps <> [] /\ exists pre, f ps = pre ++ [last (concat ps) 0%N].

Lemma no_match_at_end pos : match_here r pos [] = None.
Proof.
  destruct (match_here r pos []) as [ps|] eqn:Hm; auto.
  destruct (matches_end _ _ _ Hm) as [Hne _].
  apply match_here_split in Hm. destruct (concat ps); [congruence|discriminate].
Qed.

(** A replacement that keeps the last character of every match keeps the
    last character of the text. *)
Lemma replace_from_last (s : jsstring) : forall pos,
  s <> [] -> exists pre, replace_from r f pos 0 s = pre ++ [last s 0%N].
Proof.
  remember (length s) as n eqn:Hn. revert s Hn.
  induction n as [n IH] using lt_wf_ind; intros s Hn pos Hne.
  destruct s as [|c s]; [congruence|].
  destruct (match_here r pos (c :: s)) as [ps|] eqn:Hm.
  - destruct (matches_end _ _ _ Hm) as [Hps [pre Epre]].
    pose proof (match_here_split _ _ _ _ Hm) as Hs.
    assert (Hlen : 0 < length (concat ps)) by (destruct (concat ps); simpl; [congruence|lia]).
    rewrite (replace_from_match r f _ _ _ Hm Hlen).
    destruct (skipn (length (concat ps)) (c :: s)) as [|d u] eqn:Hu.
    + rewrite replace_from_nil by apply no_match_at_end.
      rewrite app_nil_r in *. rewrite Hs. now exists pre.
    + assert (Hlt : length (d :: u) < n).
      { subst n. rewrite Hs, length_app. lia. }
      destruct (IH _ Hlt (d :: u) eq_refl (pos + length (concat ps))) as [pre' E];
        [congruence|].
      rewrite E. exists (f ps ++ pre'). rewrite Hs at 1.
      rewrite last_app_r by congruence. now rewrite app_assoc.
  - rewrite replace_from_nomatch by assumption.
    destruct s as [|d u].
    + rewrite replace_from_nil by apply no_match_at_end. now exists [].
    + assert (Hlt : length (d :: u) < n) by (subst n; simpl; lia).
      destruct (IH _ Hlt (d :: u) eq_refl (S pos)) as [pre' E]; [congruence|].
      rewrite E. exists (c :: pre').
      now rewrite (last_cons c (d :: u)) by congruence.
Qed.
End ReplaceLast.

Lemma concat_operator_last (a b c d : jsstring) :
  concat [a; b; c; d; str "::="] = (a ++ b ++ c ++ d ++ [58%N; 58%N]) ++ [61%N].
Proof.
  cbn [concat]. rewrite app_nil_r, <- !app_assoc. reflexivity.
Qed.

Lemma adjacentTypeDef_end pos s ps :
  match_here adjacentTypeDef pos s = Some ps ->
  concat ps <> [] /\
  exists pre, [rbrace; nl; nl; nl] ++ concat (skipn 2 ps) = pre ++ [last (concat ps) 0%N].
Proof.
  intros Hm. apply match_here_sound in Hm as [rest Hm].
  unfold adjacentTypeDef in Hm. invert_matches.
  split; [discriminate|].
  rewrite concat_operator_last, last_last. cbn [skipn concat].
  rewrite app_nil_r.
  match goal with
  | |- context [?b ++ ?c ++ str "::="] =>
      exists ([rbrace; nl; nl; nl] ++ b ++ c ++ [58%N; 58%N])
  end.
  rewrite <- !app_assoc. reflexivity.
Qed.

(** The first step of [simpleFormatASN1] keeps the end of the text. *)
Lemma separate_definitions_last (s : jsstring) :
  s <> [] ->
  exists pre,
    replace_all adjacentTypeDef
      (fun ps => [rbrace; nl; nl; nl] ++ concat (skipn 2 ps)) s = pre ++ [last s 0%N].
Proof.
  intros Hne. apply replace_from_last; auto. apply adjacentTypeDef_end.
Qed.

Lemma findMatchingBrace_loop_found rest : forall prev i bc ins,
  findMatchingBrace_loop prev rest i bc ins <> (-1)%Z ->
  exists n, findMatchingBrace_loop prev rest i bc ins = (i + Z.of_nat n)%Z /\
            nth_error rest n = Some rbrace.
Proof.
  induction rest as [|c rest IH]; intros prev i bc ins; [simpl; congruence|].
  pose proof (findMatchingBrace_loop_step prev c rest i
                {| depth := bc; in_string := ins |}) as Hstep.
  cbn [depth in_string] in Hstep. rewrite Hstep. cbv zeta.
  destruct (negb _ && (c =? rbrace)%N && _) eqn:Hret.
  - intros _. exists 0. apply andb_true_iff in Hret as [Hret _].
    apply andb_true_iff in Hret as [_ Hc]. apply N.eqb_eq in Hc. subst c.
    split; [lia|reflexivity].
  - intros H. destruct (IH _ _ _ _ H) as (n & -> & Hn).
    exists (S n). split; [lia|exact Hn].
Qed.

(** Where [findMatchingBrace] finds something, a closing brace stands. *)
Lemma findMatchingBrace_found code openBracePos :
  findMatchingBrace code openBracePos <> (-1)%Z ->
  (Z.max 0 openBracePos <= findMatchingBrace code openBracePos)%Z /\
  nth_error code (Z.to_nat (findMatchingBrace code openBracePos)) = Some rbrace.
Proof.
  unfold findMatchingBrace, substring_from. intros H.
  destruct (findMatchingBrace_loop_found _ _ _ _ _ H) as (n & -> & Hn).
  split; [lia|]. rewrite nth_error_skipn_add in Hn.
  now replace (Z.to_nat (Z.max 0 openBracePos + Z.of_nat n))
    with (Z.to_nat (Z.max 0 openBracePos) + n) by lia.
Qed.

Lemma firstn_S_nth_error (l : jsstring) : forall k x,
  nth_error l k = Some x -> firstn (S k) l = firstn k l ++ [x].
Proof.
  induction l as [|c l IH]; intros [|k] x; simpl; try discriminate.
  - now intros [= ->].
  - intros H. f_equal. now apply IH.
Qed.

Lemma substring_ends code (a b : Z) x :
  (0 <= a <= b)%Z -> nth_error code (Z.to_nat b) = Some x ->
  exists pre, substring code a (b + 1) = pre ++ [x].
Proof.
  intros Hab Hx. unfold substring. rewrite Z.min_l, Z.max_r by lia.
  replace (Z.to_nat (b + 1) - Z.to_nat a) with (S (Z.to_nat b - Z.to_nat a)) by lia.
  eexists. apply firstn_S_nth_error. rewrite nth_error_skipn_add.
  now replace (Z.to_nat a + (Z.to_nat b - Z.to_nat a)) with (Z.to_nat b) by lia.
Qed.

Lemma join_cons sep y ls : ls <> [] -> join sep (y :: ls) = y ++ sep ++ join sep ls.
Proof. destruct ls; [congruence|reflexivity]. Qed.

Lemma join_ends sep ls x : exists pre, join sep (ls ++ [x]) = pre ++ x.
Proof.
  induction ls as [|y ls [pre IH]].
  - now exists [].
  - cbn [app]. rewrite join_cons by (now destruct ls).
    rewrite IH. exists (y ++ sep ++ pre). now rewrite <- !app_assoc.
Qed.

(** A formatted definition ends with a closing brace. *)
Lemma formatSingleTypeDefinition_ends original prefix :
  (exists pre, original = pre ++ [rbrace]) ->
  exists pre, formatSingleTypeDefinition original prefix = pre ++ [rbrace].
Proof.
  intros Ho. unfold formatSingleTypeDefinition.
  destruct (_ || _); [exact Ho|].
  destruct (trim _) as [|c t].
  - exists (trimEnd prefix ++ [nl]). now rewrite <- app_assoc.
  - destruct (_ <=? 1).
    + exists (trimEnd prefix ++ [nl; space; space]
                ++ normalizeFieldContent (c :: t) ++ [nl]).
      rewrite <- !app_assoc. reflexivity.
    + rewrite app_assoc. apply join_ends.
Qed.

Lemma exec_from_matches r s : forall pos skip m,
  In m (exec_from r pos skip s) -> exists p t, match_here r p t = Some (snd m).
Proof.
  induction s as [|c s IH]; intros pos skip m.
  - destruct skip; cbn [exec_from]; [|contradiction].
    destruct (match_here r pos []) eqn:E; [|contradiction].
    intros [<-|[]]. eauto.
  - destruct skip; cbn [exec_from]; [|apply IH].
    destruct (match_here r pos (c :: s)) eqn:E; [|apply IH].
    intros [<-|H]; eauto.
Qed.

Lemma typeDefStart_nonempty pos s ps :
  match_here typeDefStartRegex pos s = Some ps -> concat ps <> [].
Proof.
  intros Hm. apply match_here_sound in Hm as [rest Hm].
  unfold typeDefStartRegex in Hm. invert_matches.
  cbn [concat]. intros H. repeat (apply app_eq_nil in H as [? H]).
  subst. simpl in *. lia.
Qed.

(** Every definition that [formatTypeDefinitionsWithNestedBraces] formats
    comes out with a closing brace at its end. *)
Lemma collect_matches_formatted code m :
  In m (collect_matches code) ->
  exists pre,
    formatSingleTypeDefinition (substring code (td_start m) (td_end m + 1)) (td_prefix m)
    = pre ++ [rbrace].
Proof.
  unfold collect_matches. intros H. apply in_flat_map in H as ([i ps] & Hin & H).
  cbn [fst snd] in H.
  destruct (Z.eqb_spec (findMatchingBrace code
              (Z.of_nat i + Z.of_nat (length (concat ps)) - 1)) (-1)) as [|Hne];
    [contradiction|].
  destruct H as [<-|[]]. cbn [td_start td_end td_prefix].
  destruct (findMatchingBrace_found _ _ Hne) as [Hle Hnth].
  apply exec_from_matches in Hin as (p & t & Hm).
  apply typeDefStart_nonempty in Hm.
  cbn [snd] in Hm.
  assert (0 < length (concat ps))
    by (destruct (concat ps) eqn:E; [congruence|simpl; lia]).
  apply formatSingleTypeDefinition_ends.
  apply substring_ends with (x := rbrace); auto. lia.
Qed.

Lemma app_nonempty_r (a b : jsstring) : b <> [] -> a ++ b <> [].
Proof. intros Hb H. apply app_eq_nil in H as [_ H]. contradiction. Qed.

Lemma last_skipn (l : jsstring) k d : skipn k l <> [] -> last (skipn k l) d = last l d.
Proof.
  intros H. rewrite <- (firstn_skipn k l) at 2. now rewrite last_app_r.
Qed.

Lemma replace_match_ends code (result : jsstring) m :
  In m (collect_matches code) ->
  result <> [] -> is_space (last result 0%N) = false ->
  replace_match code result m <> [] /\
  is_space (last (replace_match code result m) 0%N) = false.
Proof.
  intros Hm Hne Hl. destruct (collect_matches_formatted _ _ Hm) as [pre E].
  unfold replace_match. rewrite E. unfold substring_from.
  destruct (skipn (Z.to_nat (td_end m + 1)) result) as [|d u] eqn:Hu.
  - rewrite app_nil_r, app_assoc. split; [now destruct (_ ++ pre)|].
    now rewrite last_last.
  - split; [do 2 apply app_nonempty_r; congruence|].
    rewrite !last_app_r by (try apply app_nonempty_r; congruence).
    rewrite <- Hu, last_skipn; auto. rewrite Hu. congruence.
Qed.

Lemma fold_replace_match_ends code ms :
  (forall m, In m ms -> In m (collect_matches code)) ->
  forall result : jsstring,
    result <> [] -> is_space (last result 0%N) = false ->
    fold_left (replace_match code) ms result <> [] /\
    is_space (last (fold_left (replace_match code) ms result) 0%N) = false.
Proof.
  induction ms as [|m ms IH]; intros Hin result Hne Hl; [now split|].
  cbn [fold_left].
  destruct (replace_match_ends code result m) as [Hne' Hl']; auto.
  - apply Hin. now left.
  - apply IH; auto. intros m' Hm'. apply Hin. now right.
Qed.

Lemma formatTypeDefinitions_ends (code : jsstring) :
  code <> [] -> is_space (last code 0%N) = false ->
  formatTypeDefinitionsWithNestedBraces code <> [] /\
  is_space (last (formatTypeDefinitionsWithNestedBraces code) 0%N) = false.
Proof.
  intros Hne Hl. apply fold_replace_match_ends; auto.
  intros m. apply in_rev.
Qed.

(** The text that [simpleFormatASN1] hands to [cleanupSpacing] ends with a
    character that is not white space. *)
Lemma simpleFormatASN1_ends code :
  trim code <> [] ->
  simpleFormatASN1 code <> [] /\ is_space (last (simpleFormatASN1 code) 0%N) = false.
Proof.
  intros Hne. unfold simpleFormatASN1.
  destruct (separate_definitions_last (trim code) Hne) as [pre E].
  set (t1 := replace_all adjacentTypeDef _ (trim code)) in *.
  assert (H1 : t1 <> [] /\ is_space (last t1 0%N) = false).
  { rewrite E, last_last. split; [now destruct pre|apply trim_no_trailing]. }
  destruct H1 as [H1 H1'].
  destruct (formatTypeDefinitions_ends t1 H1 H1') as [H2 H2'].
  destruct (cleanupSpacing_last _ H2 (is_nl_space _ H2')) as [pre' E'].
  rewrite E', last_last. split; [now destruct pre'|exact H2'].
Qed.

Lemma cleanupSpacing_runs_capped s : runs_capped 0 (cleanupSpacing s) = true.
Proof.
  rewrite cleanupSpacing_eq. apply runs_capped_squeeze.
  pose proof (cap_newlines_capped s 0) as H. simpl in H.
  rewrite (take_drop_while is_nl (cap_newlines 0 s)) in H.
  now apply runs_capped_suffix in H.
Qed.

Lemma is_word_not_space c : is_word c = true -> is_space c = false.
Proof.
  intros H. destruct (is_space c) eqn:Hs; auto. exfalso.
  unfold is_word, is_space in *. bool_to_prop; lia.
Qed.

(** *** The first character of the output *)

Lemma exec_from_sound r s : forall pos skip i ps,
  In (i, ps) (exec_from r pos skip s) ->
  exists k, i = pos + k /\ match_here r i (skipn k s) = Some ps.
Proof.
  induction s as [|c s IH]; intros pos skip i ps.
  - destruct skip; cbn [exec_from]; [|contradiction].
    destruct (match_here r pos []) eqn:E; [|contradiction].
    intros [[= <- <-]|[]]. exists 0. split; [lia|exact E].
  - destruct skip as [|skip]; cbn [exec_from].
    + destruct (match_here r pos (c :: s)) eqn:E.
      * intros [[= <- <-]|H]; [exists 0; split; [lia|exact E]|].
        apply IH in H as (k & -> & H). exists (S k). split; [lia|exact H].
      * intros H. apply IH in H as (k & -> & H). exists (S k). split; [lia|exact H].
    + intros H. apply IH in H as (k & -> & H). exists (S k). split; [lia|exact H].
Qed.

(** What the pattern of a definition's start matches begins with a word
    character and ends with the opening brace. *)
Lemma typeDefStart_shape pos s ps :
  match_here typeDefStartRegex pos s = Some ps ->
  exists c pre, concat ps = c :: pre ++ [lbrace] /\ is_space c = false.
Proof.
  intros Hm. apply match_here_sound in Hm as [rest Hm].
  unfold typeDefStartRegex in Hm. invert_matches.
  match goal with
  | Hw : forallb is_word ?w = true, Hl : 1 <= length ?w |- _ =>
      destruct w as [|c w]; [simpl in Hl; lia|];
      cbn [forallb] in Hw; apply andb_true_iff in Hw as [Hc _]
  end.
  cbn [concat app]. rewrite ?app_nil_r.
  match goal with
  | |- exists c0 pre, c :: ?w ++ ?a ++ ?b ++ ?d ++ ?e ++ ?f ++ [lbrace] = _ /\ _ =>
      exists c, (w ++ a ++ b ++ d ++ e ++ f)
  end.
  split; [now rewrite <- !app_assoc|now apply is_word_not_space].
Qed.

Lemma formatSingleTypeDefinition_head (original prefix : jsstring) c t pre :
  original = c :: t -> prefix = c :: pre ++ [lbrace] ->
  exists t', formatSingleTypeDefinition original prefix = c :: t'.
Proof.
  intros -> ->. unfold formatSingleTypeDefinition.
  rewrite trimEnd_fixed
    by (unfold no_trailing_space; now rewrite app_comm_cons, last_last).
  destruct (_ || _); [eauto|].
  destruct (trim _) as [|d u]; [cbn [app]; eauto|].
  destruct (_ <=? 1); [cbn [app]; eauto|].
  cbn [app]. rewrite join_cons by (now destruct (field_lines _ _)).
  cbn [app]. eauto.
Qed.

(** Every formatted definition starts with the character that its match
    starts with, which is not white space. *)
Lemma collect_matches_head code m :
  In m (collect_matches code) ->
  (0 <= td_start m)%Z /\
  exists c t,
    formatSingleTypeDefinition (substring code (td_start m) (td_end m + 1)) (td_prefix m)
    = c :: t /\ is_space c = false.
Proof.
  unfold collect_matches, exec_all. intros H.
  apply in_flat_map in H as ([i ps] & Hin & H). cbn [fst snd] in H.
  destruct (Z.eqb_spec (findMatchingBrace code
              (Z.of_nat i + Z.of_nat (length (concat ps)) - 1)) (-1)) as [|Hne];
    [contradiction|].
  destruct H as [<-|[]]. cbn [td_start td_end td_prefix].
  split; [lia|].
  destruct (findMatchingBrace_found _ _ Hne) as [Hle _].
  set (e := findMatchingBrace code _) in *.
  apply exec_from_sound in Hin as (k & Hk & Hm). cbn [Nat.add] in Hk. subst k.
  pose proof (match_here_split _ _ _ _ Hm) as Hsplit.
  destruct (typeDefStart_shape _ _ _ Hm) as (c & pre & Hps & Hc).
  rewrite Hps in Hsplit, Hle |- *. cbn [app] in Hsplit. cbn [length] in Hle.
  assert (Ho : exists t, substring code (Z.of_nat i) (e + 1) = c :: t).
  { unfold substring. rewrite Z.min_l, Z.max_r by lia. rewrite Nat2Z.id, Hsplit.
    destruct (Z.to_nat (e + 1) - i) eqn:E; [lia|]. cbn [firstn]. eauto. }
  destruct Ho as [t Ho].
  destruct (formatSingleTypeDefinition_head _ _ c t pre Ho eq_refl) as [t' E].
  eauto.
Qed.

Lemma replace_match_head code (result : jsstring) m :
  In m (collect_matches code) ->
  result <> [] -> is_space (hd 0%N result) = false ->
  replace_match code result m <> [] /\
  is_space (hd 0%N (replace_match code result m)) = false.
Proof.
  intros Hm Hne Hh. destruct (collect_matches_head _ _ Hm) as (Hs & c & t & E & Hc).
  unfold replace_match. rewrite E. unfold substring.
  rewrite Z.min_l, Z.max_r by lia. cbn [Z.to_nat skipn]. rewrite Nat.sub_0_r.
  destruct result as [|r0 result]; [congruence|].
  destruct (Z.to_nat (td_start m)); cbn [firstn app hd]; split;
    try discriminate; assumption.
Qed.

Lemma fold_replace_match_head code ms :
  (forall m, In m ms -> In m (collect_matches code)) ->
  forall result : jsstring,
    result <> [] -> is_space (hd 0%N result) = false ->
    fold_left (replace_match code) ms result <> [] /\
    is_space (hd 0%N (fold_left (replace_match code) ms result)) = false.
Proof.
  induction ms as [|m ms IH]; intros Hin result Hne Hh; [now split|].
  cbn [fold_left].
  destruct (replace_match_head code result m) as [Hne' Hh']; auto.
  - apply Hin. now left.
  - apply IH; auto. intros m' Hm'. apply Hin. now right.
Qed.

(** The first step of [simpleFormatASN1] keeps a first character that is
    not white space, or puts a closing brace in its place. *)
Lemma separate_definitions_head (s : jsstring) :
  s <> [] -> is_space (hd 0%N s) = false ->
  is_space (hd 0%N (replace_all adjacentTypeDef
                      (fun ps => [rbrace; nl; nl; nl] ++ concat (skipn 2 ps)) s)) = false.
Proof.
  destruct s as [|c s]; [congruence|]. intros _ Hc.
  unfold replace_all. cbn [replace_from].
  destruct (match_here adjacentTypeDef 0 (c :: s)); [reflexivity|exact Hc].
Qed.

(** The output of [simpleFormatASN1] on a text that is not blank: its runs
    of newlines are capped, and it starts and ends with a character that is
    not white space. *)
Lemma simpleFormatASN1_shape code :
  trim code <> [] ->
  runs_capped 0 (simpleFormatASN1 code) = true /\
  simpleFormatASN1 code <> [] /\
  is_space (hd 0%N (simpleFormatASN1 code)) = false /\
  is_space (last (simpleFormatASN1 code) 0%N) = false.
Proof.
  intros Hne. destruct (simpleFormatASN1_ends code Hne) as [Hout Hlast].
  split; [apply cleanupSpacing_runs_capped|]. split; [exact Hout|].
  split; [|exact Hlast].
  unfold simpleFormatASN1.
  destruct (separate_definitions_last (trim code) Hne) as [pre E].
  pose proof (separate_definitions_head (trim code) Hne (trim_no_leading code)) as Hh1.
  set (t1 := replace_all adjacentTypeDef _ (trim code)) in *.
  assert (H1 : t1 <> [] /\ is_space (last t1 0%N) = false).
  { rewrite E, last_last. split; [now destruct pre|apply trim_no_trailing]. }
  destruct H1 as [H1 H1'].
  destruct (formatTypeDefinitions_ends t1 H1 H1') as [H2 H2'].
  assert (Hh2 : is_space (hd 0%N (formatTypeDefinitionsWithNestedBraces t1)) = false).
  { apply fold_replace_match_head; auto. intros m. apply in_rev. }
  rewrite cleanupSpacing_trimmed; auto using is_nl_space.
  destruct (formatTypeDefinitionsWithNestedBraces t1) as [|c t2]; [congruence|].
  cbn [hd] in Hh2. cbn [cap_newlines]. rewrite (is_nl_space _ Hh2). exact Hh2.
Qed.

(** *** The lines of a text whose runs of newlines are capped *)

Lemma split_on_first c cur (s : jsstring) : exists x, hd [] (split_on c cur s) = cur ++ x.
Proof.
  revert cur. induction s as [|d s IH]; intros cur; cbn [split_on].
  - exists []. now rewrite app_nil_r.
  - destruct (d =? c)%N; [exists []; now rewrite app_nil_r|].
    destruct (IH (cur ++ [d])) as [x E]. exists ([d] ++ x). now rewrite E, <- app_assoc.
Qed.

Lemma split_on_capped (s : jsstring) : forall (cur : jsstring) n k,
  (s <> [] -> last s 0%N <> nl) ->
  (cur = [] -> 1 <= n /\ s <> [] /\ runs_capped n s = true /\ k = n - 1) ->
  (cur <> [] -> runs_capped 0 s = true) ->
  empty_lines_capped k (split_on nl cur s) = true.
Proof.
  induction s as [|c s IH]; intros cur n k Hlast Hnil Hcons; cbn [split_on].
  - destruct cur as [|d cur]; [now destruct Hnil as (_ & H & _)|reflexivity].
  - assert (Hs : s <> [] -> last s 0%N <> nl)
      by (intros H; rewrite <- (last_cons c) by exact H; apply Hlast; discriminate).
    destruct (N.eqb_spec c nl) as [->|Hc].
    + assert (Hne : s <> [])
        by (intros ->; apply Hlast; [discriminate|reflexivity]).
      destruct cur as [|d cur]; cbn [empty_lines_capped is_empty].
      * destruct Hnil as (Hn & _ & Hr & ->); [reflexivity|].
        cbn [runs_capped] in Hr. change (is_nl nl) with true in Hr. cbn iota in Hr.
        apply andb_true_iff in Hr as [Hlt Hr]. apply Nat.ltb_lt in Hlt.
        apply andb_true_iff. split; [apply Nat.ltb_lt; lia|].
        apply (IH [] (S n)); [exact Hs| |intros H; now destruct H].
        intros _. repeat split; auto; lia.
      * specialize (Hcons ltac:(discriminate)).
        cbn [runs_capped] in Hcons. change (is_nl nl) with true in Hcons.
        cbn iota in Hcons. apply andb_true_iff in Hcons as [_ Hr].
        apply (IH [] 1); [exact Hs| |intros H; now destruct H].
        intros _. repeat split; auto.
    + assert (Hnl : is_nl c = false) by (unfold is_nl; now apply N.eqb_neq).
      apply (IH (cur ++ [c]) 0); [exact Hs| |].
      * intros H. now destruct cur.
      * intros _. destruct cur as [|d cur].
        -- destruct Hnil as (_ & _ & Hr & _); [reflexivity|].
           cbn [runs_capped] in Hr. now rewrite Hnl in Hr.
        -- specialize (Hcons ltac:(discriminate)).
           cbn [runs_capped] in Hcons. now rewrite Hnl in Hcons.
Qed.

Lemma split_lines_capped (out : jsstring) :
  runs_capped 0 out = true -> out <> [] ->
  is_space (hd 0%N out) = false -> is_space (last out 0%N) = false ->
  empty_lines_capped 0 (split_lines out) = true /\
  is_blank (hd [] (split_lines out)) = false.
Proof.
  intros Hr Hne Hh Hl. destruct out as [|c out]; [congruence|]. cbn [hd] in Hh.
  assert (Hc : (c =? nl)%N = false) by (apply is_nl_space in Hh; exact Hh).
  unfold split_lines. cbn [split_on app]. rewrite Hc.
  cbn [runs_capped] in Hr. unfold is_nl in Hr. rewrite Hc in Hr.
  split.
  - apply (split_on_capped out [c] 0 0); auto; [|discriminate].
    intros H. rewrite <- (last_cons c) by exact H.
    intros E. rewrite E in Hl. discriminate.
  - destruct (split_on_first nl [c] out) as [x E]. rewrite E.
    unfold is_blank. cbn [app forallb]. now rewrite Hh.
Qed.

Lemma formatASN1Code_blank_line_policy_fails :
  (exists out,
     formatASN1Code DEFAULT_SETTINGS (str "Person ::= INTEGER") = Normal out /\
     last out 0%N <> nl) /\
  (exists out,
     formatASN1Code DEFAULT_SETTINGS (text ["a"; " "; " "; " "; " "; "b"]%string)
     = Normal out /\
     out = text ["a"; " "; " "; " "; " "; "b"]%string /\
     blank_lines_capped 0 (split_lines out) = false) /\
  (exists out,
     formatASN1Code DEFAULT_SETTINGS (str " ") = Normal out /\
     last out 0%N <> nl /\ is_blank (hd [] (split_lines out)) = true).
Proof.
  split; [|split]; eexists.
  - split; [vm_compute; reflexivity|]. vm_compute. discriminate.
  - split; [vm_compute; reflexivity|]. split; vm_compute; reflexivity.
  - split; [vm_compute; reflexivity|]. split; [vm_compute; discriminate|reflexivity].
Qed.

(** C8, amended: for every input that is not blank, the output holds no
    three empty lines in a row (no run of more than three newlines), does
    not begin with a blank line (its first character is not white space),
    and ends with a character that is not white space: no newline ends
    it. *)
Theorem formatASN1Code_blank_lines settings code :
  trim code <> [] ->
  exists out,
    formatASN1Code settings code = Normal out /\
    includes [nl; nl; nl; nl] out = false /\
    empty_lines_capped 0 (split_lines out) = true /\
    is_blank (hd [] (split_lines out)) = false /\
    is_space (hd 0%N out) = false /\
    out <> [] /\ is_space (last out 0%N) = false.
Proof.
  intros Hne. exists (simpleFormatASN1 code).
  destruct (simpleFormatASN1_shape code Hne) as (Hr & Hout & Hh & Hl).
  destruct (split_lines_capped _ Hr Hout Hh Hl) as [Hcap Hfirst].
  split; [now apply formatASN1Code_nonblank|].
  split; [now apply runs_capped_includes|].
  auto.
Qed.

Lemma formatASN1Code_blank_lines_witness :
  exists out,
    formatASN1Code DEFAULT_SETTINGS
      (text ["A ::= SEQUENCE { a INTEGER }"; EmptyString; EmptyString; EmptyString;
           EmptyString; EmptyString; "B ::= SET { b A }"; EmptyString]%string)
    = Normal out /\
    empty_lines_capped 0 (split_lines out) = true /\ is_space (last out 0%N) = false.
Proof.
  destruct (formatASN1Code_blank_lines DEFAULT_SETTINGS
              (text ["A ::= SEQUENCE { a INTEGER }"; EmptyString; EmptyString; EmptyString;
           EmptyString; EmptyString; "B ::= SET { b A }"; EmptyString]%string))
    as (out & H & _ & Hcap & _ & _ & _ & Hlast).
  - vm_compute. discriminate.
  - exists out. auto.
Defined.

(** ** Idempotence *)

(** On the examples of the specification, formatting twice is formatting
    once. *)
Lemma formatASN1Code_idempotent_examples settings :
  let twice code :=
    out <- formatASN1Code settings code ;; formatASN1Code settings out in
  let person :=
    text ["Person ::= SEQUENCE {"; "name UTF8String,"; "age INTEGER"; "}"]%string in
  let nested :=
    text ["Person ::= SEQUENCE {"; "name UTF8String,"; "address SEQUENCE {";
          "street UTF8String,"; "city UTF8String"; "}"; "}"]%string in
  let module :=
    text ["TestModule DEFINITIONS ::= BEGIN"; "Person ::= SEQUENCE {";
          "name UTF8String,"; "age INTEGER"; "}";
          "Status ::= ENUMERATED { active(0), inactive(1) }"; "END"]%string in
  twice person = formatASN1Code settings person /\
  twice nested = formatASN1Code settings nested /\
  twice module = formatASN1Code settings module.
Proof. repeat split; vm_compute; reflexivity. Qed.

(** C2: a definition whose body holds a commented-out definition is well
    formed, and each pass of the formatter adds a closing brace to it; a
    comment that ends with a space and a comma loses the space on the second
    pass only. *)
Theorem formatASN1Code_not_idempotent settings :
  let s1 := text ["A ::= SEQUENCE {"; "  a INTEGER"; "  -- B ::= SET { x INTEGER }"; "}"]%string in
  let s2 := text ["A ::= SEQUENCE {"; "  a INTEGER -- count ,"; "}"]%string in
  formatASN1Code settings s1 =
    Normal (text ["A ::= SEQUENCE {"; "  a INTEGER -- B ::= SET { x INTEGER }";
                  "}"; "}"]%string) /\
  formatASN1Code settings
    (text ["A ::= SEQUENCE {"; "  a INTEGER -- B ::= SET { x INTEGER }"; "}"; "}"]%string) =
    Normal (text ["A ::= SEQUENCE {"; "  a INTEGER -- B ::= SET { x INTEGER }";
                  "}"; "}"; "}"]%string) /\
  formatASN1Code settings s2 =
    Normal (text ["A ::= SEQUENCE {"; "  a INTEGER -- count "; "}"]%string) /\
  formatASN1Code settings (text ["A ::= SEQUENCE {"; "  a INTEGER -- count "; "}"]%string) =
    Normal (text ["A ::= SEQUENCE {"; "  a INTEGER -- count"; "}"]%string).
Proof. repeat split; vm_compute; reflexivity. Qed.

(** Inputs of the kinds named by the claim of totality: a missing closing
    brace, a string literal left open. *)
Lemma formatASN1Code_malformed_examples settings :
  formatASN1Code settings
    (text ["Person ::= SEQUENCE {"; "name UTF8String"; "// Missing closing bracket"]%string) =
  Normal (text ["Person ::= SEQUENCE {"; "name UTF8String"; "// Missing closing bracket"]%string) /\
  formatASN1Code settings (str "A ::= SEQUENCE { a UTF8String DEFAULT " ++ quote :: str "x }") =
  Normal (str "A ::= SEQUENCE { a UTF8String DEFAULT " ++ quote :: str "x }").
Proof. split; vm_compute; reflexivity. Qed.

Lemma formatASN1Code_total_witness :
  formatASN1Code DEFAULT_SETTINGS (text ["   "; "  "; "  "]%string) = Normal [].
Proof.
  apply (formatASN1Code_total DEFAULT_SETTINGS (text ["   "; "  "; "  "]%string)).
  vm_compute. reflexivity.
Defined.

(** * Further properties of the code *)

(** ** [cleanupSpacing] on any text *)

Lemma cap_newlines_fixed (s : jsstring) : forall a,
  runs_capped a s = true -> cap_newlines a s = s.
Proof.
  induction s as [|c s IH]; intros a; cbn [runs_capped cap_newlines]; auto.
  destruct (is_nl c).
  - intros H. apply andb_true_iff in H as [Ha H].
    apply Nat.ltb_lt in Ha. destruct (Nat.leb_spec 3 a); [lia|].
    f_equal. now apply IH.
  - intros H. f_equal. now apply IH.
Qed.

Lemma squeeze_trailing_all_nl (s : jsstring) :
  forallb is_nl (squeeze_trailing s) = forallb is_nl s.
Proof.
  induction s as [|c s IH]; auto.
  cbn [squeeze_trailing]. destruct (forallb is_nl (c :: s)) eqn:Hall; [reflexivity|].
  cbn [forallb] in *. now rewrite IH.
Qed.

Lemma squeeze_trailing_idempotent (s : jsstring) :
  squeeze_trailing (squeeze_trailing s) = squeeze_trailing s.
Proof.
  induction s as [|c s IH]; auto.
  cbn [squeeze_trailing]. destruct (forallb is_nl (c :: s)) eqn:Hall; [reflexivity|].
  cbn [squeeze_trailing].
  assert (H : forallb is_nl (c :: squeeze_trailing s) = false)
    by (cbn [forallb] in *; now rewrite squeeze_trailing_all_nl).
  rewrite H. now rewrite IH.
Qed.




Lemma cleanupSpacing_cleaned s :
  cleanupSpacing (cleanupSpacing s) = cleanupSpacing s.
Proof.
  rewrite (cleanupSpacing_eq (cleanupSpacing s)).
  rewrite cap_newlines_fixed by apply cleanupSpacing_runs_capped.
  rewrite drop_while_fixed by apply cleanupSpacing_head.
  rewrite cleanupSpacing_eq. apply squeeze_trailing_idempotent.
Qed.

(** X1: cleaning the spacing twice is cleaning it once. *)
Theorem cleanupSpacing_idempotent s :
  cleanupSpacing (cleanupSpacing s) = cleanupSpacing s.
Proof. apply cleanupSpacing_cleaned. Qed.


(** ** [findMatchingBrace] from any index *)

(** X3: from any start index, [findMatchingBrace] returns -1 or the index
    of a closing brace that lies within the text, at or after the start; it
    returns -1 on a text without a closing brace. *)
Theorem findMatchingBrace_range code openBracePos :
  (findMatchingBrace code openBracePos = (-1)%Z \/
   (Z.max 0 openBracePos <= findMatchingBrace code openBracePos
      < Z.of_nat (length code))%Z /\
   char_at code (findMatchingBrace code openBracePos) = Some rbrace) /\
  (~ In rbrace code -> findMatchingBrace code openBracePos = (-1)%Z).
Proof.
  assert (H : findMatchingBrace code openBracePos <> (-1)%Z ->
              (Z.max 0 openBracePos <= findMatchingBrace code openBracePos
                 < Z.of_nat (length code))%Z /\
              char_at code (findMatchingBrace code openBracePos) = Some rbrace).
  { intros Hne. destruct (findMatchingBrace_found _ _ Hne) as [Hle Hnth].
    assert (Hlt : Z.to_nat (findMatchingBrace code openBracePos) < length code)
      by (apply nth_error_Some; congruence).
    split; [lia|]. unfold char_at.
    destruct (Z.ltb_spec (findMatchingBrace code openBracePos) 0); [lia|exact Hnth]. }
  split.
  - destruct (Z.eq_dec (findMatchingBrace code openBracePos) (-1)); auto.
  - intros Hno. destruct (Z.eq_dec (findMatchingBrace code openBracePos) (-1)) as [|Hne]; auto.
    exfalso. apply Hno. destruct (findMatchingBrace_found _ _ Hne) as [_ Hnth].
    now apply nth_error_In in Hnth.
Qed.

(** ** Texts without a closing brace *)

Lemma includes_single c (s : jsstring) : includes [c] s = true -> In c s.
Proof.
  intros H. apply includes_true in H as (a & b & ->).
  apply in_or_app. right. now left.
Qed.

Lemma flat_map_nil {A B} (f : A -> list B) l :
  (forall x, f x = []) -> flat_map f l = [].
Proof. intros H. induction l as [|x l IH]; simpl; auto. now rewrite H, IH. Qed.

Lemma formatTypeDefinitions_without_closing_brace code :
  ~ In rbrace code -> formatTypeDefinitionsWithNestedBraces code = code.
Proof.
  intros H. unfold formatTypeDefinitionsWithNestedBraces, collect_matches.
  rewrite flat_map_nil; [reflexivity|].
  intros m. destruct (Z.eqb_spec (findMatchingBrace code
              (Z.of_nat (fst m) + Z.of_nat (length (concat (snd m))) - 1)) (-1)) as [|Hne];
    [reflexivity|].
  exfalso. apply H. destruct (findMatchingBrace_found _ _ Hne) as [_ Hnth].
  now apply nth_error_In in Hnth.
Qed.

(** X4: a text that is not blank and has no closing brace at all (a
    definition left open, for instance) is only trimmed and has its runs of
    newlines capped at three. *)
Theorem formatASN1Code_without_closing_brace settings code :
  trim code <> [] -> ~ In rbrace code ->
  formatASN1Code settings code = Normal (cap_newlines 0 (trim code)).
Proof.
  intros Hne Hno. rewrite formatASN1Code_nonblank by assumption.
  assert (Ht : ~ In rbrace (trim code)) by (intros H; now apply In_trim in H).
  unfold simpleFormatASN1, replace_all. rewrite replace_from_id.
  - rewrite formatTypeDefinitions_without_closing_brace by exact Ht.
    f_equal. apply cleanupSpacing_trimmed; auto.
    + apply is_nl_space, trim_no_leading.
    + apply is_nl_space, trim_no_trailing.
  - apply no_match_without_lit with (l := [rbrace]).
    + unfold adjacentTypeDef. simpl. auto.
    + destruct (includes [rbrace] (trim code)) eqn:E; auto.
      now apply includes_single in E.
Qed.

Lemma formatASN1Code_without_closing_brace_witness :
  formatASN1Code DEFAULT_SETTINGS
    (text ["Person ::= SEQUENCE {"; "name UTF8String"; "// Missing closing bracket"]%string) =
  Normal (text ["Person ::= SEQUENCE {"; "name UTF8String"; "// Missing closing bracket"]%string).
Proof.
  rewrite (formatASN1Code_without_closing_brace DEFAULT_SETTINGS
             (text ["Person ::= SEQUENCE {"; "name UTF8String";
                    "// Missing closing bracket"]%string)).
  - vm_compute. reflexivity.
  - vm_compute. discriminate.
  - vm_compute. intuition discriminate.
Defined.

(** ** Idempotence without a definition operator *)

Lemma formatASN1Code_blank settings code :
  trim code = [] -> formatASN1Code settings code = Normal [].
Proof.
  intros H. unfold formatASN1Code. destruct code; [reflexivity|]. now rewrite H.
Qed.

Lemma starts_with_cap_newlines l : forall s a,
  (forall c, In c l -> is_nl c = false) -> a < 3 ->
  starts_with l (cap_newlines a s) = true -> starts_with l s = true.
Proof.
  induction l as [|d l IH]; intros s a Hl Ha; [reflexivity|].
  destruct s as [|e s]; [simpl; auto|].
  cbn [cap_newlines]. destruct (is_nl e) eqn:He.
  - destruct (Nat.leb_spec 3 a) as [Hge|Hlt]; [lia|]. cbn [starts_with].
    intros H. apply andb_true_iff in H as [Hde _]. apply N.eqb_eq in Hde. subst e.
    rewrite Hl in He by now left. discriminate.
  - cbn [starts_with]. intros H. apply andb_true_iff in H as [Hde H].
    rewrite Hde. cbn [andb]. apply (IH s 0); auto. intros c Hc. apply Hl. now right.
Qed.

Lemma includes_cap_newlines l s : forall a,
  (forall c, In c l -> is_nl c = false) -> l <> [] ->
  includes l (cap_newlines a s) = true -> includes l s = true.
Proof.
  intros a Hl Hne. revert a.
  induction s as [|e s IH]; intros a; [simpl; auto|].
  cbn [cap_newlines]. destruct (is_nl e) eqn:He.
  - destruct (Nat.leb_spec 3 a) as [Hge|Hlt].
    + intros H. apply IH in H. cbn [includes]. rewrite H. apply orb_true_r.
    + cbn [includes]. intros H. apply orb_true_iff in H as [H|H].
      * destruct l as [|d l]; [congruence|]. cbn [starts_with] in H.
        apply andb_true_iff in H as [Hde _]. apply N.eqb_eq in Hde. subst e.
        rewrite Hl in He by now left. discriminate.
      * apply IH in H. rewrite H. apply orb_true_r.
  - cbn [includes]. intros H. apply orb_true_iff in H as [H|H].
    + destruct l as [|d l]; [congruence|]. cbn [starts_with] in H.
      apply andb_true_iff in H as [Hde H].
      apply starts_with_cap_newlines in H; [|intros c Hc; apply Hl; now right|lia].
      cbn [starts_with]. now rewrite Hde, H.
    + apply IH in H. rewrite H. apply orb_true_r.
Qed.

(** X5: on an input without [::=], formatting the output again changes
    nothing. *)
Theorem formatASN1Code_idempotent_without_operator settings code :
  includes (str "::=") code = false ->
  (out <- formatASN1Code settings code ;; formatASN1Code settings out) =
  formatASN1Code settings code.
Proof.
  intros Hop. destruct (trim code) as [|c t] eqn:Et.
  - rewrite (formatASN1Code_blank settings code Et). reflexivity.
  - assert (Hne : trim code <> []) by congruence.
    rewrite formatASN1Code_nonblank by assumption.
    rewrite simpleFormatASN1_without_operator by assumption. cbn [bind].
    assert (Hh : is_space (hd 0%N (trim code)) = false) by apply trim_no_leading.
    assert (Hl : is_space (last (trim code) 0%N) = false) by apply trim_no_trailing.
    assert (Hcap : cleanupSpacing (trim code) = cap_newlines 0 (trim code))
      by (apply cleanupSpacing_trimmed; auto using is_nl_space).
    destruct (cap_newlines_last (trim code) 0 Hne (is_nl_space _ Hl)) as [pre E].
    assert (Hfix : trim (cleanupSpacing (trim code)) = cleanupSpacing (trim code)).
    { apply trim_fixed.
      - unfold no_leading_space. rewrite Hcap, Et in *. cbn [hd] in Hh.
        cbn [cap_newlines]. rewrite (is_nl_space _ Hh). exact Hh.
      - unfold no_trailing_space. rewrite Hcap, E, last_last. exact Hl. }
    assert (Hout : cleanupSpacing (trim code) <> [])
      by (rewrite Hcap, E; now destruct pre).
    rewrite formatASN1Code_nonblank by (rewrite Hfix; exact Hout).
    rewrite simpleFormatASN1_without_operator.
    + now rewrite Hfix, cleanupSpacing_cleaned.
    + rewrite Hcap.
      destruct (includes (str "::=") (cap_newlines 0 (trim code))) eqn:Hi; auto.
      apply includes_cap_newlines in Hi.
      * destruct (trim_part code) as (a & b & Ecode). rewrite Ecode in Hop.
        apply includes_false_part in Hop. congruence.
      * intros d [<-|[<-|[<-|[]]]]; reflexivity.
      * discriminate.
Qed.

Lemma formatASN1Code_idempotent_without_operator_witness :
  (out <- formatASN1Code DEFAULT_SETTINGS (text ["  BEGIN"; "-- note"; "END "]%string) ;;
   formatASN1Code DEFAULT_SETTINGS out) =
  Normal (text ["BEGIN"; "-- note"; "END"]%string).
Proof.
  rewrite (formatASN1Code_idempotent_without_operator DEFAULT_SETTINGS
             (text ["  BEGIN"; "-- note"; "END "]%string)).
  - vm_compute. reflexivity.
  - vm_compute. reflexivity.
Defined.

(** ** The fallback indenter, again *)



Lemma kept_lines_trimmed code :
  Forall (fun t => no_leading_space t /\ no_trailing_space t)
         (filter nonblank (map trim (split_lines code))).
Proof.
  apply Forall_forall. intros t Ht. apply filter_In in Ht as [Ht _].
  apply in_map_iff in Ht as (l & <- & _).
  split; [apply trim_no_leading | apply trim_no_trailing].
Qed.

Lemma kept_lines_no_newline code :
  Forall (fun t => ~ In nl t) (filter nonblank (map trim (split_lines code))).
Proof.
  apply Forall_forall. intros t Ht. apply filter_In in Ht as [Ht _].
  apply in_map_iff in Ht as (l & <- & Hl).
  intros Hin. apply In_trim in Hin. revert Hin.
  apply (split_on_lines nl code [] l); auto.
Qed.

Lemma filter_filter {A} (f : A -> bool) l : filter f (filter f l) = filter f l.
Proof.
  induction l as [|x l IH]; simpl; auto.
  destruct (f x) eqn:E; simpl; rewrite ?E, IH; reflexivity.
Qed.

(** X7: with an indent size that is not negative, the fallback applied to
    its own output gives that output again. *)
Theorem fallbackFormat_idempotent settings code :
  (0 <= indentSize settings)%Z ->
  (out <- fallbackFormat settings code ;; fallbackFormat settings out) =
  fallbackFormat settings code.
Proof.
  intros Hw. rewrite (fallbackFormat_eq settings code Hw). cbn [bind].
  rewrite fallbackFormat_eq by exact Hw. do 2 f_equal.
  pose proof (kept_lines_trimmed code) as Htrim.
  pose proof (kept_lines_no_newline code) as Hnl.
  pose proof (filter_filter nonblank (map trim (split_lines code))) as Hff.
  remember (filter nonblank (map trim (split_lines code))) as kept eqn:Ek.
  clear Ek. destruct kept as [|t kept']; [reflexivity|].
  unfold split_lines at 1. rewrite split_on_join.
  - rewrite fallback_lines_trim by exact Htrim. now rewrite Hff.
  - discriminate.
  - apply fallback_lines_free; [discriminate|exact Hnl].
Qed.

Lemma fallbackFormat_idempotent_witness :
  (out <- fallbackFormat DEFAULT_SETTINGS (text ["A ::= SEQUENCE {"; "a X,"; "}"]%string) ;;
   fallbackFormat DEFAULT_SETTINGS out) =
  Normal (text ["A ::= SEQUENCE {"; "  a X,"; "}"]%string).
Proof.
  rewrite (fallbackFormat_idempotent DEFAULT_SETTINGS
             (text ["A ::= SEQUENCE {"; "a X,"; "}"]%string)).
  - vm_compute. reflexivity.
  - vm_compute. discriminate.
Defined.

(** ** The shape of a normalized field *)

Lemma collapse_ws_single_spaced s : forall b,
  single_spaced b (collapse_ws b s) = true.
Proof.
  induction s as [|c s IH]; intros b; cbn [collapse_ws]; auto.
  destruct (is_space c) eqn:Hc.
  - destruct b; [apply IH|]. cbn [single_spaced]. change (is_space space) with true.
    cbn iota. rewrite N.eqb_refl. cbn [negb andb]. apply IH.
  - cbn [single_spaced]. rewrite Hc. apply IH.
Qed.

Lemma collapse_ws_flag (s : jsstring) :
  no_leading_space s -> collapse_ws false s = collapse_ws true s.
Proof.
  unfold no_leading_space. destruct s as [|c s]; cbn [hd collapse_ws]; auto.
  now intros ->.
Qed.

Lemma strip_last_comma_no_leading (s : jsstring) :
  no_leading_space s -> no_leading_space (strip_last_comma s).
Proof.
  unfold no_leading_space. destruct s as [|c [|d s]]; cbn [strip_last_comma hd]; auto.
  destruct (c =? comma)%N; auto.
Qed.

Lemma single_spaced_space (s : jsstring) : forall b c,
  single_spaced b s = true -> In c s -> is_space c = true -> c = space.
Proof.
  induction s as [|d s IH]; intros b c H Hin Hc; [contradiction|].
  destruct Hin as [->|Hin]; cbn [single_spaced] in H.
  - rewrite Hc in H. apply andb_true_iff in H as [H _].
    apply andb_true_iff in H as [H _]. now apply N.eqb_eq in H.
  - destruct (is_space d).
    + apply andb_true_iff in H as [_ H]. eapply IH; eauto.
    + eapply IH; eauto.
Qed.

(** X8: a normalized field is on one line and single-spaced: its white
    space is made of single spaces, each after a character that is not white
    space; it holds no newline and no tab. *)
Theorem normalizeFieldContent_single_spaced raw :
  single_spaced true (normalizeFieldContent raw) = true /\
  ~ In nl (normalizeFieldContent raw) /\ ~ In 9%N (normalizeFieldContent raw).
Proof.
  assert (H : single_spaced true (normalizeFieldContent raw) = true).
  { rewrite normalizeFieldContent_eq.
    rewrite collapse_ws_flag by apply strip_last_comma_no_leading, trim_no_leading.
    apply collapse_ws_single_spaced. }
  split; [exact H|].
  split; intros Hin; apply (single_spaced_space _ _ _ H) in Hin; discriminate || reflexivity.
Qed.

(** ** The top-level splitter on a text without commas *)

Lemma splitTopLevel_loop_no_comma rest : forall prev parts current brace paren bracket inString,
  ~ In comma rest ->
  splitTopLevel_loop prev rest parts current brace paren bracket inString =
  (parts, current ++ rest).
Proof.
  induction rest as [|c rest IH]; intros prev parts current brace paren bracket inString Hno.
  - cbn [splitTopLevel_loop]. now rewrite app_nil_r.
  - assert (Hc : (c =? comma)%N = false)
      by (apply N.eqb_neq; intros ->; apply Hno; now left).
    assert (Hrest : ~ In comma rest) by (intros H; apply Hno; now right).
    cbn [splitTopLevel_loop]. cbv zeta. rewrite Hc. cbn [andb].
    repeat match goal with
           | |- context [if ?b then _ else _] => destruct b
           end;
      rewrite IH by exact Hrest; now rewrite <- app_assoc.
Qed.

(** X9: a text without any comma is one segment, its normalized form, and
    no segment at all when it is blank. *)
Theorem splitTopLevelByComma_no_comma input :
  ~ In comma input ->
  splitTopLevelByComma input =
  match trim input with
  | [] => []
  | _ :: _ => [normalizeFieldContent input]
  end.
Proof.
  intros Hno. unfold splitTopLevelByComma.
  rewrite splitTopLevel_loop_no_comma by exact Hno. cbn [app].
  destruct (trim input); reflexivity.
Qed.

Lemma splitTopLevelByComma_no_comma_witness :
  splitTopLevelByComma (str "  name   UTF8String ") = [str "name UTF8String"].
Proof.
  rewrite (splitTopLevelByComma_no_comma (str "  name   UTF8String ")).
  - vm_compute. reflexivity.
  - vm_compute. intuition discriminate.
Defined.

(** ** The segments of the top-level splitter *)

Lemma splitTopLevel_loop_parts (P : jsstring -> Prop) rest :
  (forall x, P (normalizeFieldContent x)) ->
  forall prev parts current brace paren bracket inString,
    Forall P parts ->
    Forall P (fst (splitTopLevel_loop prev rest parts current brace paren bracket inString)) /\
    length (fst (splitTopLevel_loop prev rest parts current brace paren bracket inString))
    <= length parts + length (filter (N.eqb comma) rest).
Proof.
  intros HP.
  induction rest as [|c rest IH]; intros prev parts current brace paren bracket inString Hparts.
  - cbn. split; [assumption|lia].
  - cbn [splitTopLevel_loop filter]. cbv zeta.
    assert (Hpush : Forall P (parts ++ [normalizeFieldContent current]))
      by (apply Forall_app; split; [assumption|constructor; auto]).
    destruct (N.eqb_spec comma c) as [<-|Hc].
    + rewrite N.eqb_refl. cbn [andb length].
      change (comma =? lbrace)%N with false. change (comma =? rbrace)%N with false.
      change (comma =? lparen)%N with false. change (comma =? rparen)%N with false.
      change (comma =? lbracket)%N with false. change (comma =? rbracket)%N with false.
      change (comma =? quote)%N with false. cbn [andb].
      repeat match goal with
             | |- context [if ?b then _ else _] => destruct b
             end;
        match goal with
        | |- context [splitTopLevel_loop ?a ?b ?c ?d ?e ?f ?g ?h] =>
            destruct (IH a c d e f g h) as [H1 H2]; auto;
            split; [exact H1|]; rewrite ?length_app in H2; simpl in H2; lia
        end.
    + assert (Hc' : (c =? comma)%N = false) by (apply N.eqb_neq; congruence).
      rewrite Hc'. cbn [andb].
      repeat match goal with
             | |- context [if ?b then _ else _] => destruct b
             end;
        apply IH; assumption.
Qed.

(** X10: every segment that the splitter returns is a normalized text,
    single-spaced and without a newline, and there are at most as many
    segments as commas in the text, plus one. *)
Theorem splitTopLevelByComma_segments input :
  Forall (fun seg => single_spaced true seg = true /\ ~ In nl seg)
         (splitTopLevelByComma input) /\
  length (splitTopLevelByComma input) <= length (filter (N.eqb comma) input) + 1.
Proof.
  assert (HP : forall x, single_spaced true (normalizeFieldContent x) = true /\
                         ~ In nl (normalizeFieldContent x)).
  { intros x. split.
    - rewrite normalizeFieldContent_eq.
      rewrite collapse_ws_flag by apply strip_last_comma_no_leading, trim_no_leading.
      apply collapse_ws_single_spaced.
    - intros Hin. eapply single_spaced_space in Hin; [discriminate| |reflexivity].
      rewrite normalizeFieldContent_eq.
      rewrite collapse_ws_flag by apply strip_last_comma_no_leading, trim_no_leading.
      apply collapse_ws_single_spaced. }
  unfold splitTopLevelByComma.
  destruct (splitTopLevel_loop_parts
              (fun seg => single_spaced true seg = true /\ ~ In nl seg)
              input HP None [] [] 0%Z 0%Z 0%Z false (Forall_nil _))
    as [H1 H2].
  destruct (splitTopLevel_loop None input [] [] 0 0 0 false) as [parts current].
  cbn [fst] in *. destruct (0 <? length (trim current))%nat.
  - split.
    + apply Forall_app. split; [assumption|constructor; auto].
    + rewrite length_app. simpl in *. lia.
  - split; [assumption|]. simpl in *. lia.
Qed.

(** ** [splitFields] *)

Lemma splitFields_guarded_loop_eq maxIterations rest :
  forall safetyCounter prev fields current braceCount parenCount bracketCount inString,
    safetyCounter + length rest <= maxIterations ->
    splitFields_guarded_loop maxIterations safetyCounter prev rest fields current
      braceCount parenCount bracketCount inString =
    splitFields_loop prev rest fields current braceCount parenCount bracketCount inString.
Proof.
  induction rest as [|c rest IH];
    intros safetyCounter prev fields current braceCount parenCount bracketCount inString Hle;
    [reflexivity|].
  cbn [splitFields_guarded_loop splitFields_loop]. cbv zeta.
  cbn [length] in Hle.
  destruct (Nat.ltb_spec safetyCounter maxIterations) as [_|Hge]; [|lia].
  repeat match goal with
         | |- context [if ?b then _ else _] => destruct b
         end;
    apply IH; lia.
Qed.

(** X11: the counter of the first definition of [splitFields] never stops
    its loop: the two definitions of the class return the same fields. *)
Theorem splitFields_guarded_eq fieldsStr :
  splitFields_guarded fieldsStr = splitFields fieldsStr.
Proof.
  unfold splitFields_guarded, splitFields. cbv zeta.
  rewrite splitFields_guarded_loop_eq by (simpl; lia). reflexivity.
Qed.

Lemma push_field_clean fields current :
  Forall clean_field fields -> Forall clean_field (push_field fields current).
Proof.
  intros H. unfold push_field. destruct (trim current) as [|c t] eqn:Et; auto.
  apply Forall_app. split; auto. constructor; auto.
  repeat split.
  - discriminate.
  - pose proof (trim_no_leading current) as Hl. rewrite Et in Hl. exact Hl.
  - unfold no_trailing_space. now rewrite last_last.
Qed.

Lemma push_last_field_clean fields current :
  Forall clean_field fields -> Forall clean_field (push_last_field fields current).
Proof.
  intros H. unfold push_last_field. destruct (trim current) as [|c t] eqn:Et; auto.
  apply Forall_app. split; auto. constructor; auto.
  rewrite <- Et. repeat split.
  - rewrite Et. discriminate.
  - apply trim_no_leading.
  - apply trim_no_trailing.
Qed.

Lemma splitFields_loop_clean rest :
  forall prev fields current braceCount parenCount bracketCount inString,
    Forall clean_field fields ->
    Forall clean_field
      (fst (splitFields_loop prev rest fields current
              braceCount parenCount bracketCount inString)).
Proof.
  induction rest as [|c rest IH];
    intros prev fields current braceCount parenCount bracketCount inString H;
    [exact H|].
  cbn [splitFields_loop]. cbv zeta.
  repeat match goal with
         | |- context [if ?b then _ else _] => destruct b
         end;
    apply IH; auto using push_field_clean.
Qed.

(** X12: [splitFields] returns no empty field: every field has a character
    and neither starts nor ends with white space. *)
Theorem splitFields_clean fieldsStr : Forall clean_field (splitFields fieldsStr).
Proof.
  unfold splitFields. cbv zeta.
  pose proof (splitFields_loop_clean (strip_braces fieldsStr) None [] [] 0%Z 0%Z 0%Z false
                (Forall_nil _)) as H.
  destruct (splitFields_loop None (strip_braces fieldsStr) [] [] 0 0 0 false)
    as [fields current].
  now apply push_last_field_clean.
Qed.

(** ** [cleanupFormattedLines] *)






(** ** The line classifiers *)

Lemma regex_test_bol r s :
  regex_test (Bol :: r) s = true -> exists ps, match_here (Bol :: r) 0 s = Some ps.
Proof.
  unfold regex_test. destruct s as [|c s]; cbn [search];
    destruct (match_here (Bol :: r) 0 _) as [ps|]; eauto; try discriminate.
  now rewrite search_bol_none.
Qed.

(** Two runs of one class that start a text, each followed by a character
    out of the class, are the same run. *)
Lemma run_unique (cls : char -> bool) (p1 : jsstring) : forall p2 a b,
  forallb cls p1 = true -> forallb cls p2 = true ->
  match a with c :: _ => cls c = false | [] => True end ->
  match b with c :: _ => cls c = false | [] => True end ->
  p1 ++ a = p2 ++ b -> p1 = p2 /\ a = b.
Proof.
  induction p1 as [|c p1 IH]; intros [|d p2] a b H1 H2 Ha Hb E; cbn [app] in E.
  - auto.
  - subst a. simpl in H2. apply andb_true_iff in H2 as [H2 _]. congruence.
  - subst b. simpl in H1. apply andb_true_iff in H1 as [H1 _]. congruence.
  - injection E as -> E. simpl in H1, H2.
    apply andb_true_iff in H1 as [_ H1]. apply andb_true_iff in H2 as [_ H2].
    destruct (IH p2 a b H1 H2 Ha Hb E) as [-> ->]. auto.
Qed.

Lemma nonempty_length (p : jsstring) : 1 <= length p -> p <> [].
Proof. destruct p; simpl; [lia|discriminate]. Qed.

Lemma typeDefinition_shape line :
  isTypeDefinition line = true ->
  exists w s rest,
    line = w ++ s ++ str "::=" ++ rest /\
    forallb is_word w = true /\ w <> [] /\ forallb is_space s = true.
Proof.
  intros H. apply regex_test_bol in H as [ps H].
  apply match_here_sound in H as [rest H]. unfold typeDefinitionRegex in H.
  invert_matches. eauto 10 using nonempty_length.
Qed.

Lemma moduleDefinition_shape line :
  isModuleDefinition line = true ->
  exists w s rest,
    line = w ++ s ++ str "DEFINITIONS" ++ rest /\
    forallb is_word w = true /\ w <> [] /\
    forallb is_space s = true /\ s <> [] /\
    includes (str "::=") line = true.
Proof.
  intros H. apply regex_test_bol in H as [ps H].
  apply match_here_sound in H as [rest H]. unfold moduleDefinitionRegex in H.
  pose proof H as Hlit. apply matches_lit with (l := str "::=") in Hlit; [|simpl; auto 10].
  apply includes_true in Hlit.
  invert_matches. eauto 12 using nonempty_length.
Qed.

Lemma fieldDefinition_shape line :
  isFieldDefinition line = true ->
  (exists w rest, line = w ++ rest /\ forallb is_word w = true /\ w <> []) /\
  includes (str "::=") line = false.
Proof.
  unfold isFieldDefinition. intros H.
  apply andb_true_iff in H as [H _]. apply andb_true_iff in H as [H Hop].
  apply negb_true_iff in Hop. split; [|exact Hop].
  apply regex_test_bol in H as [ps H].
  apply match_here_sound in H as [rest H]. unfold fieldDefinitionRegex in H.
  invert_matches. eauto 10 using nonempty_length.
Qed.

Lemma word_run_head (w rest : jsstring) :
  forallb is_word w = true -> w <> [] ->
  exists c t, w ++ rest = c :: t /\ is_word c = true.
Proof.
  destruct w as [|c w]; [congruence|]. simpl. intros H _.
  apply andb_true_iff in H as [H _]. eauto.
Qed.

Lemma comment_head line : isComment line = true -> exists t, line = 45%N :: t.
Proof.
  unfold isComment. intros H.
  assert (Hs : starts_with (str "--") line = true \/ starts_with (str "-*") line = true).
  { apply orb_true_iff in H as [H|H]; auto.
    apply andb_true_iff in H as [H _]. auto. }
  destruct Hs as [Hs|Hs]; apply starts_with_split in Hs; rewrite Hs; cbn; eauto.
Qed.

Lemma module_not_type line :
  isModuleDefinition line = true -> isTypeDefinition line = false.
Proof.
  intros Hm. destruct (isTypeDefinition line) eqn:Ht; auto. exfalso.
  apply moduleDefinition_shape in Hm as (w & s & rest & E & Hw & Hwne & Hs & Hsne & _).
  apply typeDefinition_shape in Ht as (w' & s' & rest' & E' & Hw' & _ & Hs').
  rewrite E in E'.
  apply run_unique with (cls := is_word) in E' as [_ E']; auto.
  - apply run_unique with (cls := is_space) in E' as [_ E']; auto.
    + discriminate.
    + reflexivity.
    + reflexivity.
  - destruct s as [|c s]; [congruence|]. cbn [app]. simpl in Hs.
    apply andb_true_iff in Hs as [Hs _].
    destruct (is_word c) eqn:Hc; auto. apply is_word_not_space in Hc. congruence.
  - destruct s' as [|c s']; [reflexivity|]. cbn [app]. simpl in Hs'.
    apply andb_true_iff in Hs' as [Hs' _].
    destruct (is_word c) eqn:Hc; auto. apply is_word_not_space in Hc. congruence.
Qed.

Lemma comment_not_word_start line (w rest : jsstring) :
  isComment line = true -> line = w ++ rest ->
  forallb is_word w = true -> w <> [] -> False.
Proof.
  intros Hc E Hw Hne. apply comment_head in Hc as [t ->].
  destruct (word_run_head w rest Hw Hne) as (c & t' & E' & Hcw).
  rewrite <- E in E'. injection E' as <- _. discriminate.
Qed.

(** X14: the four classifiers of a line exclude one another: a line is at
    most one of module definition, type definition, field definition and
    comment, whatever the order in which they are tried. *)
Theorem line_classifiers_disjoint line :
  Nat.b2n (isModuleDefinition line) + Nat.b2n (isTypeDefinition line)
  + Nat.b2n (isFieldDefinition line) + Nat.b2n (isComment line) <= 1.
Proof.
  destruct (isModuleDefinition line) eqn:Hm.
  - rewrite (module_not_type line Hm).
    destruct (isFieldDefinition line) eqn:Hf.
    + exfalso. apply fieldDefinition_shape in Hf as [_ Hf].
      apply moduleDefinition_shape in Hm as (w & s & rest & _ & _ & _ & _ & _ & Hi).
      congruence.
    + destruct (isComment line) eqn:Hc; [|simpl; lia]. exfalso.
      apply moduleDefinition_shape in Hm as (w & s & rest & E & Hw & Hne & _).
      eapply comment_not_word_start; eauto.
  - destruct (isTypeDefinition line) eqn:Ht.
    + destruct (isFieldDefinition line) eqn:Hf.
      * exfalso. apply fieldDefinition_shape in Hf as [_ Hf].
        apply typeDefinition_shape in Ht as (w & s & rest & E & _).
        assert (includes (str "::=") line = true); [|congruence].
        apply includes_true. exists (w ++ s), rest. rewrite E. now rewrite <- app_assoc.
      * destruct (isComment line) eqn:Hc; [|simpl; lia]. exfalso.
        apply typeDefinition_shape in Ht as (w & s & rest & E & Hw & Hne & _).
        eapply comment_not_word_start; eauto.
    + destruct (isFieldDefinition line) eqn:Hf; [|destruct (isComment line); simpl; lia].
      destruct (isComment line) eqn:Hc; [|simpl; lia]. exfalso.
      apply fieldDefinition_shape in Hf as [(w & rest & E & Hw & Hne) _].
      eapply comment_not_word_start; eauto.
Qed.

(** ** A definition without nested braces *)

Lemma exec_from_skip r k : forall pos s,
  k <= length s ->
  exec_from r pos k s = exec_from r (pos + k) 0 (skipn k s).
Proof.
  induction k as [|k IH]; intros pos s Hk.
  - now rewrite Nat.add_0_r.
  - destruct s as [|c s]; simpl in Hk; [lia|].
    cbn [exec_from skipn]. rewrite IH by lia. f_equal. lia.
Qed.

Lemma exec_from_match r pos s ps :
  match_here r pos s = Some ps ->
  0 < length (concat ps) ->
  exec_from r pos 0 s =
  (pos, ps) :: exec_from r (pos + length (concat ps)) 0 (skipn (length (concat ps)) s).
Proof.
  intros Hm Hn. pose proof (match_here_split _ _ _ _ Hm) as Hs.
  assert (Hlen : length (concat ps) <= length s) by (rewrite Hs, length_app; lia).
  destruct s as [|c s]; simpl in Hlen; [lia|].
  cbn [exec_from]. rewrite Hm. f_equal.
  destruct (length (concat ps)) as [|k]; [lia|].
  cbn [pred]. rewrite exec_from_skip by lia. cbn [skipn]. f_equal. lia.
Qed.

Lemma indexOf_from_first c (pre : jsstring) : forall rest i,
  ~ In c pre -> indexOf_from c (pre ++ c :: rest) i = (i + Z.of_nat (length pre))%Z.
Proof.
  induction pre as [|d pre IH]; intros rest i Hno; cbn [app indexOf_from length].
  - rewrite N.eqb_refl. lia.
  - destruct (N.eqb_spec d c) as [->|_]; [exfalso; apply Hno; now left|].
    rewrite IH by (intros H; apply Hno; now right). lia.
Qed.

Lemma lastIndexOf_from_last c (l : jsstring) : forall i found,
  lastIndexOf_from c (l ++ [c]) i found = (i + Z.of_nat (length l))%Z.
Proof.
  induction l as [|d l IH]; intros i found; cbn [app lastIndexOf_from length].
  - rewrite N.eqb_refl. lia.
  - rewrite IH. lia.
Qed.

Lemma substring_middle (a b c : jsstring) :
  substring (a ++ b ++ c) (Z.of_nat (length a)) (Z.of_nat (length a + length b)) = b.
Proof.
  unfold substring. rewrite Z.min_l, Z.max_r by lia. rewrite !Nat2Z.id.
  replace (length a + length b - length a) with (length b) by lia.
  rewrite skipn_length_app. rewrite firstn_app, Nat.sub_diag, firstn_all.
  cbn [firstn]. apply app_nil_r.
Qed.

Lemma findMatchingBrace_loop_plain (body : jsstring) : forall prev i tail,
  ~ In lbrace body -> ~ In rbrace body -> ~ In quote body ->
  findMatchingBrace_loop prev (body ++ rbrace :: tail) i 1 false =
  (i + Z.of_nat (length body))%Z.
Proof.
  induction body as [|c body IH]; intros prev i tail Hl Hr Hq.
  - cbn. lia.
  - cbn [app findMatchingBrace_loop length].
    assert (Hcq : (c =? quote)%N = false) by (apply N.eqb_neq; intros ->; apply Hq; now left).
    assert (Hcl : (c =? lbrace)%N = false) by (apply N.eqb_neq; intros ->; apply Hl; now left).
    assert (Hcr : (c =? rbrace)%N = false) by (apply N.eqb_neq; intros ->; apply Hr; now left).
    rewrite Hcq, Hcl, Hcr. cbn [andb negb].
    rewrite IH; [lia| | |]; intros H; [apply Hl|apply Hr|apply Hq]; now right.
Qed.

Lemma runs_capped_line (x : jsstring) : forall y,
  ~ In nl x -> runs_capped 0 (x ++ y) = runs_capped 0 y.
Proof.
  induction x as [|c x IH]; intros y Hx; [reflexivity|].
  cbn [app runs_capped].
  assert (Hc : is_nl c = false) by (apply N.eqb_neq; intros ->; apply Hx; now left).
  rewrite Hc. apply IH. intros H. apply Hx. now right.
Qed.

Lemma runs_capped_after_line (x : jsstring) : forall a y,
  x <> [] -> ~ In nl x -> runs_capped a (x ++ y) = runs_capped 0 y.
Proof.
  destruct x as [|c x]; intros a y Hne Hx; [congruence|].
  cbn [app runs_capped].
  assert (Hc : is_nl c = false) by (apply N.eqb_neq; intros ->; apply Hx; now left).
  rewrite Hc. apply runs_capped_line. intros H. apply Hx. now right.
Qed.

Lemma runs_capped_join lines :
  Forall (fun l => l <> [] /\ ~ In nl l) lines ->
  forall a, lines <> [] -> runs_capped a (join [nl] lines) = true.
Proof.
  induction lines as [|x lines IH]; intros H a Hne; [congruence|].
  inversion H as [|? ? [Hx1 Hx2] Hrest]; subst.
  destruct lines as [|y lines].
  - cbn [join]. rewrite <- (app_nil_r x). now rewrite runs_capped_after_line.
  - rewrite join_cons by discriminate.
    rewrite runs_capped_after_line by assumption.
    cbn [app runs_capped]. change (is_nl nl) with true. cbn iota.
    cbn [Nat.ltb Nat.leb andb]. apply IH; auto. discriminate.
Qed.

Lemma normalizeFieldContent_no_newline raw : ~ In nl (normalizeFieldContent raw).
Proof.
  intros Hin. eapply single_spaced_space in Hin; [discriminate| |reflexivity].
  rewrite normalizeFieldContent_eq.
  rewrite collapse_ws_flag by apply strip_last_comma_no_leading, trim_no_leading.
  apply collapse_ws_single_spaced.
Qed.

Lemma field_lines_lines segs :
  Forall (fun l => l <> [] /\ ~ In nl l) (field_lines [space; space] segs).
Proof.
  induction segs as [|seg segs IH]; [constructor|].
  assert (Hn : ~ In nl (normalizeFieldContent seg)) by apply normalizeFieldContent_no_newline.
  destruct segs as [|seg' segs]; cbn [field_lines].
  - constructor; [|constructor]. split; [discriminate|].
    cbn [app In]. intros [H|[H|H]]; try discriminate. auto.
  - constructor; [|exact IH]. split; [discriminate|].
    cbn [app In]. intros [H|[H|H]]; try discriminate.
    apply in_app_or in H. cbn [In] in H. destruct H as [H|[H|H]]; auto; discriminate.
Qed.

Lemma field_lines_length ind segs : length (field_lines ind segs) = length segs.
Proof.
  induction segs as [|seg [|seg' segs] IH]; auto.
  change (field_lines ind (seg :: seg' :: segs))
    with ((ind ++ normalizeFieldContent seg ++ [comma]) :: field_lines ind (seg' :: segs)).
  cbn [length]. now rewrite IH.
Qed.

Lemma skipn_only_last c (pre : jsstring) : forall n u,
  ~ In c pre -> skipn n (pre ++ [c]) = c :: u -> u = [].
Proof.
  induction pre as [|d pre IH]; intros n u Hno.
  - destruct n as [|[|n]]; cbn; congruence.
  - destruct n as [|n]; cbn [app skipn].
    + intros [= -> _]. exfalso. apply Hno. now left.
    + apply IH. intros H. apply Hno. now right.
Qed.

Section FlatDefinition.
Variables h body : jsstring.
Variable ps : list jsstring.
Hypothesis header_match : forall pos tail,
  match_here typeDefStartRegex pos ((h ++ [lbrace]) ++ tail) = Some ps.
Hypothesis header_pieces : concat ps = h ++ [lbrace].
Hypothesis h_nonempty : h <> [].
Hypothesis h_head : is_space (hd 0%N h) = false.
Hypothesis h_lbrace : ~ In lbrace h.
Hypothesis h_rbrace : ~ In rbrace h.
Hypothesis h_nl : ~ In nl h.
Hypothesis body_lbrace : ~ In lbrace body.
Hypothesis body_rbrace : ~ In rbrace body.
Hypothesis body_quote : ~ In quote body.

Lemma flat_input_trimmed :
  trim (flat_input (h ++ [lbrace]) body) = flat_input (h ++ [lbrace]) body.
Proof.
  apply trim_fixed.
  - unfold no_leading_space, flat_input. destruct h; [congruence|exact h_head].
  - unfold no_trailing_space, flat_input. now rewrite app_assoc, last_last.
Qed.

Lemma flat_input_separate :
  replace_all adjacentTypeDef
    (fun ps => [rbrace; nl; nl; nl] ++ concat (skipn 2 ps))
    (flat_input (h ++ [lbrace]) body) = flat_input (h ++ [lbrace]) body.
Proof.
  apply replace_from_id. intros n p.
  destruct (match_here adjacentTypeDef p (skipn n (flat_input (h ++ [lbrace]) body)))
    as [ps'|] eqn:Hm; auto. exfalso.
  apply match_here_sound in Hm as [rest Hm].
  pose proof (matches_concat _ _ _ _ _ Hm) as E.
  unfold adjacentTypeDef in Hm. invert_matches.
  unfold flat_input in E. rewrite app_assoc in E. cbn [concat app] in E.
  apply skipn_only_last in E.
  - apply (f_equal (@length char)) in E. rewrite !length_app in E.
    cbn [length str] in E. lia.
  - intros H. apply in_app_or in H as [H|H]; [|contradiction].
    apply in_app_or in H as [H|[H|[]]]; [contradiction|discriminate].
Qed.

Lemma flat_input_exec :
  exec_all typeDefStartRegex (flat_input (h ++ [lbrace]) body) = [(0, ps)].
Proof.
  unfold exec_all, flat_input.
  assert (Hlen : 0 < length (concat ps))
    by (rewrite header_pieces, length_app; simpl; lia).
  rewrite (exec_from_match _ _ _ _ (header_match 0 (body ++ [rbrace])) Hlen).
  rewrite header_pieces, skipn_length_app. f_equal.
  apply exec_from_none.
  apply no_match_without_lit with (l := [lbrace]).
  - unfold typeDefStartRegex. simpl. auto 10.
  - destruct (includes [lbrace] (body ++ [rbrace])) eqn:E; auto.
    apply includes_single in E. apply in_app_or in E as [E|[E|[]]];
      [contradiction|discriminate].
Qed.

Lemma flat_input_brace :
  findMatchingBrace (flat_input (h ++ [lbrace]) body)
    (Z.of_nat 0 + Z.of_nat (length (h ++ [lbrace])) - 1) =
  Z.of_nat (length h + 1 + length body).
Proof.
  unfold findMatchingBrace, substring_from, flat_input.
  rewrite length_app. cbn [length].
  replace (Z.max 0 (Z.of_nat 0 + Z.of_nat (length h + 1) - 1)) with (Z.of_nat (length h))
    by lia.
  rewrite Nat2Z.id, <- !app_assoc, skipn_length_app.
  cbn [app findMatchingBrace_loop].
  change (lbrace =? quote)%N with false. change (lbrace =? lbrace)%N with true.
  cbn [andb negb].
  rewrite findMatchingBrace_loop_plain by assumption. lia.
Qed.

Lemma flat_input_matches :
  collect_matches (flat_input (h ++ [lbrace]) body) =
  [{| td_start := 0; td_end := Z.of_nat (length h + 1 + length body);
      td_prefix := h ++ [lbrace] |}].
Proof.
  unfold collect_matches. rewrite flat_input_exec.
  cbn [flat_map fst snd app]. rewrite header_pieces, flat_input_brace.
  destruct (Z.eqb_spec (Z.of_nat (length h + 1 + length body)) (-1)); [lia|reflexivity].
Qed.

Lemma flat_input_length :
  length (flat_input (h ++ [lbrace]) body) = length h + 1 + length body + 1.
Proof. unfold flat_input. rewrite !length_app. simpl. lia. Qed.

Lemma flat_input_formatSingle :
  formatSingleTypeDefinition (flat_input (h ++ [lbrace]) body) (h ++ [lbrace]) =
  definition_layout (h ++ [lbrace]) body.
Proof.
  unfold formatSingleTypeDefinition, definition_layout.
  assert (Hi : indexOf lbrace (flat_input (h ++ [lbrace]) body) = Z.of_nat (length h)).
  { unfold indexOf, flat_input. rewrite <- !app_assoc. cbn [app].
    rewrite indexOf_from_first by assumption. lia. }
  assert (Hl : lastIndexOf rbrace (flat_input (h ++ [lbrace]) body) =
               Z.of_nat (length h + 1 + length body)).
  { unfold lastIndexOf, flat_input. rewrite app_assoc, lastIndexOf_from_last.
    rewrite !length_app. simpl. lia. }
  rewrite Hi, Hl.
  destruct (Z.eqb_spec (Z.of_nat (length h)) (-1)); [lia|].
  destruct (Z.eqb_spec (Z.of_nat (length h + 1 + length body)) (-1)); [lia|].
  cbn [orb].
  assert (Hsub : substring (flat_input (h ++ [lbrace]) body) (Z.of_nat (length h) + 1)
                   (Z.of_nat (length h + 1 + length body)) = body).
  { replace (Z.of_nat (length h) + 1)%Z with (Z.of_nat (length (h ++ [lbrace])))
      by (rewrite length_app; simpl; lia).
    replace (length h + 1 + length body) with (length (h ++ [lbrace]) + length body)
      by (rewrite length_app; simpl; lia).
    apply substring_middle. }
  rewrite Hsub.
  rewrite trimEnd_fixed by (unfold no_trailing_space; now rewrite last_last).
  reflexivity.
Qed.

Lemma flat_input_formatTypeDefinitions :
  formatTypeDefinitionsWithNestedBraces (flat_input (h ++ [lbrace]) body) =
  definition_layout (h ++ [lbrace]) body.
Proof.
  unfold formatTypeDefinitionsWithNestedBraces. rewrite flat_input_matches.
  cbn [rev app fold_left]. unfold replace_match. cbn [td_start td_end td_prefix].
  assert (Hall : substring (flat_input (h ++ [lbrace]) body) 0
                   (Z.of_nat (length h + 1 + length body) + 1) =
                 flat_input (h ++ [lbrace]) body).
  { unfold substring. rewrite Z.min_l, Z.max_r by lia. cbn [Z.to_nat skipn].
    rewrite Nat.sub_0_r. apply firstn_all2. rewrite flat_input_length. lia. }
  rewrite Hall, flat_input_formatSingle.
  assert (H0 : substring (flat_input (h ++ [lbrace]) body) 0 0 = []) by reflexivity.
  rewrite H0. unfold substring_from. rewrite skipn_all2 by (rewrite flat_input_length; lia).
  cbn [app]. apply app_nil_r.
Qed.

Lemma definition_layout_shape :
  runs_capped 0 (definition_layout (h ++ [lbrace]) body) = true /\
  exists c pre, definition_layout (h ++ [lbrace]) body = c :: pre ++ [rbrace] /\
                is_nl c = false.
Proof.
  assert (Hh : ~ In nl (h ++ [lbrace]))
    by (intros H; apply in_app_or in H as [H|[H|[]]]; [contradiction|discriminate]).
  destruct h as [|c h'] eqn:Eh; [congruence|]. rewrite <- Eh in *.
  assert (Hc : is_nl c = false) by (rewrite Eh in h_head; apply is_nl_space, h_head).
  unfold definition_layout. destruct (trim body) as [|d t].
  - split.
    + now rewrite runs_capped_line by exact Hh.
    + exists c, (h' ++ [lbrace; nl]). split; [|exact Hc].
      rewrite Eh. repeat (progress (cbn [app]; rewrite <- ?app_assoc)). reflexivity.
  - destruct (length (splitTopLevelByComma (d :: t)) <=? 1).
    + split.
      * rewrite runs_capped_line by exact Hh. cbn [app runs_capped].
        change (is_nl nl) with true. change (is_nl space) with false. cbn iota.
        cbn [Nat.ltb Nat.leb andb].
        now rewrite runs_capped_line by apply normalizeFieldContent_no_newline.
      * exists c, (h' ++ [lbrace] ++ [nl; space; space]
                     ++ normalizeFieldContent (d :: t) ++ [nl]).
        split; [|exact Hc]. rewrite Eh. repeat (progress (cbn [app]; rewrite <- ?app_assoc)). reflexivity.
    + split.
      * apply runs_capped_join; [|discriminate].
        cbn [app]. constructor; [split; [rewrite Eh; discriminate|exact Hh]|].
        apply Forall_app. split; [apply field_lines_lines|].
        constructor; [|constructor]. split; [discriminate|].
        intros [H|[]]. discriminate.
      * rewrite app_assoc. destruct (join_ends [nl]
          ([h ++ [lbrace]] ++ field_lines [space; space] (splitTopLevelByComma (d :: t)))
          [rbrace]) as [pre E].
        pose proof E as E'. cbn [app] in E'.
        rewrite join_cons in E' by (now destruct (field_lines _ _)).
        destruct pre as [|c' pre].
        -- exfalso. rewrite Eh in E'. cbn [app] in E'.
           assert (Hlen := f_equal (@length char) E'). cbn [length app] in Hlen.
           rewrite !length_app in Hlen. cbn [length] in Hlen. lia.
        -- exists c', pre. split; [exact E|].
           rewrite Eh in E'. cbn [app] in E'. injection E' as E' _. now subst c'.
Qed.

Lemma flat_input_cleanup :
  cleanupSpacing (definition_layout (h ++ [lbrace]) body) =
  definition_layout (h ++ [lbrace]) body.
Proof.
  destruct definition_layout_shape as [Hruns (c & pre & E & Hc)].
  rewrite cleanupSpacing_trimmed.
  - now apply cap_newlines_fixed.
  - rewrite E. discriminate.
  - now rewrite E.
  - rewrite E, app_comm_cons, last_last. reflexivity.
Qed.

Lemma flat_input_format settings :
  formatASN1Code settings (flat_input (h ++ [lbrace]) body) =
  Normal (definition_layout (h ++ [lbrace]) body).
Proof.
  rewrite formatASN1Code_nonblank.
  - unfold simpleFormatASN1.
    rewrite flat_input_trimmed, flat_input_separate, flat_input_formatTypeDefinitions.
    now rewrite flat_input_cleanup.
  - rewrite flat_input_trimmed. unfold flat_input. destruct h; [congruence|discriminate].
Qed.
End FlatDefinition.

Lemma first_alt_hit k l alts pos (s : jsstring) ps :
  starts_with l s = true -> k (pos + length l) (skipn (length l) s) = Some ps ->
  first_alt k (l :: alts) pos s = Some (l :: ps).
Proof. intros H1 H2. cbn [first_alt]. now rewrite H1, H2. Qed.

Lemma first_alt_miss k l alts pos (s : jsstring) :
  starts_with l s = false -> first_alt k (l :: alts) pos s = first_alt k alts pos s.
Proof. intros H. cbn [first_alt]. now rewrite H. Qed.

Lemma is_space_not_word c : is_space c = true -> is_word c = false.
Proof.
  intros H. destruct (is_word c) eqn:Hw; auto.
  apply is_word_not_space in Hw. congruence.
Qed.

Lemma forallb_app_inv (p : char -> bool) (a b : jsstring) :
  forallb p (a ++ b) = true -> forallb p a = true /\ forallb p b = true.
Proof. rewrite forallb_app. apply andb_true_iff. Qed.

(** The pattern of a definition's start matches a header, whatever follows
    it, and its pieces are the parts of the header. *)
Lemma typeDefStartRegex_header (name s1 s2 kind s3 : jsstring) pos tail :
  name <> [] -> forallb is_word name = true ->
  forallb is_space s1 = true -> forallb is_space s2 = true ->
  forallb is_space s3 = true ->
  In kind [str "SEQUENCE"; str "SET"; str "CHOICE"; str "ENUMERATED"] ->
  match_here typeDefStartRegex pos (definition_header name s1 s2 kind s3 ++ tail) =
  Some [name; s1; str "::="; s2; kind; s3; [lbrace]].
Proof.
  intros Hne Hw H1 H2 H3 Hk.
  assert (T6 : forall q, match_here [Rep is_space 0; Lit [lbrace]] q
                           (s3 ++ lbrace :: tail) = Some [s3; [lbrace]]).
  { intros q. cbn [match_here]. apply greedy_maximal; auto with arith; reflexivity. }
  assert (T5 : forall q,
    match_here [Alt [str "SEQUENCE"; str "SET"; str "CHOICE"; str "ENUMERATED"];
                Rep is_space 0; Lit [lbrace]] q (kind ++ s3 ++ lbrace :: tail) =
    Some [kind; s3; [lbrace]]).
  { intros q. change (match_here (Alt ?a :: ?r)) with (first_alt (match_here r) a).
    destruct Hk as [<-|[<-|[<-|[<-|[]]]]].
    - apply first_alt_hit; [reflexivity|apply T6].
    - rewrite first_alt_miss by reflexivity.
      apply first_alt_hit; [reflexivity|apply T6].
    - rewrite !first_alt_miss by reflexivity.
      apply first_alt_hit; [reflexivity|apply T6].
    - rewrite !first_alt_miss by reflexivity.
      apply first_alt_hit; [reflexivity|apply T6]. }
  assert (T4 : forall q,
    match_here [Rep is_space 0;
                Alt [str "SEQUENCE"; str "SET"; str "CHOICE"; str "ENUMERATED"];
                Rep is_space 0; Lit [lbrace]] q (s2 ++ kind ++ s3 ++ lbrace :: tail) =
    Some [s2; kind; s3; [lbrace]]).
  { intros q. change (match_here (Rep ?c ?m :: ?r)) with (greedy (match_here r) c m).
    apply greedy_maximal; auto with arith.
    destruct Hk as [<-|[<-|[<-|[<-|[]]]]]; reflexivity. }
  assert (T3 : forall q,
    match_here [Lit (str "::="); Rep is_space 0;
                Alt [str "SEQUENCE"; str "SET"; str "CHOICE"; str "ENUMERATED"];
                Rep is_space 0; Lit [lbrace]] q
      (str "::=" ++ s2 ++ kind ++ s3 ++ lbrace :: tail) =
    Some [str "::="; s2; kind; s3; [lbrace]]).
  { intros q. change (match_here (Lit ?l :: ?r) ?p ?s) with
      (if starts_with l s
       then option_map (cons l) (match_here r (p + length l) (skipn (length l) s))
       else None).
    change (starts_with (str "::=") (str "::=" ++ ?t)) with true. cbv iota.
    change (skipn (length (str "::=")) (str "::=" ++ ?t)) with t.
    now rewrite T4. }
  unfold typeDefStartRegex, definition_header. rewrite <- !app_assoc.
  change ([lbrace] ++ tail) with (lbrace :: tail).
  change (match_here (Rep ?c ?m :: ?r)) with (greedy (match_here r) c m).
  apply greedy_maximal; auto.
  - destruct name; [congruence|simpl; lia].
  - destruct s1 as [|c s1']; [reflexivity|].
    cbn [app]. apply is_space_not_word. cbn [forallb] in H1.
    now apply andb_true_iff in H1.
  - change (match_here (Rep ?c ?m :: ?r)) with (greedy (match_here r) c m).
    apply greedy_maximal; auto with arith. reflexivity.
Qed.

(** A header holds no brace and no line break of its own. *)
Lemma definition_header_chars c (name s1 s2 kind s3 : jsstring) :
  In c [lbrace; rbrace; nl] ->
  forallb is_word name = true ->
  ~ In c (s1 ++ s2 ++ s3) ->
  In kind [str "SEQUENCE"; str "SET"; str "CHOICE"; str "ENUMERATED"] ->
  ~ In c (name ++ s1 ++ str "::=" ++ s2 ++ kind ++ s3).
Proof.
  intros Hc Hw Hs Hk H.
  assert (Hcw : is_word c = false)
    by (destruct Hc as [<-|[<-|[<-|[]]]]; reflexivity).
  assert (Hop : ~ In c (str "::="))
    by (destruct Hc as [<-|[<-|[<-|[]]]]; cbn; intuition discriminate).
  assert (Hkind : ~ In c kind).
  { destruct Hc as [<-|[<-|[<-|[]]]]; destruct Hk as [<-|[<-|[<-|[<-|[]]]]];
      cbn; intuition discriminate. }
  assert (Hname : ~ In c name)
    by (intros Hin; rewrite forallb_forall in Hw; apply Hw in Hin; congruence).
  repeat (apply in_app_or in H as [H|H]; [|try contradiction]);
    try contradiction; apply Hs; apply in_or_app; auto.
  - right. apply in_or_app. auto.
  - right. apply in_or_app. auto.
Qed.

Lemma spaces_without c (s : jsstring) :
  is_space c = false -> forallb is_space s = true -> ~ In c s.
Proof.
  intros Hc Hs H. rewrite forallb_forall in Hs. apply Hs in H. congruence.
Qed.

(** X15. A definition on its own, [name ::= KIND { body }] with a body that
    holds no brace and no double quote, is formatted into the layout of the
    source: the header, then a closing brace on its own line when the body
    is blank, else the body as one normalised field when its top-level
    split gives at most one segment, else one line per segment, indented by
    two spaces and with a comma after all but the last. *)
Theorem formatASN1Code_flat_definition settings (name s1 s2 kind s3 body : jsstring) :
  name <> [] -> forallb is_word name = true ->
  forallb is_space (s1 ++ s2 ++ s3) = true -> ~ In nl (s1 ++ s2 ++ s3) ->
  In kind [str "SEQUENCE"; str "SET"; str "CHOICE"; str "ENUMERATED"] ->
  ~ In lbrace body -> ~ In rbrace body -> ~ In quote body ->
  formatASN1Code settings
    (flat_input (definition_header name s1 s2 kind s3) body) =
  Normal (definition_layout (definition_header name s1 s2 kind s3) body).
Proof.
  intros Hne Hw Hs Hnl Hk Hb1 Hb2 Hb3.
  pose proof Hs as Hs'.
  apply forallb_app_inv in Hs' as [H1 Hs']. apply forallb_app_inv in Hs' as [H2 H3].
  unfold definition_header.
  apply flat_input_format with (ps := [name; s1; str "::="; s2; kind; s3; [lbrace]]).
  - intros pos tail. now apply (typeDefStartRegex_header name s1 s2 kind s3).
  - cbn [concat]. rewrite app_nil_r. now rewrite <- !app_assoc.
  - destruct name; [congruence|discriminate].
  - destruct name as [|c name']; [congruence|]. cbn [app hd].
    apply is_word_not_space. cbn [forallb] in Hw. now apply andb_true_iff in Hw.
  - apply definition_header_chars; cbn; auto.
    apply spaces_without; [reflexivity|exact Hs].
  - apply definition_header_chars; cbn; auto.
    apply spaces_without; [reflexivity|exact Hs].
  - apply definition_header_chars; cbn; auto.
  - exact Hb1.
  - exact Hb2.
  - exact Hb3.
Qed.

Lemma formatASN1Code_flat_definition_witness :
  formatASN1Code DEFAULT_SETTINGS
    (str "Person ::= SEQUENCE {name UTF8String,age   INTEGER }") =
  Normal (text ["Person ::= SEQUENCE {"; "  name UTF8String,"; "  age INTEGER"; "}"]%string).
Proof.
  exact (formatASN1Code_flat_definition DEFAULT_SETTINGS
           (str "Person") (str " ") (str " ") (str "SEQUENCE") (str " ")
           (str "name UTF8String,age   INTEGER ")
           ltac:(discriminate) ltac:(reflexivity) ltac:(reflexivity)
           ltac:(cbn; intuition discriminate) ltac:(cbn; auto)
           ltac:(cbn; intuition discriminate) ltac:(cbn; intuition discriminate)
           ltac:(cbn; intuition discriminate)).
Defined.

(** ** [forceSplitFields] *)

Lemma push_indented_field_map indentStr fields current :
  push_indented_field indentStr (map (app indentStr) fields) current =
  map (app indentStr) (push_field fields current).
Proof.
  unfold push_indented_field, push_field. destruct (trim current); auto.
  now rewrite map_app.
Qed.

Lemma forceSplitFields_loop_map indentStr maxIterations rest :
  forall safetyCounter prev fields current braceCount parenCount bracketCount inString,
    safetyCounter + length rest <= maxIterations ->
    forceSplitFields_loop indentStr maxIterations safetyCounter prev rest
      (map (app indentStr) fields) current braceCount parenCount bracketCount inString =
    (map (app indentStr)
       (fst (splitFields_loop prev rest fields current
               braceCount parenCount bracketCount inString)),
     snd (splitFields_loop prev rest fields current
            braceCount parenCount bracketCount inString)).
Proof.
  induction rest as [|c rest IH];
    intros safetyCounter prev fields current braceCount parenCount bracketCount inString Hle;
    [reflexivity|].
  cbn [forceSplitFields_loop splitFields_loop]. cbv zeta.
  cbn [length] in Hle.
  destruct (Nat.ltb_spec safetyCounter maxIterations) as [_|Hge]; [|lia].
  repeat match goal with
         | |- context [if ?b then _ else _] => destruct b
         end;
    rewrite ?push_indented_field_map; apply IH; lia.
Qed.

Lemma strip_braces_without_braces (fieldsStr : jsstring) :
  ~ In lbrace fieldsStr -> ~ In rbrace fieldsStr -> strip_braces fieldsStr = trim fieldsStr.
Proof.
  intros Hl Hr. unfold strip_braces.
  assert (H1 : replace_first leadingBrace (fun _ => []) fieldsStr = fieldsStr).
  { unfold replace_first. rewrite search_none; auto.
    apply no_match_without_lit with (l := [lbrace]); [simpl; auto|].
    destruct (includes [lbrace] fieldsStr) eqn:E; auto.
    now apply includes_single in E. }
  rewrite H1. unfold replace_first. rewrite search_none; auto.
  apply no_match_without_lit with (l := [rbrace]); [simpl; auto|].
  destruct (includes [rbrace] fieldsStr) eqn:E; auto.
  now apply includes_single in E.
Qed.

Lemma push_last_indented_field_map indentStr (r : list jsstring * jsstring) :
  (let '(fields, current) := (map (app indentStr) (fst r), snd r) in
   Normal (push_last_indented_field indentStr fields current)) =
  Normal (map (app indentStr) (let '(fields, current) := r in
                              push_last_field fields current)).
Proof.
  destruct r as [fields current]. cbn [fst snd]. f_equal.
  unfold push_last_indented_field, push_last_field. destruct (trim current); auto.
  now rewrite map_app.
Qed.

(** X16. On a text without braces the definition of [forceSplitFields] in
    force returns the fields of [splitFields], each behind [indentSize]
    spaces; its counter never stops the loop.  It throws for a negative
    [indentSize], as [' '.repeat] does. *)
Theorem forceSplitFields_splitFields settings (fieldsStr : jsstring) :
  ~ In lbrace fieldsStr -> ~ In rbrace fieldsStr ->
  forceSplitFields settings fieldsStr =
  (indentStr <- repeat_str [space] (indentSize settings) ;;
   Normal (map (app indentStr) (splitFields fieldsStr))).
Proof.
  intros Hl Hr. unfold forceSplitFields, splitFields. cbv zeta.
  rewrite strip_braces_without_braces by assumption.
  destruct (repeat_str [space] (indentSize settings)) as [indentStr|e]; [|reflexivity].
  cbn [bind].
  rewrite (forceSplitFields_loop_map indentStr _ (trim fieldsStr) 0 None [])
    by (simpl; lia).
  apply push_last_indented_field_map.
Qed.

Lemma forceSplitFields_splitFields_witness :
  forceSplitFields DEFAULT_SETTINGS (str " a INTEGER, b SEQUENCE OF (X, Y),, c ") =
  Normal [str "  a INTEGER,"; str "  b SEQUENCE OF (X, Y),"; str "  c"].
Proof.
  exact (forceSplitFields_splitFields DEFAULT_SETTINGS
           (str " a INTEGER, b SEQUENCE OF (X, Y),, c ")
           ltac:(cbn; intuition discriminate) ltac:(cbn; intuition discriminate)).
Defined.

(** ** [isSingleLineStructure] *)

Lemma isTypeDefinition_intro (w s rest : jsstring) :
  forallb is_word w = true -> w <> [] -> forallb is_space s = true ->
  isTypeDefinition (w ++ s ++ str "::=" ++ rest) = true.
Proof.
  intros Hw Hne Hs. unfold isTypeDefinition, regex_test.
  assert (H : match_here typeDefinitionRegex 0 (w ++ s ++ str "::=" ++ rest) =
              Some [[]; w; s; str "::="]).
  { unfold typeDefinitionRegex.
    change (match_here (Bol :: ?r) 0 ?t) with (option_map (cons []) (match_here r 0 t)).
    change (match_here (Rep ?c ?m :: ?r)) with (greedy (match_here r) c m).
    rewrite greedy_maximal with (ps := [s; str "::="]); auto.
    - destruct w; [congruence|simpl; lia].
    - destruct s as [|c s']; [reflexivity|].
      cbn [app]. apply is_space_not_word. cbn [forallb] in Hs.
      now apply andb_true_iff in Hs.
    - change (match_here (Rep ?c ?m :: ?r)) with (greedy (match_here r) c m).
      apply greedy_maximal; auto with arith. reflexivity. }
  destruct (w ++ s ++ str "::=" ++ rest); cbn [search]; now rewrite H.
Qed.

(** X17. A line that [isSingleLineStructure] accepts is, once trimmed, a
    type definition for [isTypeDefinition]: each of its three patterns
    starts as the pattern of [isTypeDefinition] does. *)
Theorem isSingleLineStructure_isTypeDefinition line :
  isSingleLineStructure line = true -> isTypeDefinition (trim line) = true.
Proof.
  unfold isSingleLineStructure, singleLinePatterns. cbn [existsb].
  intros H. rewrite orb_false_r in H.
  apply orb_true_iff in H as [H|H]; [|apply orb_true_iff in H as [H|H]];
    apply regex_test_bol in H as [ps H];
    apply match_here_sound in H as [rest H];
    invert_matches;
    apply isTypeDefinition_intro; eauto using nonempty_length.
Qed.

Lemma isSingleLineStructure_isTypeDefinition_witness :
  isTypeDefinition (trim (str "  Age ::= INTEGER (0..150) ")) = true.
Proof.
  exact (isSingleLineStructure_isTypeDefinition (str "  Age ::= INTEGER (0..150) ")
           ltac:(reflexivity)).
Defined.

(** ** [normalizeASN1Code] *)

Lemma replace_from_const_in r (t s : jsstring) (c : char) : forall pos skip,
  In c (replace_from r (fun _ => t) pos skip s) -> In c s \/ In c t.
Proof.
  induction s as [|d s IH]; intros pos skip H.
  - destruct skip; cbn [replace_from] in H; [|contradiction].
    destruct (match_here r pos []); [|contradiction].
    rewrite app_nil_r in H. auto.
  - destruct skip as [|k]; cbn [replace_from] in H.
    + destruct (match_here r pos (d :: s)) as [ps|].
      * apply in_app_or in H as [H|H]; auto.
        destruct (length (concat ps)).
        -- destruct H as [->|H]; [left; now left|].
           apply IH in H as [H|H]; auto. left. now right.
        -- apply IH in H as [H|H]; auto. left. now right.
      * destruct H as [->|H]; [left; now left|].
        apply IH in H as [H|H]; auto. left. now right.
    + apply IH in H as [H|H]; auto. left. now right.
Qed.

Lemma in_trim (c : char) (s : jsstring) : In c (trim s) -> In c s.
Proof.
  intros H. destruct (trim_part s) as (a & b & E). rewrite E.
  apply in_or_app. right. apply in_or_app. now left.
Qed.

Lemma in_join (c : char) sep (ls : list jsstring) :
  In c (join sep ls) -> In c sep \/ exists l, In l ls /\ In c l.
Proof.
  induction ls as [|x ls IH]; [contradiction|].
  destruct ls as [|y ls].
  - intros H. right. exists x. split; [now left|exact H].
  - rewrite join_cons by discriminate. intros H.
    apply in_app_or in H as [H|H]; [right; exists x; split; [now left|exact H]|].
    apply in_app_or in H as [H|H]; auto.
    apply IH in H as [H|(l & Hl & H)]; auto.
    right. exists l. split; [now right|exact H].
Qed.

Lemma normalizeLine_whitespace line (c : char) :
  In c (normalizeLine line) -> is_space c = true -> c = space.
Proof.
  unfold normalizeLine, replace_all. cbv zeta. intros H Hc.
  apply in_trim in H.
  do 4 (apply replace_from_const_in in H as [H|H];
        [|cbn in H; intuition (subst; try discriminate; auto)]).
  rewrite replace_from_whitespaceRun in H.
  exact (single_spaced_space _ false c (collapse_ws_single_spaced line false) H Hc).
Qed.

(** X18. What [normalizeASN1Code] returns is a fixed point of [trim], and
    its only white-space characters are the space and the line feed: no
    tabulation and no carriage return is left. *)
Theorem normalizeASN1Code_whitespace code :
  trim (normalizeASN1Code code) = normalizeASN1Code code /\
  forall c : char, In c (normalizeASN1Code code) -> is_space c = true ->
                   c = space \/ c = nl.
Proof.
  unfold normalizeASN1Code. cbv zeta. split; [apply trim_idempotent|].
  intros c H Hc. apply in_trim in H.
  apply in_join in H as [[<-|[]]|(l & Hl & H)]; auto.
  apply in_map_iff in Hl as (line & <- & _).
  left. now apply normalizeLine_whitespace with (line := line).
Qed.

(** ** [splitEnumValues] and [forceSplitEnumValues] *)

Lemma filter_bare_comma_push values (current : jsstring) :
  filter (fun v => negb (bare_comma v)) (values ++ [trim current ++ [comma]]) =
  push_field (filter (fun v => negb (bare_comma v)) values) current.
Proof.
  rewrite filter_app. unfold push_field.
  destruct (trim current) as [|c t]; cbn [app filter bare_comma].
  - change (comma =? comma)%N with true. cbn [negb]. apply app_nil_r.
  - now destruct (t ++ [comma]) eqn:E; [destruct t; discriminate|].
Qed.

Lemma forceSplitEnumValues_loop_map indentStr maxIterations rest :
  forall safetyCounter values current parenCount,
    forceSplitEnumValues_loop indentStr maxIterations safetyCounter rest
      (map (app indentStr) (filter (fun v => negb (bare_comma v)) values))
      current parenCount =
    (map (app indentStr)
       (filter (fun v => negb (bare_comma v))
          (fst (splitEnumValues_loop maxIterations safetyCounter rest
                  values current parenCount))),
     snd (splitEnumValues_loop maxIterations safetyCounter rest
            values current parenCount)).
Proof.
  induction rest as [|c rest IH]; intros safetyCounter values current parenCount;
    [reflexivity|].
  cbn [forceSplitEnumValues_loop splitEnumValues_loop]. cbv zeta.
  repeat match goal with
         | |- context [if ?b then _ else _] => destruct b
         end;
    try reflexivity; try apply IH.
  rewrite push_indented_field_map, <- filter_bare_comma_push. apply IH.
Qed.

Lemma in_drop_while (p : char -> bool) (c : char) (s : jsstring) :
  In c s -> p c = false -> In c (drop_while p s).
Proof.
  induction s as [|d s IH]; [contradiction|]. intros [->|H] Hc; cbn [drop_while].
  - rewrite Hc. now left.
  - destruct (p d); [auto|now right].
Qed.

Lemma in_trim_kept (c : char) (s : jsstring) :
  In c s -> is_space c = false -> In c (trim s).
Proof.
  intros H Hc. unfold trim, trimEnd, trimStart.
  rewrite <- in_rev. apply in_drop_while; [|exact Hc].
  rewrite <- in_rev. now apply in_drop_while.
Qed.

(** A comma is kept in the current value only between parentheses, so the
    value holds a parenthesis too. *)
Lemma splitEnumValues_loop_current maxIterations rest :
  forall safetyCounter values (current : jsstring) parenCount,
    (parenCount <> 0%Z -> In lparen current \/ In rparen current) ->
    (In comma current -> In lparen current \/ In rparen current) ->
    In comma (snd (splitEnumValues_loop maxIterations safetyCounter rest
                     values current parenCount)) ->
    In lparen (snd (splitEnumValues_loop maxIterations safetyCounter rest
                      values current parenCount)) \/
    In rparen (snd (splitEnumValues_loop maxIterations safetyCounter rest
                      values current parenCount)).
Proof.
  induction rest as [|c rest IH]; intros safetyCounter values current parenCount HI HJ;
    [exact HJ|].
  cbn [splitEnumValues_loop]. cbv zeta.
  destruct (safetyCounter <? maxIterations); [|exact HJ].
  destruct (N.eqb_spec c lparen) as [->|Hl].
  { apply IH; intros _; left; apply in_or_app; right; now left. }
  destruct (N.eqb_spec c rparen) as [->|Hr].
  { apply IH; intros _; right; apply in_or_app; right; now left. }
  destruct (N.eqb_spec c comma) as [->|Hc]; cbn [andb].
  - destruct (Z.eqb_spec parenCount 0) as [->|Hp].
    + apply IH; [congruence|contradiction].
    + apply IH; intros _; destruct (HI Hp) as [H|H];
        [left|right|left|right]; apply in_or_app; now left.
  - apply IH.
    + intros Hp. destruct (HI Hp) as [H|H]; [left|right]; apply in_or_app; now left.
    + intros H. apply in_app_or in H as [H|[H|[]]]; [|congruence].
      destruct (HJ H) as [H'|H']; [left|right]; apply in_or_app; now left.
Qed.

Lemma push_last_filter indentStr (r : list jsstring * jsstring) :
  trim (snd r) <> [comma] ->
  (let '(values, current) :=
     (map (app indentStr) (filter (fun v => negb (bare_comma v)) (fst r)), snd r) in
   Normal (push_last_indented_field indentStr values current)) =
  Normal (map (app indentStr)
            (filter (fun v => negb (bare_comma v))
               (let '(values, current) := r in push_last_field values current))).
Proof.
  destruct r as [values current]. cbn [fst snd]. intros Hne. f_equal.
  unfold push_last_indented_field, push_last_field.
  destruct (trim current) as [|c t]; auto.
  rewrite filter_app, map_app. cbn [filter bare_comma].
  destruct t; cbn [negb map]; [|reflexivity].
  destruct (N.eqb_spec c comma) as [->|_]; [congruence|reflexivity].
Qed.

(** X19. The definition of [forceSplitEnumValues] in force returns the
    values that [splitEnumValues] finds in the trimmed text, without those
    that are a comma and nothing else, each behind [indentSize] spaces: an
    empty value is dropped by the one and kept as a comma by the other.  It
    throws for a negative [indentSize]. *)
Theorem forceSplitEnumValues_splitEnumValues settings (enumStr : jsstring) :
  forceSplitEnumValues settings enumStr =
  (indentStr <- repeat_str [space] (indentSize settings) ;;
   Normal (map (app indentStr)
             (filter (fun v => negb (bare_comma v)) (splitEnumValues (trim enumStr))))).
Proof.
  unfold forceSplitEnumValues, splitEnumValues. cbv zeta.
  destruct (repeat_str [space] (indentSize settings)) as [indentStr|e]; [|reflexivity].
  cbn [bind].
  rewrite (forceSplitEnumValues_loop_map indentStr _ (trim enumStr) 0 []).
  apply push_last_filter.
  intros E.
  destruct (splitEnumValues_loop_current (length (trim enumStr) * 2) (trim enumStr)
              0 [] [] 0%Z) as [H|H].
  - congruence.
  - contradiction.
  - apply in_trim. rewrite E. now left.
  - apply in_trim_kept in H; [|reflexivity]. rewrite E in H.
    destruct H as [H|[]]. discriminate.
  - apply in_trim_kept in H; [|reflexivity]. rewrite E in H.
    destruct H as [H|[]]. discriminate.
Qed.

(** ** The bracket matcher against the specification *)






(** ** Where normalizing twice is normalizing once *)

(** X21. [normalizeFieldContent] applied to its own result changes nothing
    whenever the text that is left of the trimmed input once its final
    comma is stripped ends neither with a comma nor with white space. *)
Theorem normalizeFieldContent_idempotent x :
  last (strip_last_comma (trim x)) 0%N <> comma ->
  is_space (last (strip_last_comma (trim x)) 0%N) = false ->
  normalizeFieldContent (normalizeFieldContent x) = normalizeFieldContent x.
Proof.
  intros Hx Hs. rewrite !normalizeFieldContent_eq.
  pose proof (strip_last_comma_no_leading _ (trim_no_leading x)) as Hld.
  destruct (strip_last_comma (trim x)) as [|c t] eqn:Eu; [reflexivity|].
  assert (Hne : c :: t <> []) by congruence.
  destruct (collapse_ws_last (c :: t) false Hne Hs) as [pre E].
  assert (Hfix : trim (collapse_ws false (c :: t)) = collapse_ws false (c :: t)).
  { apply trim_fixed; [now apply collapse_ws_keeps_head|].
    unfold no_trailing_space. rewrite E, last_last. exact Hs. }
  rewrite Hfix, E, strip_last_comma_keep by exact Hx.
  rewrite <- E. apply collapse_ws_idempotent.
Qed.

Lemma normalizeFieldContent_idempotent_witness :
  normalizeFieldContent (normalizeFieldContent (str "  name   UTF8String, ")) =
  normalizeFieldContent (str "  name   UTF8String, ").
Proof.
  apply normalizeFieldContent_idempotent.
  - vm_compute. discriminate.
  - vm_compute. reflexivity.
Defined.
